(** * ProxiCall: the proximity radar, verified against its TypeScript source

    Shallow embedding of [types.ts], [constants.ts], [App.tsx] (the
    simulation tick, tracking toggle, add-contact handler, contact list and
    assistant modal) and [components/Radar.tsx] (the polar projection of
    nearby contacts and their labels).

    Modelling conventions
    - a JavaScript [number] is an IEEE 754 binary64 value: Rocq's primitive
      [float], whose [+], [-], [*], [/] and comparisons round and compare
      exactly as the JavaScript operators do;
    - a JavaScript string is the list of its UTF-16 code units;
    - [Math.random()] reads the next value of an arbitrary stream of draws;
    - [Math.atan2], [Math.cos], [Math.sin], [encodeURIComponent] and the
      distance utility of [services/locationService] are parameters of the
      sections that use them;
    - the geolocation provider and the assistant service of
      [services/geminiService] answer in a later event, or fail;
    - the React runtime is a labelled transition system: one event handler
      runs at a time, its state updates are committed together, and when
      [isTracking] or [userLocation] has changed (objects being compared by
      identity) the simulation effect is cleaned up and run again before
      the next event;
    - a click is an event only where its button is on the page and
      enabled. *)

From Stdlib Require Import Reals Lra.
From Stdlib Require Import Floats ZArith List Bool Lia String Ascii DecimalString.
From Stdlib Require DecimalZ DecimalPos.
Import ListNotations.

#[local] Set Warnings "-inexact-float".
#[local] Open Scope float_scope.

(** ** types.ts *)

(** UTF-16 code units. *)
Definition jsstring := list N.

Definition js (s : string) : jsstring :=
  map N_of_ascii (list_ascii_of_string s).

(** A [Date] is represented by its time value, milliseconds since the epoch. *)
Definition Date := Z.

Record Coordinates := {
  latitude : float;
  longitude : float
}.

Record Contact := {
  id : jsstring;
  name : jsstring;
  phoneNumber : jsstring;
  avatarUrl : jsstring;
  location : Coordinates;
  isRegistered : bool;
  lastSeen : Date
}.

(** [interface NearbyContact extends Contact { distanceKm: number }] *)
Record NearbyContact := {
  base : Contact;
  distanceKm : float
}.

(** ** constants.ts *)

Definition MOCK_USER_START_LOCATION : Coordinates :=
  {| latitude := 40.7128; longitude := -74.0060 |}.

(** [lastSeen: new Date()] is evaluated when the module is loaded, at [t0]. *)
Definition INITIAL_CONTACTS (t0 : Date) : list Contact :=
  [ {| id := js "1";
       name := js "Yacob";
       phoneNumber := js "9943926886";
       avatarUrl := js "https://ui-avatars.com/api/?name=Yacob&background=random";
       location := {| latitude := 40.7145; longitude := -74.0075 |};
       isRegistered := true;
       lastSeen := t0 |} ].

Definition RADAR_RADIUS_KM : float := 5.

(** ** Math.random as a state monad over the stream of draws *)

(** The stream of values successive calls of [Math.random()] return. *)
Definition Draws := nat -> float.

(** A computation that calls [Math.random()]: it reads the stream from the
    position it is given and returns the position it stopped at. *)
Definition Rand (A : Type) := Draws -> nat -> A * nat.

Definition ret {A} (a : A) : Rand A := fun _ n => (a, n).

Definition bind {A B} (m : Rand A) (k : A -> Rand B) : Rand B :=
  fun d n => let (a, n') := m d n in k a d n'.

Definition Math_random : Rand float := fun d n => (d n, S n).

Notation "x <- m ;; k" := (bind m (fun x => k))
  (at level 61, m at next level, right associativity).

(** [Array.prototype.map] with an effectful callback: the callback runs on
    the elements from left to right. *)
Fixpoint mapM {A B} (f : A -> Rand B) (l : list A) : Rand (list B) :=
  match l with
  | [] => ret []
  | a :: l' => b <- f a ;; bs <- mapM f l' ;; ret (b :: bs)
  end.

(** ** App.tsx: the random walk *)

Definition moveContact (c : Contact) : Rand Contact :=
  if negb (isRegistered c) then ret c
  else
    r1 <- Math_random ;;
    let latMove := (r1 - 0.5) * 0.0005 in
    r2 <- Math_random ;;
    let lonMove := (r2 - 0.5) * 0.0005 in
    ret {| id := id c;
           name := name c;
           phoneNumber := phoneNumber c;
           avatarUrl := avatarUrl c;
           location := {| latitude := latitude (location c) + latMove;
                          longitude := longitude (location c) + lonMove |};
           isRegistered := isRegistered c;
           lastSeen := lastSeen c |}.

Definition moveContacts (contacts : list Contact) : Rand (list Contact) :=
  mapM moveContact contacts.

(** ** App.tsx: the simulation tick *)

Section Tick.

(** [calculateDistanceKm] of [services/locationService]. *)
Variable calculateDistanceKm : Coordinates -> Coordinates -> float.

(** The body of [moved.forEach(contact => ...)]: [nearby] is the array the
    callback pushes to. *)
Definition checkDistance (userLocation : Coordinates)
    (nearby : list NearbyContact) (contact : Contact) : list NearbyContact :=
  if negb (isRegistered contact) then nearby
  else
    let dist := calculateDistanceKm userLocation (location contact) in
    if dist <=? RADAR_RADIUS_KM
    then nearby ++ [ {| base := contact; distanceKm := dist |} ]
    else nearby.

Definition checkDistances (userLocation : Coordinates) (moved : list Contact)
    : list NearbyContact :=
  fold_left (checkDistance userLocation) moved [].

(** The interval callback: the new [allContacts] and the value passed to
    [setNearbyContacts]. *)
Definition tick (userLocation : Coordinates) (prev : list Contact)
    : Rand (list Contact * list NearbyContact) :=
  moved <- moveContacts prev ;;
  ret (moved, checkDistances userLocation moved).

End Tick.

(** ** String helpers used by the add-contact form *)

(** ECMAScript [WhiteSpace] and [LineTerminator] code points, the ones
    [String.prototype.trim] strips. *)
Definition isWhiteSpace (c : N) : bool :=
  match c with
  | 9 | 10 | 11 | 12 | 13 | 32 | 160 | 5760
  | 8232 | 8233 | 8239 | 8287 | 12288 | 65279 => true
  | _ => (8192 <=? c)%N && (c <=? 8202)%N
  end%N.

Fixpoint trimStart (s : jsstring) : jsstring :=
  match s with
  | [] => []
  | c :: s' => if isWhiteSpace c then trimStart s' else s
  end.

Definition trimEnd (s : jsstring) : jsstring := rev (trimStart (rev s)).

Definition trim (s : jsstring) : jsstring := trimEnd (trimStart s).

(** [!s]: the empty string is the only falsy string. *)
Definition falsy (s : jsstring) : bool :=
  match s with [] => true | _ => false end.

(** The name (or phone) is empty or consists of white space only. *)
Definition blank (s : jsstring) : bool := forallb isWhiteSpace s.

(** [n.toString()] for an integral number below 1e21 in magnitude, such as
    the value of [Date.now()]. *)
Definition toString (n : Z) : jsstring :=
  js (NilZero.string_of_int (Z.to_int n)).

(** ** App.tsx: component state and event handlers *)

Definition TimerId := nat.

(** The state of [App] the handlers below read or write, and the part of
    the runtime they depend on.  [activeTab], [alerts], [selectedContact],
    [aiResponse] and [isAiLoading] play no role in them and are left out. *)
Record AppState := {
  isTracking : bool;
  userLocation : option Coordinates;
  (** Whether the object in [userLocation] is the constant
      [MOCK_USER_START_LOCATION] itself and not an object a position
      callback built: React compares the old and the new value of a state
      with [Object.is]. *)
  holdsStartLocation : bool;
  allContacts : list Contact;
  nearbyContacts : list NearbyContact;
  isAddingContact : bool;
  newContactName : jsstring;
  newContactPhone : jsstring;
  (** [simulationRef.current]: initialised to [null], assigned nowhere. *)
  simulationRef : option TimerId;
  (** The browser's active intervals, each with the [userLocation] its
      callback closed over. *)
  timers : list (TimerId * Coordinates);
  (** The interval the cleanup function of the last effect run will clear. *)
  cleanup : option TimerId;
  nextTimer : TimerId;
  (** Calls of [getCurrentPosition] that have not called back yet. *)
  pendingPositions : nat
}.

Definition initialState (t0 : Date) : AppState :=
  {| isTracking := false;
     userLocation := None;
     holdsStartLocation := false;
     allContacts := INITIAL_CONTACTS t0;
     nearbyContacts := [];
     isAddingContact := false;
     newContactName := [];
     newContactPhone := [];
     simulationRef := None;
     timers := [];
     cleanup := None;
     nextTimer := 1%nat;
     pendingPositions := 0%nat |}.

Definition setTracking (b : bool) (s : AppState) : AppState :=
  {| isTracking := b; userLocation := userLocation s;
     holdsStartLocation := holdsStartLocation s;
     allContacts := allContacts s; nearbyContacts := nearbyContacts s;
     isAddingContact := isAddingContact s; newContactName := newContactName s;
     newContactPhone := newContactPhone s; simulationRef := simulationRef s;
     timers := timers s; cleanup := cleanup s; nextTimer := nextTimer s;
     pendingPositions := pendingPositions s |}.

(** [setUserLocation(v)] where [v] is [null] or a new object. *)
Definition setUserLocation (u : option Coordinates) (s : AppState) : AppState :=
  {| isTracking := isTracking s; userLocation := u;
     holdsStartLocation := false;
     allContacts := allContacts s; nearbyContacts := nearbyContacts s;
     isAddingContact := isAddingContact s; newContactName := newContactName s;
     newContactPhone := newContactPhone s; simulationRef := simulationRef s;
     timers := timers s; cleanup := cleanup s; nextTimer := nextTimer s;
     pendingPositions := pendingPositions s |}.

(** [setUserLocation(MOCK_USER_START_LOCATION)]. *)
Definition setUserLocationToStart (s : AppState) : AppState :=
  {| isTracking := isTracking s;
     userLocation := Some MOCK_USER_START_LOCATION;
     holdsStartLocation := true;
     allContacts := allContacts s; nearbyContacts := nearbyContacts s;
     isAddingContact := isAddingContact s; newContactName := newContactName s;
     newContactPhone := newContactPhone s; simulationRef := simulationRef s;
     timers := timers s; cleanup := cleanup s; nextTimer := nextTimer s;
     pendingPositions := pendingPositions s |}.

Definition setAllContacts (l : list Contact) (s : AppState) : AppState :=
  {| isTracking := isTracking s; userLocation := userLocation s;
     holdsStartLocation := holdsStartLocation s;
     allContacts := l; nearbyContacts := nearbyContacts s;
     isAddingContact := isAddingContact s; newContactName := newContactName s;
     newContactPhone := newContactPhone s; simulationRef := simulationRef s;
     timers := timers s; cleanup := cleanup s; nextTimer := nextTimer s;
     pendingPositions := pendingPositions s |}.

Definition setNearbyContacts (l : list NearbyContact) (s : AppState) : AppState :=
  {| isTracking := isTracking s; userLocation := userLocation s;
     holdsStartLocation := holdsStartLocation s;
     allContacts := allContacts s; nearbyContacts := l;
     isAddingContact := isAddingContact s; newContactName := newContactName s;
     newContactPhone := newContactPhone s; simulationRef := simulationRef s;
     timers := timers s; cleanup := cleanup s; nextTimer := nextTimer s;
     pendingPositions := pendingPositions s |}.

Definition setIsAddingContact (b : bool) (s : AppState) : AppState :=
  {| isTracking := isTracking s; userLocation := userLocation s;
     holdsStartLocation := holdsStartLocation s;
     allContacts := allContacts s; nearbyContacts := nearbyContacts s;
     isAddingContact := b; newContactName := newContactName s;
     newContactPhone := newContactPhone s; simulationRef := simulationRef s;
     timers := timers s; cleanup := cleanup s; nextTimer := nextTimer s;
     pendingPositions := pendingPositions s |}.

Definition setNewContactName (v : jsstring) (s : AppState) : AppState :=
  {| isTracking := isTracking s; userLocation := userLocation s;
     holdsStartLocation := holdsStartLocation s;
     allContacts := allContacts s; nearbyContacts := nearbyContacts s;
     isAddingContact := isAddingContact s; newContactName := v;
     newContactPhone := newContactPhone s; simulationRef := simulationRef s;
     timers := timers s; cleanup := cleanup s; nextTimer := nextTimer s;
     pendingPositions := pendingPositions s |}.

Definition setNewContactPhone (v : jsstring) (s : AppState) : AppState :=
  {| isTracking := isTracking s; userLocation := userLocation s;
     holdsStartLocation := holdsStartLocation s;
     allContacts := allContacts s; nearbyContacts := nearbyContacts s;
     isAddingContact := isAddingContact s; newContactName := newContactName s;
     newContactPhone := v; simulationRef := simulationRef s;
     timers := timers s; cleanup := cleanup s; nextTimer := nextTimer s;
     pendingPositions := pendingPositions s |}.

(** The runtime fields: active intervals, pending cleanup, next handle. *)
Definition setRuntime (ts : list (TimerId * Coordinates)) (c : option TimerId)
    (n : TimerId) (p : nat) (s : AppState) : AppState :=
  {| isTracking := isTracking s; userLocation := userLocation s;
     holdsStartLocation := holdsStartLocation s;
     allContacts := allContacts s; nearbyContacts := nearbyContacts s;
     isAddingContact := isAddingContact s; newContactName := newContactName s;
     newContactPhone := newContactPhone s; simulationRef := simulationRef s;
     timers := ts; cleanup := c; nextTimer := n; pendingPositions := p |}.

(** [clearInterval(t)]. *)
Definition clearInterval (t : TimerId) (ts : list (TimerId * Coordinates))
    : list (TimerId * Coordinates) :=
  filter (fun tc => negb (Nat.eqb (fst tc) t)) ts.

(** The callback of the active interval [t], if there is one. *)
Fixpoint activeInterval (t : TimerId) (ts : list (TimerId * Coordinates))
    : option Coordinates :=
  match ts with
  | [] => None
  | (t', u) :: ts' => if Nat.eqb t' t then Some u else activeInterval t ts'
  end.

(** [toggleTracking].  [geolocation] tells whether ['geolocation' in
    navigator]; the position request it starts calls back in a later event. *)
Definition toggleTracking (geolocation : bool) (s : AppState) : AppState :=
  if isTracking s then
    let s := setUserLocation None (setTracking false s) in
    match simulationRef s with
    | Some t =>
        setRuntime (clearInterval t (timers s)) (cleanup s) (nextTimer s)
                   (pendingPositions s) s
    | None => s
    end
  else
    let s := setTracking true s in
    if geolocation
    then setRuntime (timers s) (cleanup s) (nextTimer s) (S (pendingPositions s)) s
    else setUserLocationToStart s.

(** The cleanup function the simulation effect returned:
    [() => clearInterval(interval)]. *)
Definition cleanupEffect (s : AppState) : AppState :=
  match cleanup s with
  | Some t =>
      setRuntime (clearInterval t (timers s)) None (nextTimer s)
                 (pendingPositions s) s
  | None => s
  end.

(** The body of the simulation effect: it returns early unless tracking is
    on and a position is known, and otherwise starts the 2 s interval. *)
Definition simulationEffect (s : AppState) : AppState :=
  match isTracking s, userLocation s with
  | true, Some u =>
      let interval := nextTimer s in
      setRuntime ((interval, u) :: timers s) (Some interval) (S interval)
                 (pendingPositions s) s
  | _, _ => s
  end.

(** A commit in which [isTracking] or [userLocation] changed. *)
Definition rerunEffect (s : AppState) : AppState :=
  simulationEffect (cleanupEffect s).

Section App.

Variable calculateDistanceKm : Coordinates -> Coordinates -> float.

(** [encodeURIComponent]; [None] when it throws a [URIError]. *)
Variable encodeURIComponent : jsstring -> option jsstring.

(** The callback of the interval: [setAllContacts(prev => ...)], whose
    updater also calls [setNearbyContacts(nearby)]. *)
Definition intervalCallback (u : Coordinates) (d : Draws) (s : AppState)
    : AppState :=
  let '(moved, nearby) := fst (tick calculateDistanceKm u (allContacts s) d 0%nat) in
  setAllContacts moved (setNearbyContacts nearby s).

(** [handleAddContact].  [now] is the value of [Date.now()], [today] the
    time value of [new Date()]; [None] when [encodeURIComponent] throws. *)
Definition handleAddContact (now : Z) (today : Date) (s : AppState)
    : Rand (option AppState) :=
  if falsy (trim (newContactName s)) || falsy (trim (newContactPhone s))
  then ret (Some s)
  else
    match encodeURIComponent (newContactName s) with
    | None => ret None
    | Some encoded =>
        r1 <- Math_random ;;
        r2 <- Math_random ;;
        let newContact :=
          {| id := toString now;
             name := newContactName s;
             phoneNumber := newContactPhone s;
             avatarUrl := js "https://ui-avatars.com/api/?name=" ++ encoded
                          ++ js "&background=random";
             location :=
               {| latitude := latitude MOCK_USER_START_LOCATION
                              + (r1 - 0.5) * 0.04;
                  longitude := longitude MOCK_USER_START_LOCATION
                               + (r2 - 0.5) * 0.04 |};
             isRegistered := true;
             lastSeen := today |} in
        ret (Some (setIsAddingContact false
                    (setNewContactPhone []
                      (setNewContactName []
                        (setAllContacts (allContacts s ++ [newContact]) s)))))
    end.

(** What can happen to the mounted component. *)
Inductive Event :=
| ClickPower (geolocation : bool)
| PositionSuccess (lat lon : float)
| PositionError
| IntervalFires (t : TimerId) (d : Draws)
| ClickAddToggle
| ChangeName (v : jsstring)
| ChangePhone (v : jsstring)
| ClickSave (now : Z) (today : Date) (d : Draws).

(** The success callback of a pending position request.  The position [u]
    it stores is a new object: the state changes and the simulation effect
    runs again. *)
Definition positionCallback (u : Coordinates) (s : AppState) : AppState :=
  match pendingPositions s with
  | O => s
  | S p =>
      rerunEffect
        (setUserLocation (Some u)
          (setRuntime (timers s) (cleanup s) (nextTimer s) p s))
  end.

(** The error callback of a pending position request.  It stores the
    constant [MOCK_USER_START_LOCATION]; when the state holds that object
    already, the state is unchanged and the effect, whose dependencies are
    the same, does not run again. *)
Definition errorCallback (s : AppState) : AppState :=
  match pendingPositions s with
  | O => s
  | S p =>
      let s := setRuntime (timers s) (cleanup s) (nextTimer s) p s in
      if holdsStartLocation s then s
      else rerunEffect (setUserLocationToStart s)
  end.

(** One event.  A callback of an interval runs only while the interval is
    active: [clearInterval] also cancels a run that is already due. *)
Definition step (s : AppState) (e : Event) : AppState :=
  match e with
  | ClickPower geolocation => rerunEffect (toggleTracking geolocation s)
  | PositionSuccess lat lon =>
      positionCallback {| latitude := lat; longitude := lon |} s
  | PositionError => errorCallback s
  | IntervalFires t d =>
      match activeInterval t (timers s) with
      | Some u => intervalCallback u d s
      | None => s
      end
  | ClickAddToggle => setIsAddingContact (negb (isAddingContact s)) s
  | ChangeName v => if isAddingContact s then setNewContactName v s else s
  | ChangePhone v => if isAddingContact s then setNewContactPhone v s else s
  | ClickSave now today d =>
      if isAddingContact s
         && negb (falsy (newContactName s) || falsy (newContactPhone s))
      then match fst (handleAddContact now today s d 0%nat) with
           | Some s' => s'
           | None => s
           end
      else s
  end.

Definition run (s : AppState) (es : list Event) : AppState :=
  fold_left step es s.

Inductive reachable : AppState -> Prop :=
| reachable_initial (t0 : Date) : reachable (initialState t0)
| reachable_step s e : reachable s -> reachable (step s e).

Definition isClickPower (e : Event) : bool :=
  match e with ClickPower _ => true | _ => false end.

(** The saves of a run all happen at a timestamp whose decimal string is
    not yet the id of a contact. *)
Fixpoint freshTimestamps (s : AppState) (es : list Event) : Prop :=
  match es with
  | [] => True
  | e :: es' =>
      match e with
      | ClickSave now _ _ => ~ In (toString now) (map id (allContacts s))
      | _ => True
      end /\ freshTimestamps (step s e) es'
  end.

End App.

(** ** components/Radar.tsx: plotting the contacts *)

(** [Math.PI]. *)
Definition Math_PI : float := 0x1.921fb54442d18p+1.

(** [Math.min] of two numbers. *)
Definition Math_min (x y : float) : float :=
  if is_nan x || is_nan y then nan
  else if x <? y then x
  else if y <? x then y
  else if get_sign x then x else y.

Record Point := { x : float; y : float }.

(** What the effect draws for one contact: the pulsing ring and the dot are
    centred at [(dot_x, dot_y)], the label sits 10 px above; a click hands
    [dot_contact] to [onContactClick]. *)
Record Dot := {
  dot_x : float;
  dot_y : float;
  dot_contact : NearbyContact
}.

Section Radar.

Variable Math_atan2 : float -> float -> float.
Variable Math_cos : float -> float.
Variable Math_sin : float -> float.

Definition contactAngle (userLocation : Coordinates) (contact : NearbyContact)
    : float :=
  let dLat := latitude (location (base contact)) - latitude userLocation in
  let dLon := longitude (location (base contact)) - longitude userLocation in
  Math_atan2 dLon dLat - Math_PI / 2.

Definition contactDistPx (maxRadiusPx : float) (contact : NearbyContact)
    : float :=
  (distanceKm contact / RADAR_RADIUS_KM) * maxRadiusPx.

(** The body of [contacts.forEach((contact) => ...)]: [svg] holds the
    groups appended so far. *)
Definition plotContact (userLocation : Coordinates) (center : Point)
    (maxRadiusPx : float) (svg : list Dot) (contact : NearbyContact)
    : list Dot :=
  if RADAR_RADIUS_KM <? distanceKm contact then svg
  else
    let angle := contactAngle userLocation contact in
    let distPx := contactDistPx maxRadiusPx contact in
    let x := x center + Math_cos angle * distPx in
    let y := y center + Math_sin angle * distPx in
    svg ++ [ {| dot_x := x; dot_y := y; dot_contact := contact |} ].

Definition radarCenter (width height : float) : Point :=
  {| x := width / 2; y := height / 2 |}.

Definition radarMaxRadiusPx (width height : float) : float :=
  Math_min width height / 2 - 20.

(** The plotting part of the effect of [Radar], for a mounted [svg] of
    [clientWidth = width] and [clientHeight = height]. *)
Definition Radar (userLocation : option Coordinates)
    (contacts : list NearbyContact) (width height : float) : list Dot :=
  match userLocation with
  | None => []
  | Some u =>
      fold_left
        (plotContact u (radarCenter width height)
                     (radarMaxRadiusPx width height))
        contacts []
  end.

End Radar.

(** ** services/locationService: the distance utility *)

Module DistanceSpec.

#[local] Open Scope R_scope.

(** Modelled from the spec: a Coordinate of the distance utility, a pair
    (latitude, longitude) in decimal degrees; real numbers stand for the
    JavaScript numbers of [services/locationService], which is not among
    the sources. *)
Record GeoPoint := { lat : R; lon : R }.

(** Modelled from the spec: the result is rounded or truncated to a fixed
    small number of decimal places, the two ways the missing utility may
    cut its result. *)
Inductive DisplayRounding := RoundNearest | Truncate.

Section Haversine.

(** The radius of the spherical earth in kilometres, the number of decimal
    places kept, and how the result is cut to them. *)
Variable earthRadiusKm : R.
Variable decimals : nat.
Variable mode : DisplayRounding.

Definition deg2rad (deg : R) : R := deg * PI / 180.

(** Modelled from the spec: the great-circle distance of the missing
    [calculateDistanceKm], by a standard spherical-earth approximation
    (haversine or equivalent): the haversine formula. *)
Definition haversine (A B : GeoPoint) : R :=
  let dLat := deg2rad (lat B - lat A) in
  let dLon := deg2rad (lon B - lon A) in
  let a := Rsqr (sin (dLat / 2))
           + cos (deg2rad (lat A)) * cos (deg2rad (lat B))
             * Rsqr (sin (dLon / 2)) in
  2 * earthRadiusKm * asin (R_sqrt.sqrt a).

(** Modelled from the spec: the cut of the missing [calculateDistanceKm] to
    a fixed small number of decimal places. *)
Definition toDecimals (v : R) : R :=
  let scaled := v * 10 ^ decimals in
  match mode with
  | RoundNearest => IZR (Int_part (scaled + / 2)) / 10 ^ decimals
  | Truncate => IZR (Int_part scaled) / 10 ^ decimals
  end.

(** Modelled from the spec: [calculateDistanceKm] of
    [services/locationService], which is not among the sources.  Given two
    Coordinates, it returns the great-circle distance between them in
    kilometers by a standard spherical-earth approximation (haversine or
    equivalent), rounded or truncated to a fixed small number of decimal
    places. *)
Definition distance (A B : GeoPoint) : R :=
  toDecimals (haversine A B).

End Haversine.

End DistanceSpec.

(** ** Auxiliary notions for reasoning about binary64 rounding *)

Abbreviation fexp := (SpecFloat.fexp prec emax).
Abbreviation bounded := (SpecFloat.bounded prec emax).

(** [m1 * 2^e1 <= m2 * 2^e2], stated over the integers. *)
Definition dle (m1 e1 m2 e2 : Z) : Prop :=
  (m1 * 2 ^ (e1 - Z.min e1 e2) <= m2 * 2 ^ (e2 - Z.min e1 e2))%Z.

(** No bit was lost so far by the right shifts. *)
Definition exact_rec (r : shr_record) : bool := negb (shr_r r || shr_s r).

(** [r'] is [r] shifted right by [k] bits. *)
Definition shr_rel (k : Z) (r r' : shr_record) : Prop :=
  (shr_m r' = shr_m r / 2 ^ k)%Z /\
  (exact_rec r' = true <-> exact_rec r = true /\ (shr_m r mod 2 ^ k = 0)%Z).

Definition inexact (l : SpecFloat.location) : Z :=
  match l with loc_Exact => 0%Z | loc_Inexact _ => 1%Z end.

(** [x] is a zero or a finite number of sign [s] and magnitude at most
    [mb * 2^eb]. *)
Definition mag_le (x : spec_float) (s : bool) (mb : positive) (eb : Z) : Prop :=
  match x with
  | S754_zero s' => s' = s
  | S754_finite s' m e =>
      s' = s /\ bounded m e = true /\ dle (Zpos m) e (Zpos mb) eb
  | _ => False
  end.

(** The record [r] is the integer [M] shifted right by [k] bits: [shr_m r]
    holds the bits kept, [shr_r r] the last bit dropped, and [shr_s r]
    tells whether any bit dropped before that was set. *)
Definition shr_near (M k : Z) (r : shr_record) : Prop :=
  exists t, (2 * M = (2 * shr_m r + Z.b2z (shr_r r)) * 2 ^ k + t)%Z
            /\ (0 <= t < 2 ^ k)%Z /\ (shr_s r = true <-> t <> 0%Z).

(** The value of a finite float in units of [2^-1074], the smallest
    positive binary64 number. *)
Definition F2Z (m : positive) (e : Z) : Z := (Zpos m * 2 ^ (e + 1074))%Z.

(** The magnitudes of the finite floats, in the same units. *)
Definition representable (g : Z) : Prop :=
  g = 0%Z \/ exists m e, bounded m e = true /\ g = F2Z m e.

(** The interval of the effect is the only active one, the ref is never
    set, and an idle component has no cleanup pending. *)
Definition timersConsistent (s : AppState) : Prop :=
  match cleanup s with
  | Some t => exists u, timers s = [(t, u)]
  | None => timers s = []
  end /\ simulationRef s = None /\ (isTracking s = false -> cleanup s = None).

(** ** Vocabulary of the statements *)

(** A value [Math.random()] may return: a number in [[0, 1)]. *)
Definition unitInterval (r : float) : Prop :=
  (0 <=? r) = true /\ (r <? 1) = true.

(** The record [{ ...contact, distanceKm: dist }]. *)
Definition withDistance (dist : Coordinates -> float) (c : Contact)
    : NearbyContact :=
  {| base := c; distanceKm := dist (location c) |}.

(** ** Sample states and runs *)

(** The list view with the form open, an empty name and the phone 555. *)
Definition formWithoutName : AppState :=
  setNewContactPhone (js "555") (setIsAddingContact true (initialState 0%Z)).

(** The form filled in with the name Ann and the phone 555. *)
Definition formFilled : AppState := setNewContactName (js "Ann") formWithoutName.

Definition someDraws : Draws := fun _ => 0.25.

(** Two contacts saved at the timestamps [t1] and [t2]. *)
Definition twoSaves (t1 t2 : Z) : list Event :=
  [ ClickAddToggle; ChangeName (js "Ann"); ChangePhone (js "555");
    ClickSave t1 t1 someDraws;
    ClickAddToggle; ChangeName (js "Bob"); ChangePhone (js "556");
    ClickSave t2 t2 someDraws ].

(** Tracking switched on in a browser without geolocation: the fallback
    position is set at once and the interval [1] is running. *)
Definition trackingState : AppState :=
  step (fun _ _ => 0) Some (initialState 0%Z) (ClickPower false).

(** Where the projection is to put a contact, in the words of the
    specification: at the angle [atan2(dLon, dLat)] turned by -90 degrees and
    at the pixel distance [(d / 5) * maxRadiusPx] from the centre. *)
Definition projectionSpec (atan2 : float -> float -> float)
    (cos sin : float -> float) (u : Coordinates) (center : Point)
    (maxRadiusPx : float) (c : NearbyContact) : Dot :=
  let angle :=
    atan2 (longitude (location (base c)) - longitude u)
          (latitude (location (base c)) - latitude u) - Math_PI / 2 in
  let distPx := distanceKm c / 5 * maxRadiusPx in
  {| dot_x := x center + cos angle * distPx;
     dot_y := y center + sin angle * distPx;
     dot_contact := c |}.

(** A nearby contact handed to the radar with the distance [d]. *)
Definition contactAt (d : float) : NearbyContact :=
  {| base := {| id := js "1"; name := js "Yacob"; phoneNumber := js "9943926886";
                avatarUrl := js "https://ui-avatars.com/api/?name=Yacob&background=random";
                location := {| latitude := 40.7145; longitude := -74.0075 |};
                isRegistered := true; lastSeen := 0%Z |};
     distanceKm := d |}.

(** ** App.tsx and components/Radar.tsx: what the views look up and write *)

(** [a === b] on strings. *)
Fixpoint strictEquals (a b : jsstring) : bool :=
  match a, b with
  | [], [] => true
  | c :: a', c' :: b' => N.eqb c c' && strictEquals a' b'
  | _, _ => false
  end.

(** [nearbyContacts.find(n => n.id === contact.id)] of the contact list:
    the entry whose distance the row of [contact] shows; the row reads
    Offline/Far when there is none. *)
Definition isNearby (nearbyContacts : list NearbyContact) (contact : Contact)
    : option NearbyContact :=
  find (fun n => strictEquals (id (base n)) (id contact)) nearbyContacts.

(** [s.split(sep)] for a separator of one code unit: the pieces of [s]
    between the occurrences of [sep]; never an empty array. *)
Fixpoint split (sep : N) (s : jsstring) : list jsstring :=
  match s with
  | [] => [[]]
  | c :: s' =>
      if N.eqb c sep then [] :: split sep s'
      else match split sep s' with
           | piece :: pieces => (c :: piece) :: pieces
           | [] => [[c]]
           end
  end.

(** The text of the label the radar puts above a dot:
    [contact.name.split(' ')[0]]. *)
Definition dotLabel (contact : NearbyContact) : jsstring :=
  hd [] (split 32 (name (base contact))).

(** ** components/Radar.tsx: the background *)

Record Circle := { circle_cx : float; circle_cy : float; circle_r : float }.

(** The outer circle, which stands for 5 km. *)
Definition outerCircle (width height : float) : Circle :=
  let center := radarCenter width height in
  let maxRadiusPx := radarMaxRadiusPx width height in
  {| circle_cx := x center; circle_cy := y center; circle_r := maxRadiusPx |}.

(** The mid circle, which stands for 2.5 km. *)
Definition midCircle (width height : float) : Circle :=
  let center := radarCenter width height in
  let maxRadiusPx := radarMaxRadiusPx width height in
  {| circle_cx := x center; circle_cy := y center; circle_r := maxRadiusPx / 2 |}.

(** A line of the background, from [(line_x1, line_y1)] to
    [(line_x2, line_y2)]. *)
Record Line := {
  line_x1 : float; line_y1 : float; line_x2 : float; line_y2 : float
}.

(** The crosshairs: the vertical line and the horizontal line through the
    centre, each as long as the diameter of the outer circle. *)
Definition verticalCrosshair (width height : float) : Line :=
  let center := radarCenter width height in
  let maxRadiusPx := radarMaxRadiusPx width height in
  {| line_x1 := x center; line_y1 := y center - maxRadiusPx;
     line_x2 := x center; line_y2 := y center + maxRadiusPx |}.

Definition horizontalCrosshair (width height : float) : Line :=
  let center := radarCenter width height in
  let maxRadiusPx := radarMaxRadiusPx width height in
  {| line_x1 := x center - maxRadiusPx; line_y1 := y center;
     line_x2 := x center + maxRadiusPx; line_y2 := y center |}.

(** ** App.tsx: the detail modal and its assistant *)

(** The state of the modal, and the calls of the assistant service
    ([generateIceBreaker], [suggestMeetingPoint]) that have not settled. *)
Record ModalState := {
  selectedContact : option NearbyContact;
  aiResponse : jsstring;
  isAiLoading : bool;
  pendingReplies : nat
}.

Definition initialModal : ModalState :=
  {| selectedContact := None; aiResponse := []; isAiLoading := false;
     pendingReplies := 0%nat |}.

(** [handleAIHelp] up to its [await]: the call of [generateIceBreaker] is
    under way when it returns. *)
Definition handleAIHelp (contact : NearbyContact) (m : ModalState) : ModalState :=
  {| selectedContact := Some contact;
     aiResponse := [];
     isAiLoading := true;
     pendingReplies := S (pendingReplies m) |}.

(** [handleAIMeetup] up to its [await]; [userLocation] is the user position
    of the component at the time of the click. *)
Definition handleAIMeetup (userLocation : option Coordinates) (m : ModalState)
    : ModalState :=
  match selectedContact m, userLocation with
  | Some _, Some _ =>
      {| selectedContact := selectedContact m;
         aiResponse := aiResponse m;
         isAiLoading := true;
         pendingReplies := S (pendingReplies m) |}
  | _, _ => m
  end.

(** The rest of either handler, which runs when the service answers with
    [suggestions]. *)
Definition replyArrives (suggestions : jsstring) (m : ModalState) : ModalState :=
  match pendingReplies m with
  | O => m
  | S p =>
      {| selectedContact := selectedContact m;
         aiResponse := suggestions;
         isAiLoading := false;
         pendingReplies := p |}
  end.

(** The promise of the service is rejected: the [await] throws and the rest
    of the handler does not run. *)
Definition replyFails (m : ModalState) : ModalState :=
  {| selectedContact := selectedContact m;
     aiResponse := aiResponse m;
     isAiLoading := isAiLoading m;
     pendingReplies := pred (pendingReplies m) |}.

Definition closeModal (m : ModalState) : ModalState :=
  {| selectedContact := None;
     aiResponse := [];
     isAiLoading := isAiLoading m;
     pendingReplies := pendingReplies m |}.

(** What can happen to the modal: a click on a button that is on the page
    and enabled, or the end of a call of the service.  [ClickAssist] is a
    click on a dot of the radar or on the assistant button of a card of the
    quick list; [ClickDraft], [ClickMeetup] and [ClickClose] are the buttons
    of the modal. *)
Inductive ModalEvent :=
| ClickAssist (contact : NearbyContact)
| ClickDraft
| ClickMeetup (userLocation : option Coordinates)
| ClickClose
| ReplyArrives (suggestions : jsstring)
| ReplyFails.

(** One event.  The modal is rendered while a contact is selected, and its
    two assistant buttons are [disabled={isAiLoading}]. *)
Definition modalStep (m : ModalState) (e : ModalEvent) : ModalState :=
  match e with
  | ClickAssist contact => handleAIHelp contact m
  | ClickDraft =>
      match selectedContact m with
      | Some contact => if isAiLoading m then m else handleAIHelp contact m
      | None => m
      end
  | ClickMeetup userLocation =>
      match selectedContact m with
      | Some _ => if isAiLoading m then m else handleAIMeetup userLocation m
      | None => m
      end
  | ClickClose =>
      match selectedContact m with
      | Some _ => closeModal m
      | None => m
      end
  | ReplyArrives suggestions => replyArrives suggestions m
  | ReplyFails => replyFails m
  end.

Definition modalRun (m : ModalState) (es : list ModalEvent) : ModalState :=
  fold_left modalStep es m.

Definition isReplyFails (e : ModalEvent) : bool :=
  match e with ReplyFails => true | _ => false end.

(** The event starts a call of the assistant service. *)
Definition startsCall (e : ModalEvent) : bool :=
  match e with
  | ClickAssist _ | ClickDraft | ClickMeetup _ => true
  | _ => false
  end.

(** ** More vocabulary of the statements *)

(** The simulation effect is in step with the state it depends on: an
    interval is active exactly when tracking is on and a position is known,
    it is the only one, its callback closed over that position, and it is
    the one the pending cleanup will clear. *)
Definition effectInSync (s : AppState) : Prop :=
  simulationRef s = None /\
  match isTracking s, userLocation s with
  | true, Some u =>
      exists t, timers s = [(t, u)] /\ cleanup s = Some t /\ (t < nextTimer s)%nat
  | _, _ => timers s = [] /\ cleanup s = None
  end.

Definition isIntervalFires (e : Event) : bool :=
  match e with IntervalFires _ _ => true | _ => false end.

(** [c'] is [c] but for its location. *)
Definition sameIdentity (c c' : Contact) : Prop :=
  id c' = id c /\ name c' = name c /\ phoneNumber c' = phoneNumber c /\
  avatarUrl c' = avatarUrl c /\ isRegistered c' = isRegistered c /\
  lastSeen c' = lastSeen c.

(** Both coordinates are numbers other than [NaN] and the infinities. *)
Definition finiteCoordinates (c : Coordinates) : Prop :=
  (abs (latitude c) <? infinity) = true /\ (abs (longitude c) <? infinity) = true.

(** Every call of [Math.random()] the event makes returns a number in
    [[0, 1)]. *)
Definition unitDraws (e : Event) : Prop :=
  match e with
  | IntervalFires _ d | ClickSave _ _ d => forall k, unitInterval (d k)
  | _ => True
  end.

(** The saves of a run happen at strictly increasing timestamps, all
    later than [last]. *)
Fixpoint increasingTimestamps (last : Z) (es : list Event) : Prop :=
  match es with
  | [] => True
  | ClickSave now _ _ :: es' => (last < now)%Z /\ increasingTimestamps now es'
  | _ :: es' => increasingTimestamps last es'
  end.

(** The click on the save button goes through: the form is open, name and
    phone are not blank, and the name can be encoded. *)
Definition saveAccepted (encodeURIComponent : jsstring -> option jsstring)
    (s : AppState) : bool :=
  isAddingContact s && negb (blank (newContactName s))
  && negb (blank (newContactPhone s))
  && match encodeURIComponent (newContactName s) with
     | Some _ => true
     | None => false
     end.

(** The value of a zero or a finite number, signed, in units of [2^-1074]. *)
Definition val (x : spec_float) : Z :=
  match x with
  | S754_finite s m e => cond_Zopp s (F2Z m e)
  | _ => 0%Z
  end.

(** [r] is what the exact value [V >= 0] is rounded to: the zero when [V]
    is zero, and otherwise a positive finite number no representable number
    is nearer to [V] than. *)
Definition rounds_to (V : Z) (r : spec_float) : Prop :=
  match r with
  | S754_zero s => s = false /\ V = 0%Z
  | S754_finite s m e =>
      s = false /\ bounded m e = true /\ (0 < V)%Z /\
      forall g, representable g -> (Z.abs (F2Z m e - V) <= Z.abs (g - V))%Z
  | _ => False
  end.

(** ** More sample states *)

(** Tracking switched on in a browser with geolocation: the position
    request has not answered yet. *)
Definition waitingState : AppState :=
  step (fun _ _ => 0) Some (initialState 0%Z) (ClickPower true).

(** [trackingState] after the first tick of its interval, every draw being
    0.25 and every distance 0. *)
Definition tickedState : AppState :=
  step (fun _ _ => 0) Some trackingState (IntervalFires 1%nat someDraws).

(** A stand-in for the distance utility at a sample state: the gap between
    the two latitudes, in degrees.  It is never negative, and it is [NaN]
    where a latitude is. *)
Definition latitudeGap (a b : Coordinates) : float :=
  abs (latitude b - latitude a).

(** The state after the same click and the same tick, the distances being
    measured by [latitudeGap]. *)
Definition gapTickedState : AppState :=
  step latitudeGap Some
    (step latitudeGap Some (initialState 0%Z) (ClickPower false))
    (IntervalFires 1%nat someDraws).

(** The initial contact as that tick leaves it. *)
Definition tickedContact : Contact :=
  {| id := js "1"; name := js "Yacob"; phoneNumber := js "9943926886";
     avatarUrl := js "https://ui-avatars.com/api/?name=Yacob&background=random";
     location := {| latitude := 40.7145 + (0.25 - 0.5) * 0.0005;
                    longitude := -74.0075 + (0.25 - 0.5) * 0.0005 |};
     isRegistered := true; lastSeen := 0%Z |}.

(** A contact that does not take part. *)
Definition offlineContact : Contact :=
  {| id := js "2"; name := js "Ann Lee"; phoneNumber := js "555";
     avatarUrl := js "https://ui-avatars.com/api/?name=Ann%20Lee&background=random";
     location := {| latitude := 40.72; longitude := -74.01 |};
     isRegistered := false; lastSeen := 0%Z |}.

(** * Binary64 rounding

    Facts about the rounding of [SpecFloat], the specification the primitive
    floats obey: rounding to nearest never crosses a representable bound, and
    no representable number is nearer to the exact result than the rounded
    one. *)

Section Binary64.

#[local] Open Scope Z_scope.

(** ** Digits and powers of two *)

Lemma digits2_pos_log2 p : Zpos (digits2_pos p) = Z.succ (Z.log2 (Zpos p)).
Proof.
  induction p as [p IH|p IH|]; cbn [digits2_pos]; try reflexivity.
  - rewrite Pos2Z.inj_succ, IH. cbn [Z.log2]. destruct p; cbn; lia.
  - rewrite Pos2Z.inj_succ, IH. cbn [Z.log2]. destruct p; cbn; lia.
Qed.

Lemma digits2_pos_bounds p :
  2 ^ (Zpos (digits2_pos p) - 1) <= Zpos p < 2 ^ Zpos (digits2_pos p).
Proof.
  rewrite digits2_pos_log2.
  replace (Z.succ (Z.log2 (Zpos p)) - 1) with (Z.log2 (Zpos p)) by lia.
  apply Z.log2_spec. lia.
Qed.

Lemma Zdigits2_bounds m : 0 < m ->
  2 ^ (Zdigits2 m - 1) <= m < 2 ^ Zdigits2 m.
Proof. destruct m; try lia. intros _. apply digits2_pos_bounds. Qed.

Lemma Zdigits2_nonneg m : 0 <= Zdigits2 m.
Proof. destruct m; cbn; lia. Qed.

Lemma Zdigits2_unique m d : 2 ^ (d - 1) <= m < 2 ^ d -> 0 < m -> Zdigits2 m = d.
Proof.
  intros H Hm. pose proof (Zdigits2_bounds m Hm) as B.
  pose proof (Zdigits2_nonneg m).
  assert (0 < d).
  { destruct (Z_lt_le_dec 0 d) as [|Hd]; auto.
    destruct (Z.eq_dec d 0) as [->|]; [cbn in H; lia|].
    rewrite (Z.pow_neg_r 2 d) in H; lia. }
  assert (~ Zdigits2 m < d).
  { intro. assert (2 ^ Zdigits2 m <= 2 ^ (d - 1)) by (apply Z.pow_le_mono_r; lia). lia. }
  assert (~ d < Zdigits2 m).
  { intro. assert (2 ^ d <= 2 ^ (Zdigits2 m - 1)) by (apply Z.pow_le_mono_r; lia). lia. }
  lia.
Qed.

(** ** Right shifts keep the quotient and remember inexactness *)

Lemma shr_1_rel r : 0 <= shr_m r -> shr_rel 1 r (shr_1 r).
Proof.
  destruct r as [m r s]. cbn [shr_m]. intros Hm. unfold shr_rel, exact_rec.
  change (2 ^ 1) with 2.
  destruct m as [|p|p]; try lia.
  - cbn. destruct r, s; cbn; intuition congruence.
  - destruct p as [p|p|]; cbn [shr_1 shr_m shr_r shr_s].
    + rewrite Pos2Z.inj_xI. split. { apply Z.div_unique with 1; lia. }
      replace ((2 * Z.pos p + 1) mod 2) with 1 by (apply Z.mod_unique with (Zpos p); lia).
      cbn. intuition (try congruence; try lia).
    + rewrite Pos2Z.inj_xO. split. { apply Z.div_unique with 0; lia. }
      replace ((2 * Z.pos p) mod 2) with 0 by (apply Z.mod_unique with (Zpos p); lia).
      destruct r, s; cbn; intuition congruence.
    + cbn. intuition (try congruence; try lia).
Qed.

Lemma shr_rel_trans a b r1 r2 r3 : 0 <= a -> 0 <= b -> 0 <= shr_m r1 ->
  shr_rel a r1 r2 -> shr_rel b r2 r3 -> shr_rel (a + b) r1 r3.
Proof.
  intros Ha Hb Hm [E1 X1] [E2 X2].
  assert (0 < 2 ^ a) by (apply Z.pow_pos_nonneg; lia).
  assert (0 < 2 ^ b) by (apply Z.pow_pos_nonneg; lia).
  split.
  - rewrite E2, E1, Z.pow_add_r by auto. rewrite Z.div_div by lia. reflexivity.
  - rewrite X2, X1, E1. rewrite Z.pow_add_r by auto.
    rewrite Z.rem_mul_r by lia.
    pose proof (Z.mod_pos_bound (shr_m r1) (2 ^ a)).
    pose proof (Z.mod_pos_bound (shr_m r1 / 2 ^ a) (2 ^ b)).
    split.
    + intros [[A B] C]. split; auto. rewrite B, C. lia.
    + intros [A B]. assert (shr_m r1 mod 2 ^ a = 0) by nia.
      assert ((shr_m r1 / 2 ^ a) mod 2 ^ b = 0) by nia. auto.
Qed.

Lemma shr_rel_nonneg k r r' : 0 <= shr_m r -> shr_rel k r r' -> 0 <= shr_m r'.
Proof.
  intros Hm [E _]. rewrite E.
  destruct (Z_lt_le_dec k 0).
  - rewrite Z.pow_neg_r by auto. rewrite Z.div_0_r. lia.
  - apply Z.div_pos; auto. apply Z.pow_pos_nonneg; lia.
Qed.

Lemma iter_pos_shr_rel p : forall r, 0 <= shr_m r ->
  shr_rel (Zpos p) r (SpecFloat.iter_pos shr_1 p r).
Proof.
  induction p as [p IH|p IH|]; intros r Hm; cbn [SpecFloat.iter_pos].
  - pose proof (shr_1_rel r Hm) as R1.
    pose proof (shr_rel_nonneg _ _ _ Hm R1) as M1.
    pose proof (IH _ M1) as R2.
    pose proof (shr_rel_nonneg _ _ _ M1 R2) as M2.
    pose proof (IH _ M2) as R3.
    replace (Zpos p~1) with (1 + (Zpos p + Zpos p)) by lia.
    eapply shr_rel_trans; eauto; try lia.
    eapply shr_rel_trans; eauto; lia.
  - pose proof (IH _ Hm) as R2.
    pose proof (shr_rel_nonneg _ _ _ Hm R2) as M2.
    pose proof (IH _ M2) as R3.
    replace (Zpos p~0) with (Zpos p + Zpos p) by lia.
    eapply shr_rel_trans; eauto; lia.
  - apply shr_1_rel; auto.
Qed.

Lemma fexp_eq n : fexp n = Z.max (n - 53) (-1074).
Proof. reflexivity. Qed.

Lemma pow2_pos k : 0 <= k -> 0 < 2 ^ k.
Proof. intros. apply Z.pow_pos_nonneg; lia. Qed.

Lemma pow2_lt_inv a b : 0 <= b -> 2 ^ a < 2 ^ b -> a < b.
Proof. intros Hb H. apply (Z.pow_lt_mono_r_iff 2); auto; lia. Qed.

Lemma pow2_split a b : 0 <= a -> 0 <= b -> 2 ^ (a + b) = 2 ^ a * 2 ^ b.
Proof. intros. apply Z.pow_add_r; auto. Qed.

Lemma shr_rel_0 r : shr_rel 0 r r.
Proof.
  split; cbn; [rewrite Z.div_1_r; reflexivity|].
  rewrite Z.mod_1_r. tauto.
Qed.

Lemma exact_rec_of_loc m l :
  exact_rec (shr_record_of_loc m l) = true <-> l = loc_Exact.
Proof. destruct l as [|[]]; cbn; intuition congruence. Qed.

Lemma shr_m_of_loc m l : shr_m (shr_record_of_loc m l) = m.
Proof. destruct l as [|[]]; reflexivity. Qed.

Lemma shr_fexp_spec m e l :
  0 <= m -> e <= fexp (Zdigits2 m + e) ->
  exists rec,
    shr_fexp prec emax m e l = (rec, fexp (Zdigits2 m + e)) /\
    shr_rel (fexp (Zdigits2 m + e) - e) (shr_record_of_loc m l) rec.
Proof.
  intros Hm He. unfold shr_fexp, shr.
  destruct (fexp (Zdigits2 m + e) - e) as [|p|p] eqn:Hs.
  - exists (shr_record_of_loc m l). split; [f_equal; lia|apply shr_rel_0].
  - exists (SpecFloat.iter_pos shr_1 p (shr_record_of_loc m l)). split; [f_equal; lia|].
    apply iter_pos_shr_rel. rewrite shr_m_of_loc. exact Hm.
  - lia.
Qed.

Lemma round_nearest_even_bounds r :
  let q := round_nearest_even (shr_m r) (loc_of_shr_record r) in
  shr_m r <= q <= shr_m r + 1 /\ (exact_rec r = true -> q = shr_m r).
Proof.
  destruct r as [m [] []]; cbn; try destruct (Z.even m); split; try lia; intros; try congruence; reflexivity.
Qed.

Lemma bounded_spec m e :
  bounded m e = true <->
  e = fexp (Zpos (digits2_pos m) + e) /\ e <= 971.
Proof.
  unfold SpecFloat.bounded, canonical_mantissa.
  rewrite andb_true_iff, Z.eqb_eq, Z.leb_le. change (emax - prec) with 971. intuition lia.
Qed.

Lemma dle_scale m1 e1 m2 e2 k :
  k <= e1 -> k <= e2 ->
  (dle m1 e1 m2 e2 <-> m1 * 2 ^ (e1 - k) <= m2 * 2 ^ (e2 - k)).
Proof.
  intros H1 H2. unfold dle.
  set (z := Z.min e1 e2).
  assert (k <= z) by (unfold z; lia).
  replace (e1 - k) with ((e1 - z) + (z - k)) by lia.
  replace (e2 - k) with ((e2 - z) + (z - k)) by lia.
  rewrite !pow2_split by (unfold z; lia).
  pose proof (pow2_pos (z - k)).
  rewrite !Z.mul_assoc. split; intros; [apply Z.mul_le_mono_nonneg_r; lia|].
  apply Z.mul_le_mono_pos_r in H3; lia.
Qed.

(** ** Rounding stays below a representable bound *)

Lemma bounded_digits_le m e : bounded m e = true ->
  Zpos (digits2_pos m) <= 53 /\ -1074 <= e /\
  (-1074 < e -> Zpos (digits2_pos m) = 53).
Proof.
  rewrite bounded_spec, fexp_eq. lia.
Qed.

(** Digits are monotone in the value. *)
Lemma digits_le_of_dle m1 e1 m2 e2 :
  0 < m1 -> 0 < m2 -> dle m1 e1 m2 e2 ->
  Zdigits2 m1 + e1 <= Zdigits2 m2 + e2.
Proof.
  intros H1 H2 H. unfold dle in H.
  set (z := Z.min e1 e2) in *.
  pose proof (Zdigits2_bounds m1 H1) as [B1 _].
  pose proof (Zdigits2_bounds m2 H2) as [_ B2].
  assert (0 < Zdigits2 m1) by (destruct m1; cbn; lia).
  assert (0 < Zdigits2 m2) by (destruct m2; cbn; lia).
  assert (2 ^ (Zdigits2 m1 - 1 + (e1 - z)) < 2 ^ (Zdigits2 m2 + (e2 - z))) as L.
  { rewrite !pow2_split by (unfold z; lia).
    pose proof (pow2_pos (e1 - z)). pose proof (pow2_pos (e2 - z)).
    assert (0 <= e1 - z) by (unfold z; lia). assert (0 <= e2 - z) by (unfold z; lia).
    nia. }
  apply pow2_lt_inv in L; unfold z in *; lia.
Qed.

Lemma binary_round_aux_upper sx mx ex lx mb eb :
  0 <= mx ->
  ex <= fexp (Zdigits2 mx + ex) ->
  bounded mb eb = true ->
  dle (mx + inexact lx) ex (Zpos mb) eb ->
  mag_le (binary_round_aux prec emax sx mx ex lx) sx mb eb.
Proof.
  intros Hmx Hex Hb Hle.
  pose proof (bounded_digits_le _ _ Hb) as (Db & Eb & Nb).
  apply bounded_spec in Hb as [Cb Hb].
  set (d := Zdigits2 mx) in *.
  set (e1 := fexp (d + ex)) in *.
  assert (0 <= inexact lx <= 1) as Hin by (destruct lx; cbn; lia).
  assert (0 <= d) as Hd by apply Zdigits2_nonneg.
  (* the grid of the result is not finer than the grid of the bound *)
  assert (e1 <= eb) as He1.
  { destruct (Z.eq_dec mx 0) as [->|Hnz].
    - unfold e1, d in *. cbn in Hex |- *. rewrite fexp_eq in *. lia.
    - assert (dle mx ex (Zpos mb) eb) as Hle'.
      { unfold dle in *. pose proof (pow2_pos (ex - Z.min ex eb)). nia. }
      apply digits_le_of_dle in Hle'; try lia. cbn [Zdigits2] in Hle'.
      fold d in Hle'. unfold e1. rewrite Cb, !fexp_eq. lia. }
  assert (ex <= eb) as Hexb by lia.
  apply (dle_scale _ _ _ _ ex) in Hle; try lia.
  rewrite Z.sub_diag, Z.mul_1_r in Hle.
  set (s := e1 - ex) in *.
  assert (0 <= s) as Hs by (unfold s; lia).
  set (nb := Zpos mb * 2 ^ (eb - e1)).
  assert (Zpos mb * 2 ^ (eb - ex) = nb * 2 ^ s) as HP.
  { unfold nb, s. rewrite <- Z.mul_assoc, <- pow2_split by lia. f_equal. f_equal. lia. }
  rewrite HP in Hle.
  pose proof (pow2_pos s Hs) as Hps.
  (* first shift *)
  unfold binary_round_aux.
  destruct (shr_fexp_spec mx ex lx Hmx Hex) as (r1 & -> & [Em1 Ex1]).
  fold d e1 s in Em1, Ex1 |- *.
  rewrite shr_m_of_loc in Em1, Ex1. rewrite exact_rec_of_loc in Ex1.
  pose proof (round_nearest_even_bounds r1) as [Hq Hqx]. cbn zeta in Hq, Hqx.
  set (q := round_nearest_even (shr_m r1) (loc_of_shr_record r1)) in *.
  assert (0 <= shr_m r1) as Hm1 by (rewrite Em1; apply Z.div_pos; lia).
  assert (q <= nb) as Hqnb.
  { destruct (exact_rec r1) eqn:X.
    - rewrite Hqx by reflexivity. destruct Ex1 as [Ex1 _].
      destruct (Ex1 eq_refl) as [-> Hmod]. cbn [inexact] in Hle.
      rewrite Em1. apply Z.div_le_upper_bound; lia.
    - assert (mx < nb * 2 ^ s) as Hlt.
      { destruct lx as [|c]; [|cbn [inexact] in Hle; lia].
        destruct (Z.eq_dec (mx mod 2 ^ s) 0) as [Hz|Hz].
        - destruct Ex1 as [_ Ex1]. specialize (Ex1 (conj eq_refl Hz)). discriminate.
        - cbn [inexact] in Hle. destruct (Z.eq_dec mx (nb * 2 ^ s)) as [Hmx'|]; [|lia].
          rewrite Hmx', Z.mod_mul in Hz; lia. }
      assert (shr_m r1 < nb) by (rewrite Em1; apply Z.div_lt_upper_bound; lia).
      lia. }
  (* size of the rounded mantissa *)
  assert (shr_m r1 < 2 ^ 53) as Hm53.
  { rewrite Em1. apply Z.div_lt_upper_bound; [lia|].
    destruct (Z.eq_dec mx 0) as [->|]; [lia|].
    pose proof (Zdigits2_bounds mx ltac:(lia)) as [_ U]. fold d in U.
    assert (d <= s + 53) by (unfold s, e1; rewrite fexp_eq; lia).
    assert (2 ^ d <= 2 ^ (s + 53)) by (apply Z.pow_le_mono_r; lia).
    rewrite pow2_split in * by lia. lia. }
  assert (-1074 < e1 -> 2 ^ 52 <= shr_m r1) as Hnorm.
  { intros Hn. assert (s = d - 53) as Hsd by (unfold s, e1 in *; rewrite fexp_eq in *; lia).
    assert (mx <> 0).
    { intros ->. unfold d in *. cbn in Hsd. lia. }
    pose proof (Zdigits2_bounds mx ltac:(lia)) as [L _]. fold d in L.
    rewrite Em1. apply Z.div_le_lower_bound; [lia|].
    replace (d - 1) with (52 + s) in L by lia.
    rewrite pow2_split in L by lia. lia. }
  assert (-1074 <= e1) as He1min by (unfold e1; rewrite fexp_eq; lia).
  (* second shift *)
  assert (0 <= q) as Hq0 by lia.
  destruct (Z.eq_dec q (2 ^ 53)) as [Hq53|Hq53].
  - (* the mantissa overflowed to 2^53: one more shift *)
    rewrite Hq53 in *.
    assert (eb - e1 >= 1) as Hgap.
    { destruct (Z_le_gt_dec (eb - e1) 0); [|lia].
      assert (eb - e1 = 0) as E0 by lia. unfold nb in Hqnb. rewrite E0 in Hqnb.
      pose proof (digits2_pos_bounds mb) as [_ U].
      assert (2 ^ Zpos (digits2_pos mb) <= 2 ^ 53) by (apply Z.pow_le_mono_r; lia).
      cbn in Hqnb. lia. }
    change (shr_fexp prec emax (2 ^ 53) e1 loc_Exact) with
      (shr (shr_record_of_loc 9007199254740992 loc_Exact) e1 (fexp (54 + e1) - e1)).
    replace (fexp (54 + e1) - e1) with 1 by (rewrite fexp_eq; lia).
    cbn [shr shr_record_of_loc SpecFloat.iter_pos shr_1 shr_m].
    replace (e1 + 1 <=? emax - prec) with true
      by (symmetry; apply Z.leb_le; change (emax - prec) with 971; lia).
    cbn [mag_le]. split; [reflexivity|]. split.
    + apply bounded_spec.
      change (Zpos (digits2_pos 4503599627370496)) with 53.
      rewrite fexp_eq. lia.
    + apply (dle_scale _ _ _ _ e1); try lia.
      replace (e1 + 1 - e1) with 1 by lia. fold nb. change (2 ^ 53) with 9007199254740992 in Hqnb. lia.
  - assert (q < 2 ^ 53) as Hqlt by lia.
    assert (fexp (Zdigits2 q + e1) = e1) as Hfix.
    { destruct (Z.eq_dec q 0) as [->|Hqnz]; [cbn; rewrite fexp_eq; lia|].
      pose proof (Zdigits2_bounds q ltac:(lia)) as [L U].
      assert (Zdigits2 q <= 53).
      { destruct (Z_le_gt_dec (Zdigits2 q) 53); auto.
        assert (2 ^ 53 <= 2 ^ (Zdigits2 q - 1)) by (apply Z.pow_le_mono_r; lia). lia. }
      rewrite fexp_eq. destruct (Z_le_gt_dec e1 (-1074)); [lia|].
      assert (53 <= Zdigits2 q).
      { destruct (Z_le_gt_dec 53 (Zdigits2 q)); auto.
        assert (2 ^ Zdigits2 q <= 2 ^ 52) by (apply Z.pow_le_mono_r; lia).
        specialize (Hnorm ltac:(lia)). lia. }
      lia. }
    unfold shr_fexp. rewrite Hfix, Z.sub_diag. cbn [shr shr_record_of_loc shr_m].
    destruct q as [|qp|qp] eqn:Eq; try lia.
    + cbn [mag_le]. reflexivity.
    + replace (e1 <=? emax - prec) with true
        by (symmetry; apply Z.leb_le; change (emax - prec) with 971; lia).
      cbn [mag_le]. split; [reflexivity|]. split.
      * apply bounded_spec. cbn [Zdigits2] in Hfix. lia.
      * apply (dle_scale _ _ _ _ e1); try lia.
        rewrite Z.sub_diag, Z.mul_1_r. fold nb. lia.
Qed.

(** ** Comparison *)

(** Comparison of canonical mantissas *)
Lemma SFcompare_finite m1 e1 m2 e2 :
  bounded m1 e1 = true -> bounded m2 e2 = true ->
  SFcompare (S754_finite false m1 e1) (S754_finite false m2 e2) =
  Some (Zpos m1 * 2 ^ (e1 - Z.min e1 e2) ?= Zpos m2 * 2 ^ (e2 - Z.min e1 e2)).
Proof.
  intros B1 B2.
  pose proof (bounded_digits_le _ _ B1) as (D1 & E1 & N1).
  pose proof (bounded_digits_le _ _ B2) as (D2 & E2 & N2).
  pose proof (digits2_pos_bounds m1) as [L1 U1].
  pose proof (digits2_pos_bounds m2) as [L2 U2].
  assert (Zpos m1 < 2 ^ 53) by
    (assert (2 ^ Zpos (digits2_pos m1) <= 2 ^ 53) by (apply Z.pow_le_mono_r; lia); lia).
  assert (Zpos m2 < 2 ^ 53) by
    (assert (2 ^ Zpos (digits2_pos m2) <= 2 ^ 53) by (apply Z.pow_le_mono_r; lia); lia).
  cbn [SFcompare]. f_equal.
  destruct (Z.compare_spec e1 e2) as [->|Hlt|Hgt].
  - rewrite Z.min_id, Z.sub_diag, !Z.mul_1_r. reflexivity.
  - symmetry. apply Z.compare_lt_iff.
    rewrite Z.min_l, Z.sub_diag, Z.mul_1_r by lia.
    rewrite N2 in L2 by lia. change (2 ^ (53 - 1)) with (2 ^ 52) in L2.
    assert (2 ^ 1 <= 2 ^ (e2 - e1)) by (apply Z.pow_le_mono_r; lia).
    change (2 ^ 53) with (2 ^ 52 * 2 ^ 1) in *. nia.
  - symmetry. apply Z.compare_gt_iff.
    rewrite Z.min_r, Z.sub_diag, Z.mul_1_r by lia.
    rewrite N1 in L1 by lia. change (2 ^ (53 - 1)) with (2 ^ 52) in L1.
    assert (2 ^ 1 <= 2 ^ (e1 - e2)) by (apply Z.pow_le_mono_r; lia).
    change (2 ^ 53) with (2 ^ 52 * 2 ^ 1) in *. nia.
Qed.

Lemma SFleb_finite m1 e1 m2 e2 :
  bounded m1 e1 = true -> bounded m2 e2 = true ->
  (SFleb (S754_finite false m1 e1) (S754_finite false m2 e2) = true <->
   dle (Zpos m1) e1 (Zpos m2) e2).
Proof.
  intros B1 B2. unfold SFleb. rewrite SFcompare_finite by assumption.
  unfold dle. rewrite <- Z.compare_le_iff.
  destruct (_ ?= _); intuition congruence.
Qed.

Lemma SFltb_finite m1 e1 m2 e2 :
  bounded m1 e1 = true -> bounded m2 e2 = true ->
  (SFltb (S754_finite false m1 e1) (S754_finite false m2 e2) = true <->
   ~ dle (Zpos m2) e2 (Zpos m1) e1).
Proof.
  intros B1 B2. unfold SFltb. rewrite SFcompare_finite by assumption.
  unfold dle. rewrite (Z.min_comm e2 e1), Z.nle_gt, <- Z.compare_lt_iff.
  destruct (_ ?= _); intuition congruence.
Qed.

(** ** Operations *)

(** Left shifts *)
Lemma iter_xO_spec p m : Zpos (Pos.iter xO m p) = Zpos m * 2 ^ Zpos p.
Proof.
  induction p as [|p IH] using Pos.peano_ind.
  - cbn. lia.
  - rewrite Pos.iter_succ, Pos2Z.inj_xO, IH, Pos2Z.inj_succ, Z.pow_succ_r by lia. lia.
Qed.

Lemma shl_align_fst m e e' : e' <= e ->
  Zpos (fst (shl_align m e e')) = Zpos m * 2 ^ (e - e').
Proof.
  intros H. unfold shl_align.
  destruct (e' - e) as [|p|p] eqn:E; cbn [fst].
  - replace (e - e') with 0 by lia. lia.
  - lia.
  - rewrite iter_xO_spec. f_equal. f_equal. lia.
Qed.

Lemma binary_round_upper s m e mb eb :
  bounded mb eb = true ->
  dle (Zpos m) e (Zpos mb) eb ->
  mag_le (binary_round prec emax s m e) s mb eb.
Proof.
  intros Hb Hle. unfold binary_round.
  set (t := fexp (Zpos (digits2_pos m) + e)).
  unfold shl_align.
  destruct (t - e) as [|p|p] eqn:E.
  - apply binary_round_aux_upper; [lia| |exact Hb|].
    + cbn [Zdigits2]. fold t. lia.
    + cbn [inexact]. rewrite Z.add_0_r. exact Hle.
  - apply binary_round_aux_upper; [lia| |exact Hb|].
    + cbn [Zdigits2]. fold t. lia.
    + cbn [inexact]. rewrite Z.add_0_r. exact Hle.
  - assert (Zpos (Pos.iter xO m p) = Zpos m * 2 ^ Zpos p) as Hm by apply iter_xO_spec.
    assert (Zdigits2 (Zpos (Pos.iter xO m p)) = Zpos (digits2_pos m) + Zpos p) as Hd.
    { apply Zdigits2_unique; [|lia]. rewrite Hm.
      pose proof (digits2_pos_bounds m) as [L U].
      replace (Zpos (digits2_pos m) + Zpos p - 1) with (Zpos (digits2_pos m) - 1 + Zpos p) by lia.
      assert (0 < Zpos (digits2_pos m)) by lia.
      rewrite !pow2_split by lia. pose proof (pow2_pos (Zpos p)). nia. }
    apply binary_round_aux_upper; [lia| |exact Hb|].
    + rewrite Hd. replace (Zpos (digits2_pos m) + Zpos p + t) with (Zpos (digits2_pos m) + e) by lia.
      fold t. lia.
    + cbn [inexact]. rewrite Z.add_0_r, Hm.
      pose proof (bounded_digits_le _ _ Hb) as (_ & Eb & _).
      assert (-1074 <= t) by (unfold t; rewrite fexp_eq; lia).
      apply (dle_scale _ _ _ _ (Z.min t eb)); try lia.
      apply (dle_scale _ _ _ _ (Z.min t eb)) in Hle; try lia.
      replace (e - Z.min t eb) with (Zpos p + (t - Z.min t eb)) in Hle by lia.
      rewrite pow2_split in Hle by lia. lia.
Qed.

Lemma digits2_mul_ge m1 m2 :
  Zpos (digits2_pos m1) + Zpos (digits2_pos m2) - 1 <= Zpos (digits2_pos (m1 * m2)).
Proof.
  pose proof (digits2_pos_bounds m1) as [L1 _].
  pose proof (digits2_pos_bounds m2) as [L2 _].
  pose proof (digits2_pos_bounds (m1 * m2)) as [_ U].
  rewrite Pos2Z.inj_mul in U.
  assert (2 ^ (Zpos (digits2_pos m1) - 1 + (Zpos (digits2_pos m2) - 1))
          < 2 ^ Zpos (digits2_pos (m1 * m2))) as H.
  { rewrite pow2_split by lia. nia. }
  apply pow2_lt_inv in H; lia.
Qed.

Lemma SFmul_upper s1 m1 e1 s2 m2 e2 mb eb :
  bounded m1 e1 = true -> bounded m2 e2 = true -> bounded mb eb = true ->
  dle (Zpos m1 * Zpos m2) (e1 + e2) (Zpos mb) eb ->
  mag_le (SFmul prec emax (S754_finite s1 m1 e1) (S754_finite s2 m2 e2))
         (xorb s1 s2) mb eb.
Proof.
  intros B1 B2 Bb Hle. cbn [SFmul].
  pose proof (bounded_digits_le _ _ B1) as (D1 & E1 & N1).
  pose proof (bounded_digits_le _ _ B2) as (D2 & E2 & N2).
  apply bounded_spec in B1 as [_ B1]. apply bounded_spec in B2 as [_ B2].
  apply binary_round_aux_upper; [lia| |exact Bb|].
  - cbn [Zdigits2]. pose proof (digits2_mul_ge m1 m2).
    rewrite fexp_eq. lia.
  - cbn [inexact]. rewrite Z.add_0_r, Pos2Z.inj_mul. exact Hle.
Qed.

Lemma new_location_inexact n k :
  inexact (new_location n k) = if k =? 0 then 0 else 1.
Proof.
  unfold new_location, new_location_even, new_location_odd.
  destruct (Z.even n), (k =? 0); reflexivity.
Qed.

(** A quotient of [x] by [y >= x > 0] rounds to at most one. *)
Lemma SFdiv_le_one s1 m1 e1 s2 m2 e2 :
  bounded m1 e1 = true -> bounded m2 e2 = true ->
  dle (Zpos m1) e1 (Zpos m2) e2 ->
  mag_le (SFdiv prec emax (S754_finite s1 m1 e1) (S754_finite s2 m2 e2))
         (xorb s1 s2) 4503599627370496 (-52).
Proof.
  intros B1 B2 Hle. cbn [SFdiv]. unfold SFdiv_core_binary.
  pose proof (bounded_digits_le _ _ B1) as (D1 & E1 & N1).
  pose proof (bounded_digits_le _ _ B2) as (D2 & E2 & N2).
  pose proof (digits_le_of_dle _ _ _ _ (Pos2Z.is_pos m1) (Pos2Z.is_pos m2) Hle) as Hdig.
  cbn [Zdigits2] in *.
  set (d1 := Zpos (digits2_pos m1)) in *. set (d2 := Zpos (digits2_pos m2)) in *.
  set (e' := Z.min (fexp (d1 + e1 - (d2 + e2))) (e1 - e2)).
  set (s := e1 - e2 - e').
  assert (e' <= -53) as He' by (unfold e'; rewrite fexp_eq; lia).
  assert (0 <= s) as Hs by (unfold s, e'; lia).
  set (m' := match s with Z.pos _ => Z.shiftl (Zpos m1) s | 0 => Zpos m1 | Z.neg _ => 0 end).
  assert (m' = Zpos m1 * 2 ^ s) as Hm'.
  { unfold m'. destruct s as [|p|p] eqn:Es; try lia.
    rewrite Z.shiftl_mul_pow2 by lia. reflexivity. }
  clearbody m'.
  pose proof (pow2_pos s Hs) as Hps.
  pose proof (Z.div_eucl_eq m' (Zpos m2) ltac:(lia)) as Heq.
  pose proof (Z.mod_pos_bound m' (Zpos m2) ltac:(lia)) as Hr.
  unfold Z.modulo in Hr.
  destruct (Z.div_eucl m' (Zpos m2)) as [q r].
  assert (0 <= q) as Hq by nia.
  (* the exact quotient is at most one *)
  assert (m' <= Zpos m2 * 2 ^ (- e')) as Hbound.
  { set (z := Z.min e1 e2). unfold dle in Hle. fold z in Hle.
    assert (0 <= z - e2 - e') by (unfold z; lia).
    pose proof (pow2_pos (z - e2 - e') ltac:(lia)).
    rewrite Hm'. replace s with ((e1 - z) + (z - e2 - e')) by (unfold s; lia).
    replace (- e') with ((e2 - z) + (z - e2 - e')) by lia.
    rewrite !pow2_split by (unfold z; lia). nia. }
  pose proof (pow2_pos (- e') ltac:(lia)) as Hpe.
  apply binary_round_aux_upper; [exact Hq| |reflexivity|].
  - rewrite fexp_eq. destruct (Z_le_gt_dec e' (-1074)); [lia|].
    assert (53 - d1 + d2 <= s) as Hs' by (unfold s, e' in *; rewrite fexp_eq in *; lia).
    assert (2 ^ 52 <= q) as Hq52.
    { pose proof (digits2_pos_bounds m1) as [L1 _]. fold d1 in L1.
      pose proof (digits2_pos_bounds m2) as [_ U2]. fold d2 in U2.
      assert (2 ^ (d1 - 1 + (53 - d1 + d2)) <= 2 ^ (d1 - 1 + s)) as Hp
        by (apply Z.pow_le_mono_r; lia).
      replace (d1 - 1 + (53 - d1 + d2)) with (52 + d2) in Hp by lia.
      assert (0 < d1) by (unfold d1; lia). assert (0 < d2) by (unfold d2; lia).
      rewrite !pow2_split in Hp by lia.
      assert (2 ^ 52 * Zpos m2 <= m') by nia.
      destruct (Z_le_gt_dec (2 ^ 52) q); [assumption|]. nia. }
    assert (53 <= Zdigits2 q).
    { pose proof (Zdigits2_bounds q ltac:(lia)) as [_ U].
      destruct (Z_le_gt_dec 53 (Zdigits2 q)); auto.
      assert (2 ^ Zdigits2 q <= 2 ^ 52) by (apply Z.pow_le_mono_r; [lia|lia]). lia. }
    lia.
  - rewrite new_location_inexact.
    apply (dle_scale _ _ _ _ e'); try lia.
    rewrite Z.sub_diag, Z.mul_1_r.
    replace (Zpos 4503599627370496 * 2 ^ (-52 - e')) with (2 ^ (- e')).
    2:{ change (Zpos 4503599627370496) with (2 ^ 52).
        rewrite <- pow2_split by lia. f_equal. lia. }
    destruct (Z.eqb_spec r 0) as [->|Hrz]; nia.
Qed.

Lemma mag_le_abs x s mb eb : mag_le x s mb eb -> mag_le (SFabs x) false mb eb.
Proof. destruct x; cbn; tauto. Qed.

Lemma SFsub_finite sx mx ex sy my ey :
  SFsub prec emax (S754_finite sx mx ex) (S754_finite sy my ey) =
  binary_normalize prec emax
    (cond_Zopp sx (Zpos (fst (shl_align mx ex (Z.min ex ey)))) -
     cond_Zopp sy (Zpos (fst (shl_align my ey (Z.min ex ey)))))
    (Z.min ex ey) false.
Proof. reflexivity. Qed.

Lemma binary_normalize_upper k e mb eb :
  bounded mb eb = true ->
  dle (Z.abs k) e (Zpos mb) eb ->
  mag_le (SFabs (binary_normalize prec emax k e false)) false mb eb.
Proof.
  intros Hb Hle. destruct k as [|p|p]; cbn [binary_normalize].
  - reflexivity.
  - eapply mag_le_abs, binary_round_upper; eauto.
  - eapply mag_le_abs, binary_round_upper; eauto.
Qed.

(** [|x - 1/2| <= 1/2] for [0 < x < 1]. *)
Lemma SFsub_half_upper m e :
  bounded m e = true ->
  ~ dle (Zpos 4503599627370496) (-52) (Zpos m) e ->
  mag_le (SFabs (SFsub prec emax (S754_finite false m e)
                   (S754_finite false 4503599627370496 (-53))))
         false 4503599627370496 (-53).
Proof.
  intros B Hlt. rewrite SFsub_finite.
  pose proof (bounded_digits_le _ _ B) as (D & E & N).
  pose proof (digits2_pos_bounds m) as [L U].
  assert (e <= -53) as He.
  { destruct (Z_le_gt_dec e (-53)); auto. exfalso. apply Hlt.
    apply (dle_scale _ _ _ _ (-52)); try lia.
    rewrite Z.sub_diag, Z.mul_1_r.
    rewrite N in L by lia. change (2 ^ (53 - 1)) with (Zpos 4503599627370496) in L.
    pose proof (pow2_pos (e - -52) ltac:(lia)). nia. }
  rewrite Z.min_l by lia.
  apply binary_normalize_upper; [reflexivity|].
  rewrite !shl_align_fst by lia. cbn [cond_Zopp]. rewrite Z.sub_diag, Z.mul_1_r.
  apply (dle_scale _ _ _ _ e); try lia.
  rewrite Z.sub_diag, Z.mul_1_r.
  assert (Zpos m < Zpos 4503599627370496 * 2 ^ (-52 - e)) as Hm.
  { apply Z.nle_gt. intro C. apply Hlt. apply (dle_scale _ _ _ _ e); try lia.
    rewrite Z.sub_diag, Z.mul_1_r. exact C. }
  replace (-52 - e) with (1 + (-53 - e)) in Hm by lia.
  rewrite pow2_split in Hm by lia. change (2 ^ 1) with 2 in Hm.
  pose proof (pow2_pos (-53 - e) ltac:(lia)). lia.
Qed.

Lemma dle_mul_pow2 m e mc ec j :
  dle (Zpos m) e 1 j ->
  dle (Zpos m * Zpos mc) (e + ec) (Zpos mc) (ec + j).
Proof.
  intros H. set (k := Z.min e j).
  apply -> (dle_scale (Zpos m) e 1 j k) in H; try (unfold k; lia).
  apply <- (dle_scale (Zpos m * Zpos mc) (e + ec) (Zpos mc) (ec + j) (k + ec));
    try (unfold k; lia).
  replace (e + ec - (k + ec)) with (e - k) by lia.
  replace (ec + j - (k + ec)) with (j - k) by lia. nia.
Qed.

Lemma dle_pow2_canon m e j :
  dle m e (Zpos 4503599627370496) (j - 52) <-> dle m e 1 j.
Proof.
  set (k := Z.min e (j - 52)).
  rewrite (dle_scale _ _ _ _ k), (dle_scale m e 1 j k) by (unfold k; lia).
  replace (j - k) with (52 + (j - 52 - k)) by lia.
  rewrite pow2_split by (unfold k; lia).
  change (2 ^ 52) with (Zpos 4503599627370496). lia.
Qed.

Lemma SFcompare_antisym x y :
  SFcompare y x = option_map CompOpp (SFcompare x y).
Proof.
  destruct x as [[]|[]| |[] m1 e1], y as [[]|[]| |[] m2 e2]; cbn; try reflexivity;
    rewrite (Z.compare_antisym e1 e2);
    change (Pos.compare_cont Eq m2 m1) with (Pos.compare_cont (CompOpp Eq) m2 m1);
    rewrite <- Pos.compare_cont_antisym;
    destruct (e1 ?= e2), (Pos.compare_cont Eq m1 m2); reflexivity.
Qed.

Lemma SFleb_not_ltb x y : SFleb x y = true -> SFltb y x = false.
Proof.
  unfold SFleb, SFltb. rewrite (SFcompare_antisym x y).
  destruct (SFcompare x y) as [[]|]; cbn; congruence.
Qed.

Lemma SFleb_of_not_ltb x y :
  SFcompare x y <> None -> SFltb y x = false -> SFleb x y = true.
Proof.
  unfold SFleb, SFltb. rewrite (SFcompare_antisym x y).
  destruct (SFcompare x y) as [[]|]; cbn; congruence.
Qed.

(** ** Primitive floats *)

Lemma Prim2SF_nonneg r :
  (0 <=? r)%float = true ->
  (exists s, Prim2SF r = S754_zero s) \/
  (exists m e, Prim2SF r = S754_finite false m e /\ bounded m e = true) \/
  Prim2SF r = S754_infinity false.
Proof.
  rewrite leb_spec. change (Prim2SF 0) with (S754_zero false).
  pose proof (Prim2SF_valid r) as V.
  destruct (Prim2SF r) as [s|[]| |[] m e]; cbn; try discriminate; eauto 6.
Qed.

Lemma Prim2SF_pos r :
  (0 <? r)%float = true ->
  (exists m e, Prim2SF r = S754_finite false m e /\ bounded m e = true) \/
  Prim2SF r = S754_infinity false.
Proof.
  rewrite ltb_spec. change (Prim2SF 0) with (S754_zero false).
  pose proof (Prim2SF_valid r) as V.
  destruct (Prim2SF r) as [s|[]| |[] m e]; cbn; try discriminate; eauto 6.
Qed.

Lemma mag_le_leb x m e :
  bounded m e = true ->
  mag_le x false m e ->
  SFleb (S754_zero false) x = true /\ SFleb x (S754_finite false m e) = true.
Proof.
  intros B H. destruct x as [s|s| |s m' e']; cbn in H; try contradiction.
  - split; reflexivity.
  - destruct H as (-> & B' & H). split; [reflexivity|].
    apply SFleb_finite; assumption.
Qed.

Lemma random_offset_bound (r c h : float) mc ec :
  Prim2SF c = S754_finite false mc ec ->
  Prim2SF h = S754_finite false mc (ec - 1) ->
  (0 <=? r)%float = true -> (r <? 1)%float = true ->
  (abs ((r - 0.5) * c) <=? h)%float = true.
Proof.
  intros Hc Hh H0 H1.
  pose proof (Prim2SF_valid c) as Vc. rewrite Hc in Vc. cbn in Vc.
  pose proof (Prim2SF_valid h) as Vh. rewrite Hh in Vh. cbn in Vh.
  rewrite leb_spec, abs_spec, mul_spec, sub_spec, Hc, Hh.
  change (Prim2SF 0.5) with (S754_finite false 4503599627370496 (-53)).
  assert (mag_le (SFabs (SF64sub (Prim2SF r) (S754_finite false 4503599627370496 (-53))))
                 false 4503599627370496 (-53)) as Hs.
  { rewrite ltb_spec in H1. change (Prim2SF 1) with (S754_finite false 4503599627370496 (-52)) in H1.
    destruct (Prim2SF_nonneg r H0) as [[s E]|[(m & e & E & B)|E]]; rewrite E in *.
    - cbn. split; [reflexivity|]. split; [reflexivity|]. unfold dle. lia.
    - apply SFsub_half_upper; auto. apply SFltb_finite in H1; auto.
    - discriminate. }
  destruct (SF64sub (Prim2SF r) _) as [s|s| |s m e]; cbn in Hs; try contradiction.
  - reflexivity.
  - destruct Hs as (_ & B & Hs).
    apply (dle_pow2_canon _ _ (-1)) in Hs.
    pose proof (SFmul_upper s m e false mc ec mc (ec - 1) B Vc Vh) as Hm.
    specialize (Hm (dle_mul_pow2 _ _ _ _ _ Hs)).
    apply mag_le_abs, (mag_le_leb _ _ _ Vh) in Hm. apply Hm.
Qed.

Lemma ratio_scale_bound (d R M : float) :
  (0 <=? d)%float = true -> (d <=? R)%float = true ->
  (0 <? R)%float = true -> (R <? infinity)%float = true ->
  (0 <=? M)%float = true -> (M <? infinity)%float = true ->
  (0 <=? d / R * M)%float = true /\ (d / R * M <=? M)%float = true.
Proof.
  intros Hd HdR HR HRi HM HMi.
  rewrite !leb_spec, mul_spec, div_spec. rewrite leb_spec in HdR. rewrite ltb_spec in HRi, HMi.
  change (Prim2SF 0) with (S754_zero false).
  change (Prim2SF infinity) with (S754_infinity false) in *.
  destruct (Prim2SF_pos R HR) as [(mR & eR & ER & BR)|ER]; rewrite ER in *; [|discriminate].
  assert (mag_le (SF64div (Prim2SF d) (S754_finite false mR eR)) false 4503599627370496 (-52)
          \/ exists s, SF64div (Prim2SF d) (S754_finite false mR eR) = S754_zero s) as Hq.
  { destruct (Prim2SF_nonneg d Hd) as [[s E]|[(m & e & E & B)|E]]; rewrite E in *.
    - right. exists s. cbn. destruct s; reflexivity.
    - left. apply (SFdiv_le_one false m e false mR eR); auto.
      apply SFleb_finite; auto.
    - discriminate. }
  assert (forall s, SFleb (S754_zero false) (SF64mul (S754_zero s) (Prim2SF M)) = true /\
                    SFleb (SF64mul (S754_zero s) (Prim2SF M)) (Prim2SF M) = true) as Hz.
  { intros s. destruct (Prim2SF_nonneg M HM) as [[s' E]|[(m & e & E & B)|E]]; rewrite E in *.
    - destruct s, s'; split; reflexivity.
    - destruct s; split; reflexivity.
    - discriminate. }
  destruct Hq as [Hq|[s ->]]; [|apply Hz].
  destruct (SF64div (Prim2SF d) _) as [s|s| |s m e]; cbn in Hq; try contradiction.
  - apply Hz.
  - destruct Hq as (-> & B & Hq).
    destruct (Prim2SF_nonneg M HM) as [[s' E]|[(mM & eM & E & BM)|E]]; rewrite E in *.
    + destruct s'; split; reflexivity.
    + apply (dle_pow2_canon _ _ 0) in Hq.
      pose proof (SFmul_upper false m e false mM eM mM eM B BM BM) as Hm.
      pose proof (dle_mul_pow2 _ _ mM eM _ Hq) as Hp. rewrite Z.add_0_r in Hp.
      specialize (Hm Hp). apply (mag_le_leb _ _ _ BM) in Hm. exact Hm.
    + discriminate.
Qed.

Lemma leb_not_gtb (x y : float) : (x <=? y)%float = true -> (y <? x)%float = false.
Proof. rewrite leb_spec, ltb_spec. apply SFleb_not_ltb. Qed.


Lemma leb_of_not_gtb (x y : float) :
  (0 <=? x)%float = true -> (0 <=? y)%float = true ->
  (y <? x)%float = false -> (x <=? y)%float = true.
Proof.
  rewrite !leb_spec, ltb_spec. change (Prim2SF 0) with (S754_zero false).
  intros Hx Hy. apply SFleb_of_not_ltb.
  destruct (Prim2SF x) as [[]|[]| |[] m1 e1], (Prim2SF y) as [[]|[]| |[] m2 e2];
    cbn in *; congruence.
Qed.

Lemma dle_trans m1 e1 m2 e2 m3 e3 :
  dle m1 e1 m2 e2 -> dle m2 e2 m3 e3 -> dle m1 e1 m3 e3.
Proof.
  intros H12 H23. set (k := Z.min e1 (Z.min e2 e3)).
  apply -> (dle_scale m1 e1 m2 e2 k) in H12; try (unfold k; lia).
  apply -> (dle_scale m2 e2 m3 e3 k) in H23; try (unfold k; lia).
  apply <- (dle_scale m1 e1 m3 e3 k); try lia; unfold k; lia.
Qed.

(** ** Rounding is to a nearest representable number *)

Lemma shr_near_0 M : shr_near M 0 (shr_record_of_loc M loc_Exact).
Proof. exists 0. cbn. split; [lia|]. split; [lia|]. split; [discriminate|lia]. Qed.

Lemma shr_1_fields r :
  0 <= shr_m r ->
  shr_s (shr_1 r) = (shr_r r || shr_s r)%bool /\
  2 * shr_m (shr_1 r) + Z.b2z (shr_r (shr_1 r)) = shr_m r.
Proof.
  destruct r as [m r s]. cbn [shr_m shr_r shr_s]. intros Hm.
  destruct m as [|[p|p|]|p]; try lia; cbn [shr_1 shr_m shr_r shr_s Z.b2z];
    split; try reflexivity; lia.
Qed.

Lemma shr_1_near M k r :
  0 <= k -> 0 <= shr_m r -> shr_near M k r -> shr_near M (k + 1) (shr_1 r).
Proof.
  intros Hk Hm (t & E & Ht & Hs).
  destruct (shr_1_fields r Hm) as [Fs Fm].
  exists (Z.b2z (shr_r r) * 2 ^ k + t).
  rewrite pow2_split by lia. change (2 ^ 1) with 2.
  pose proof (pow2_pos k Hk).
  assert (Hb : 0 <= Z.b2z (shr_r r) <= 1) by (destruct (shr_r r); cbn; lia).
  split; [nia|]. split; [nia|].
  rewrite Fs. destruct (shr_r r); cbn [orb Z.b2z] in *.
  - split; [lia|reflexivity].
  - rewrite Hs. lia.
Qed.

Lemma shr_1_nonneg r : 0 <= shr_m r -> 0 <= shr_m (shr_1 r).
Proof. intros H. eapply shr_rel_nonneg; [exact H|apply shr_1_rel; exact H]. Qed.

Lemma iter_pos_nonneg p : forall r, 0 <= shr_m r -> 0 <= shr_m (SpecFloat.iter_pos shr_1 p r).
Proof.
  intros r H. eapply shr_rel_nonneg; [exact H|apply iter_pos_shr_rel; exact H].
Qed.

Lemma iter_pos_shr_near M p : forall k r,
  0 <= k -> 0 <= shr_m r -> shr_near M k r ->
  shr_near M (k + Zpos p) (SpecFloat.iter_pos shr_1 p r).
Proof.
  induction p as [p IH|p IH|]; intros k r Hk Hm H; cbn [SpecFloat.iter_pos].
  - replace (k + Zpos p~1) with (k + 1 + Zpos p + Zpos p) by lia.
    apply IH; [lia|apply iter_pos_nonneg, shr_1_nonneg, Hm|].
    apply IH; [lia|apply shr_1_nonneg, Hm|]. apply shr_1_near; assumption.
  - replace (k + Zpos p~0) with (k + Zpos p + Zpos p) by lia.
    apply IH; [lia|apply iter_pos_nonneg, Hm|]. apply IH; assumption.
  - apply shr_1_near; assumption.
Qed.

(** Rounding the shifted record gives a multiple of [2^k] nearest to [M]. *)
Lemma round_nearest_even_near M k r :
  0 <= k -> shr_near M k r ->
  let q := round_nearest_even (shr_m r) (loc_of_shr_record r) in
  2 * Z.abs (q * 2 ^ k - M) <= 2 ^ k.
Proof.
  intros Hk (t & E & Ht & Hs). pose proof (pow2_pos k Hk).
  destruct r as [m [] []]; cbn [shr_m shr_r shr_s Z.b2z loc_of_shr_record round_nearest_even] in *.
  - assert (t <> 0) by (apply Hs; reflexivity). lia.
  - assert (t = 0) by (destruct (Z.eq_dec t 0); auto; apply Hs in n; discriminate).
    destruct (Z.even m); lia.
  - assert (t <> 0) by (apply Hs; reflexivity). lia.
  - assert (t = 0) by (destruct (Z.eq_dec t 0); auto; apply Hs in n; discriminate). lia.
Qed.

Lemma nearest_multiple M k q n :
  0 <= k -> 2 * Z.abs (q * 2 ^ k - M) <= 2 ^ k ->
  Z.abs (q * 2 ^ k - M) <= Z.abs (n * 2 ^ k - M).
Proof.
  intros Hk H. pose proof (pow2_pos k Hk).
  destruct (Z.eq_dec n q) as [->|Hn]; [lia|].
  assert (2 ^ k <= Z.abs (n * 2 ^ k - q * 2 ^ k)) by nia.
  lia.
Qed.

Lemma shr_fexp_near m e :
  0 <= m -> e <= fexp (Zdigits2 m + e) ->
  exists rec,
    shr_fexp prec emax m e loc_Exact = (rec, fexp (Zdigits2 m + e)) /\
    shr_rel (fexp (Zdigits2 m + e) - e) (shr_record_of_loc m loc_Exact) rec /\
    shr_near m (fexp (Zdigits2 m + e) - e) rec.
Proof.
  intros Hm He. unfold shr_fexp, shr.
  destruct (fexp (Zdigits2 m + e) - e) as [|p|p] eqn:Hs.
  - exists (shr_record_of_loc m loc_Exact).
    split; [f_equal; lia|]. split; [apply shr_rel_0|apply shr_near_0].
  - exists (SpecFloat.iter_pos shr_1 p (shr_record_of_loc m loc_Exact)).
    split; [f_equal; lia|]. split.
    + apply iter_pos_shr_rel. exact Hm.
    + apply (iter_pos_shr_near m p 0); [lia|exact Hm|apply shr_near_0].
  - lia.
Qed.

(** The value [binary_round_aux] rounds [mx * 2^ex] to is [W * 2^ex], a
    multiple of the grid step [2^s] nearest to [mx]. *)
Lemma binary_round_aux_nearest sx mx ex :
  0 < mx -> ex <= fexp (Zdigits2 mx + ex) ->
  let s := fexp (Zdigits2 mx + ex) - ex in
  exists W,
    2 * Z.abs (W - mx) <= 2 ^ s /\ (exists q, W = q * 2 ^ s) /\ 0 <= W /\
    match binary_round_aux prec emax sx mx ex loc_Exact with
    | S754_zero s' => s' = sx /\ W = 0
    | S754_finite s' m e =>
        s' = sx /\ bounded m e = true /\ ex <= e /\ W = Zpos m * 2 ^ (e - ex)
    | S754_infinity s' => s' = sx /\ 2 ^ (1024 - ex) <= W
    | S754_nan => False
    end.
Proof.
  intros Hmx Hex. cbv zeta.
  set (d := Zdigits2 mx) in *.
  set (e1 := fexp (d + ex)) in *.
  set (s := e1 - ex) in *.
  assert (0 <= s) as Hs by (unfold s; lia).
  pose proof (pow2_pos s Hs) as Hps.
  assert (0 < d) as Hd by (unfold d; destruct mx; cbn; lia).
  unfold binary_round_aux.
  destruct (shr_fexp_near mx ex ltac:(lia) Hex) as (r1 & -> & [Em1 _] & Hnear).
  fold d e1 s in Em1, Hnear |- *. rewrite shr_m_of_loc in Em1.
  pose proof (round_nearest_even_near mx s r1 Hs Hnear) as Hq. cbv zeta in Hq.
  pose proof (round_nearest_even_bounds r1) as [Hqb _]. cbv zeta in Hqb.
  set (q := round_nearest_even (shr_m r1) (loc_of_shr_record r1)) in *.
  assert (0 <= shr_m r1) as Hm1 by (rewrite Em1; apply Z.div_pos; lia).
  pose proof (Zdigits2_bounds mx Hmx) as [Lmx Umx]. fold d in Lmx, Umx.
  assert (shr_m r1 < 2 ^ 53) as Hm53.
  { rewrite Em1. apply Z.div_lt_upper_bound; [lia|].
    assert (d <= s + 53) by (unfold s, e1; rewrite fexp_eq; lia).
    assert (2 ^ d <= 2 ^ (s + 53)) by (apply Z.pow_le_mono_r; lia).
    rewrite pow2_split in * by lia. lia. }
  assert (-1074 < e1 -> 2 ^ 52 <= shr_m r1) as Hnorm.
  { intros Hn. assert (s = d - 53) as Hsd by (unfold s, e1 in *; rewrite fexp_eq in *; lia).
    rewrite Em1. apply Z.div_le_lower_bound; [lia|].
    replace (d - 1) with (52 + s) in Lmx by lia.
    rewrite pow2_split in Lmx by lia. lia. }
  assert (-1074 <= e1) as He1min by (unfold e1; rewrite fexp_eq; lia).
  exists (q * 2 ^ s).
  split; [exact Hq|]. split; [exists q; reflexivity|]. split; [nia|].
  destruct (Z.eq_dec q (2 ^ 53)) as [Hq53|Hq53].
  - rewrite Hq53.
    change (shr_fexp prec emax (2 ^ 53) e1 loc_Exact) with
      (shr (shr_record_of_loc 9007199254740992 loc_Exact) e1 (fexp (54 + e1) - e1)).
    replace (fexp (54 + e1) - e1) with 1 by (rewrite fexp_eq; lia).
    cbn [shr shr_record_of_loc SpecFloat.iter_pos shr_1 shr_m].
    change (emax - prec) with 971.
    destruct (Z.leb_spec (e1 + 1) 971) as [Hle|Hgt].
    + split; [reflexivity|]. split; [|split; [lia|]].
      * apply bounded_spec.
        change (Zpos (digits2_pos 4503599627370496)) with 53.
        rewrite fexp_eq. lia.
      * replace (e1 + 1 - ex) with (1 + s) by (unfold s; lia).
        rewrite pow2_split by lia.
        change (2 ^ 53) with 9007199254740992. change (2 ^ 1) with 2. lia.
    + split; [reflexivity|].
      replace (1024 - ex) with (53 + (971 - e1) + s) by (unfold s; lia).
      assert (2 ^ (53 + (971 - e1) + s) <= 2 ^ (53 + s)) by (apply Z.pow_le_mono_r; lia).
      rewrite (pow2_split 53 s) in * by lia. lia.
  - assert (q < 2 ^ 53) as Hqlt by lia.
    assert (fexp (Zdigits2 q + e1) = e1) as Hfix.
    { destruct (Z.eq_dec q 0) as [->|Hqnz]; [cbn; rewrite fexp_eq; lia|].
      pose proof (Zdigits2_bounds q ltac:(lia)) as [L U].
      assert (Zdigits2 q <= 53).
      { destruct (Z_le_gt_dec (Zdigits2 q) 53); auto.
        assert (2 ^ 53 <= 2 ^ (Zdigits2 q - 1)) by (apply Z.pow_le_mono_r; lia). lia. }
      rewrite fexp_eq. destruct (Z_le_gt_dec e1 (-1074)); [lia|].
      assert (53 <= Zdigits2 q).
      { destruct (Z_le_gt_dec 53 (Zdigits2 q)); auto.
        assert (2 ^ Zdigits2 q <= 2 ^ 52) by (apply Z.pow_le_mono_r; lia).
        specialize (Hnorm ltac:(lia)). lia. }
      lia. }
    unfold shr_fexp. rewrite Hfix, Z.sub_diag. cbn [shr shr_record_of_loc shr_m].
    destruct q as [|qp|qp] eqn:Eq; try lia.
    + split; reflexivity.
    + change (emax - prec) with 971.
      destruct (Z.leb_spec e1 971) as [Hle|Hgt].
      * split; [reflexivity|]. split; [|split; [lia|reflexivity]].
        apply bounded_spec. cbn [Zdigits2] in Hfix. lia.
      * split; [reflexivity|]. specialize (Hnorm ltac:(lia)).
        replace (1024 - ex) with (52 + (972 - e1) + s) by (unfold s; lia).
        assert (2 ^ (52 + (972 - e1) + s) <= 2 ^ (52 + s)) by (apply Z.pow_le_mono_r; lia).
        rewrite (pow2_split 52 s) in * by lia. nia.
Qed.

Lemma shl_align_canonical m e :
  let t := fexp (Zpos (digits2_pos m) + e) in
  let '(mz, ez) := shl_align m e t in
  ez <= e /\ Zpos mz = Zpos m * 2 ^ (e - ez) /\
  ez <= fexp (Zdigits2 (Zpos mz) + ez) /\ (-1074 <= e -> -1074 <= ez).
Proof.
  cbv zeta. set (t := fexp (Zpos (digits2_pos m) + e)).
  assert (-1074 <= t) by (unfold t; rewrite fexp_eq; lia).
  unfold shl_align. destruct (t - e) as [|p|p] eqn:E.
  - rewrite Z.sub_diag. cbn [Zdigits2]. fold t. lia.
  - rewrite Z.sub_diag. cbn [Zdigits2]. fold t. lia.
  - assert (Zpos (Pos.iter xO m p) = Zpos m * 2 ^ Zpos p) as Hm by apply iter_xO_spec.
    assert (Zdigits2 (Zpos (Pos.iter xO m p)) = Zpos (digits2_pos m) + Zpos p) as Hd.
    { apply Zdigits2_unique; [|lia]. rewrite Hm.
      pose proof (digits2_pos_bounds m) as [L U].
      replace (Zpos (digits2_pos m) + Zpos p - 1) with (Zpos (digits2_pos m) - 1 + Zpos p) by lia.
      assert (0 < Zpos (digits2_pos m)) by lia.
      rewrite !pow2_split by lia. pose proof (pow2_pos (Zpos p)). nia. }
    rewrite Hd, Hm.
    replace (Zpos (digits2_pos m) + Zpos p + t) with (Zpos (digits2_pos m) + e) by lia.
    fold t. replace (e - t) with (Zpos p) by lia. lia.
Qed.

Lemma binary_round_near s m e :
  -1074 <= e <= 1024 ->
  exists W,
    (forall g, representable g -> Z.abs (W - F2Z m e) <= Z.abs (g - F2Z m e)) /\
    match binary_round prec emax s m e with
    | S754_finite s' mn en => s' = s /\ bounded mn en = true /\ W = F2Z mn en
    | S754_infinity s' => s' = s /\ 2 ^ 2098 <= W
    | _ => False
    end.
Proof.
  intros He. unfold binary_round.
  pose proof (shl_align_canonical m e) as Hal. cbv zeta in Hal.
  destruct (shl_align m e (fexp (Zpos (digits2_pos m) + e))) as [mz ez].
  destruct Hal as (Hez & Hmz & Hcan & Hmin). specialize (Hmin (proj1 He)).
  destruct (binary_round_aux_nearest s (Zpos mz) ez ltac:(lia) Hcan)
    as (W & Hnear & [q Hq] & HW0 & Hres).
  set (dz := Zdigits2 (Zpos mz)) in *.
  set (e1 := fexp (dz + ez)) in *.
  set (s' := e1 - ez) in *.
  assert (0 <= s') as Hs' by (unfold s'; lia).
  pose proof (pow2_pos s' Hs') as Hps.
  set (U := 2 ^ (ez + 1074)).
  assert (0 < U) as HU by (apply pow2_pos; lia).
  assert (F2Z m e = Zpos mz * U) as HX.
  { unfold F2Z, U. rewrite Hmz, <- Z.mul_assoc, <- pow2_split by lia.
    f_equal. f_equal. lia. }
  pose proof (Zdigits2_bounds (Zpos mz) ltac:(lia)) as [Lz Uz]. fold dz in Lz, Uz.
  assert (0 < dz) as Hdz by (unfold dz; cbn; lia).
  exists (W * U). split.
  - (* nearest among the representable magnitudes *)
    intros g Hg. rewrite HX.
    assert (forall n, Z.abs (W * U - Zpos mz * U) <= Z.abs (n * 2 ^ s' * U - Zpos mz * U)) as Hgrid.
    { intros n. pose proof (nearest_multiple (Zpos mz) s' q n Hs') as Hn.
      rewrite <- Hq in Hn. specialize (Hn Hnear).
      replace (W * U - Zpos mz * U) with ((W - Zpos mz) * U) by ring.
      replace (n * 2 ^ s' * U - Zpos mz * U) with ((n * 2 ^ s' - Zpos mz) * U) by ring.
      rewrite !Z.abs_mul, (Z.abs_eq U) by lia. nia. }
    destruct Hg as [->|(mg & eg & Bg & ->)].
    + specialize (Hgrid 0). rewrite !Z.mul_0_l in Hgrid. exact Hgrid.
    + pose proof (bounded_digits_le _ _ Bg) as (Dg & Eg & Ng).
      destruct (Z_le_gt_dec e1 eg) as [Hge|Hlt].
      * specialize (Hgrid (Zpos mg * 2 ^ (eg - e1))).
        replace (Zpos mg * 2 ^ (eg - e1) * 2 ^ s' * U) with (F2Z mg eg) in Hgrid; [exact Hgrid|].
        unfold F2Z, U. rewrite <- !Z.mul_assoc, <- !pow2_split by (unfold s'; lia).
        f_equal. f_equal. unfold s'. lia.
      * assert (e1 = dz + ez - 53) as He1 by (unfold e1 in *; rewrite fexp_eq in *; lia).
        assert (s' = dz - 53) as Hsd by (unfold s'; lia).
        specialize (Hgrid (2 ^ 52)).
        assert (2 ^ 52 * 2 ^ s' <= Zpos mz) as HP.
        { rewrite <- pow2_split by lia. replace (52 + s') with (dz - 1) by lia. exact Lz. }
        assert (F2Z mg eg < 2 ^ 52 * 2 ^ s' * U) as Hg.
        { unfold F2Z, U. pose proof (digits2_pos_bounds mg) as [_ Ug].
          assert (2 ^ Zpos (digits2_pos mg) <= 2 ^ 53) by (apply Z.pow_le_mono_r; lia).
          rewrite <- Z.mul_assoc, <- (pow2_split s') by lia.
          replace (s' + (ez + 1074)) with ((e1 - eg - 1) + (1 + (eg + 1074))) by (unfold s'; lia).
          rewrite (pow2_split (e1 - eg - 1)), (pow2_split 1) by lia.
          pose proof (pow2_pos (e1 - eg - 1) ltac:(lia)).
          pose proof (pow2_pos (eg + 1074) ltac:(lia)).
          change (2 ^ 53) with (2 ^ 52 * 2) in *. change (2 ^ 1) with 2. nia. }
        assert (0 < F2Z mg eg) by (unfold F2Z; pose proof (pow2_pos (eg + 1074) ltac:(lia)); nia).
        nia.
  - destruct (binary_round_aux prec emax s (Zpos mz) ez loc_Exact) as [s0|s0| |s0 mn en].
    + (* no underflow to zero *)
      destruct Hres as [_ HW]. subst W.
      assert (2 ^ dz <= 2 ^ s') as Hc.
      { replace dz with ((dz - 1) + 1) by lia. rewrite pow2_split by lia.
        change (2 ^ 1) with 2. lia. }
      apply Z.pow_le_mono_r_iff in Hc; try lia.
      unfold s', e1 in Hc. rewrite fexp_eq in Hc. lia.
    + destruct Hres as [-> HW]. split; [reflexivity|].
      replace 2098 with ((1024 - ez) + (ez + 1074)) by lia.
      rewrite pow2_split by lia. fold U. nia.
    + exact Hres.
    + destruct Hres as (-> & Bn & Hen & HW). split; [reflexivity|]. split; [exact Bn|].
      rewrite HW. unfold F2Z, U. rewrite <- Z.mul_assoc, <- pow2_split by lia.
      f_equal. f_equal. lia.
Qed.

Lemma F2Z_pos m e : -1074 <= e -> 0 < F2Z m e.
Proof. intros H. unfold F2Z. pose proof (pow2_pos (e + 1074) ltac:(lia)). nia. Qed.

Lemma dle_F2Z m1 e1 m2 e2 :
  -1074 <= e1 -> -1074 <= e2 ->
  (dle (Zpos m1) e1 (Zpos m2) e2 <-> F2Z m1 e1 <= F2Z m2 e2).
Proof.
  intros H1 H2. unfold F2Z.
  rewrite (dle_scale _ _ _ _ (-1074)) by lia.
  replace (e1 - -1074) with (e1 + 1074) by lia.
  replace (e2 - -1074) with (e2 + 1074) by lia. tauto.
Qed.

Lemma F2Z_max m e : bounded m e = true -> F2Z m e <= 2 ^ 2098 - 2 ^ 2045.
Proof.
  intros B. pose proof (bounded_digits_le _ _ B) as (D & E & _).
  apply bounded_spec in B as [_ B].
  pose proof (digits2_pos_bounds m) as [_ U].
  assert (2 ^ Zpos (digits2_pos m) <= 2 ^ 53) by (apply Z.pow_le_mono_r; lia).
  assert (2 ^ (e + 1074) <= 2 ^ 2045) by (apply Z.pow_le_mono_r; lia).
  unfold F2Z. pose proof (pow2_pos (e + 1074) ltac:(lia)).
  change (2 ^ 2098) with (2 ^ 53 * 2 ^ 2045). nia.
Qed.

Lemma SFadd_finite sx mx ex sy my ey :
  SFadd prec emax (S754_finite sx mx ex) (S754_finite sy my ey) =
  binary_normalize prec emax
    (cond_Zopp sx (Zpos (fst (shl_align mx ex (Z.min ex ey)))) +
     cond_Zopp sy (Zpos (fst (shl_align my ey (Z.min ex ey)))))
    (Z.min ex ey) false.
Proof. reflexivity. Qed.

(** The sum scaled to the common exponent, in units of [2^-1074]. *)
Lemma aligned_sum sx mx ex sy my ey :
  -1074 <= ex -> -1074 <= ey ->
  (cond_Zopp sx (Zpos (fst (shl_align mx ex (Z.min ex ey)))) +
   cond_Zopp sy (Zpos (fst (shl_align my ey (Z.min ex ey))))) * 2 ^ (Z.min ex ey + 1074)
  = cond_Zopp sx (F2Z mx ex) + cond_Zopp sy (F2Z my ey).
Proof.
  intros Hx Hy. rewrite !shl_align_fst by lia. unfold F2Z.
  set (z := Z.min ex ey).
  replace (ex + 1074) with ((ex - z) + (z + 1074)) by lia.
  replace (ey + 1074) with ((ey - z) + (z + 1074)) by lia.
  rewrite (pow2_split (ex - z)), (pow2_split (ey - z)) by (unfold z; lia).
  destruct sx, sy; cbn [cond_Zopp]; ring.
Qed.

Lemma aligned_diff sx mx ex sy my ey :
  -1074 <= ex -> -1074 <= ey ->
  (cond_Zopp sx (Zpos (fst (shl_align mx ex (Z.min ex ey)))) -
   cond_Zopp sy (Zpos (fst (shl_align my ey (Z.min ex ey))))) * 2 ^ (Z.min ex ey + 1074)
  = cond_Zopp sx (F2Z mx ex) - cond_Zopp sy (F2Z my ey).
Proof.
  intros Hx Hy. rewrite !shl_align_fst by lia. unfold F2Z.
  set (z := Z.min ex ey).
  replace (ex + 1074) with ((ex - z) + (z + 1074)) by lia.
  replace (ey + 1074) with ((ey - z) + (z + 1074)) by lia.
  rewrite (pow2_split (ex - z)), (pow2_split (ey - z)) by (unfold z; lia).
  destruct sx, sy; cbn [cond_Zopp]; ring.
Qed.

(** [binary_normalize] stays below a representable bound on the magnitude,
    with the magnitude given in units of [2^-1074]. *)
Lemma binary_normalize_upper_units k e mb eb :
  -1074 <= e -> bounded mb eb = true ->
  Z.abs (k * 2 ^ (e + 1074)) <= F2Z mb eb ->
  mag_le (SFabs (binary_normalize prec emax k e false)) false mb eb.
Proof.
  intros He Hb H. apply binary_normalize_upper; [exact Hb|].
  pose proof (bounded_digits_le _ _ Hb) as (_ & Eb & _).
  apply (dle_scale _ _ _ _ (-1074)); try lia.
  replace (e - -1074) with (e + 1074) by lia.
  replace (eb - -1074) with (eb + 1074) by lia.
  pose proof (pow2_pos (e + 1074) ltac:(lia)).
  rewrite Z.abs_mul, (Z.abs_eq (2 ^ _)) in H by lia. exact H.
Qed.

(** [binary_normalize] of a non-zero integer rounds its magnitude to a
    nearest representable magnitude and keeps its sign. *)
Lemma binary_normalize_near k e :
  -1074 <= e <= 1024 -> k <> 0 ->
  exists W,
    (forall g, representable g ->
       Z.abs (W - Z.abs (k * 2 ^ (e + 1074))) <= Z.abs (g - Z.abs (k * 2 ^ (e + 1074)))) /\
    match binary_normalize prec emax k e false with
    | S754_finite s mn en => s = (k <? 0) /\ bounded mn en = true /\ W = F2Z mn en
    | S754_infinity s => 2 ^ 2098 <= W
    | _ => False
    end.
Proof.
  intros He Hk. pose proof (pow2_pos (e + 1074) ltac:(lia)) as Hp.
  destruct k as [|p|p]; [congruence| |]; cbn [binary_normalize].
  - destruct (binary_round_near false p e He) as (W & Hn & Hr).
    exists W. unfold F2Z in Hn.
    rewrite Z.abs_mul, (Z.abs_eq (2 ^ _)) by lia. change (Z.abs (Zpos p)) with (Zpos p).
    split; [exact Hn|].
    destruct (binary_round prec emax false p e); try exact Hr; tauto.
  - destruct (binary_round_near true p e He) as (W & Hn & Hr).
    exists W. unfold F2Z in Hn.
    rewrite Z.abs_mul, (Z.abs_eq (2 ^ _)) by lia. change (Z.abs (Zneg p)) with (Zpos p).
    split; [exact Hn|].
    destruct (binary_round prec emax true p e); try exact Hr; tauto.
Qed.

Lemma near_sum_pos (Fa Fd W : Z) :
  0 < Fa + Fd ->
  Z.abs (W - (Fa + Fd)) <= Z.abs (Z.abs Fa - (Fa + Fd)) ->
  Z.abs (W - (Fa + Fd)) <= Z.abs (0 - (Fa + Fd)) ->
  Z.abs (W - Fa) <= 2 * Z.abs Fd /\ W <= Z.abs Fa + 2 * Z.abs Fd.
Proof. lia. Qed.

Lemma near_sum_neg (Fa Fd W : Z) :
  Fa + Fd < 0 ->
  Z.abs (W - - (Fa + Fd)) <= Z.abs (Z.abs Fa - - (Fa + Fd)) ->
  Z.abs (W - - (Fa + Fd)) <= Z.abs (0 - - (Fa + Fd)) ->
  Z.abs (- W - Fa) <= 2 * Z.abs Fd /\ W <= Z.abs Fa + 2 * Z.abs Fd.
Proof. lia. Qed.

(** Adding [d] to [a] and subtracting [a] again gives at most [2 |d|]. *)
Lemma SFadd_sub_near sa ma ea sd md ed mh eh :
  bounded ma ea = true -> bounded md ed = true ->
  bounded mh (eh + 1) = true -> eh <= 900 ->
  dle (Zpos md) ed (Zpos mh) eh ->
  mag_le (SFabs (SFsub prec emax
                   (SFadd prec emax (S754_finite sa ma ea) (S754_finite sd md ed))
                   (S754_finite sa ma ea)))
         false mh (eh + 1).
Proof.
  intros Ba Bd Bh Heh Hle.
  pose proof (bounded_digits_le _ _ Ba) as (_ & Ea & _).
  pose proof (bounded_digits_le _ _ Bd) as (_ & Ed & _).
  pose proof (bounded_digits_le _ _ Bh) as (Dh & Eh & _).
  assert (ea <= 971) as Ea' by (apply bounded_spec in Ba; lia).
  assert (ed <= 971) as Ed' by (apply bounded_spec in Bd; lia).
  pose proof (F2Z_pos ma ea Ea) as Pa. pose proof (F2Z_pos md ed Ed) as Pd.
  pose proof (F2Z_max ma ea Ba) as Ma.
  (* |d| <= h, 2 h = (mh, eh + 1) and 2 h < 2^2045 *)
  assert (2 * F2Z md ed <= F2Z mh (eh + 1)) as Hd2.
  { assert (-1074 <= eh \/ eh = -1075) as [Hh| ->] by lia.
    - apply -> (dle_F2Z md ed mh eh) in Hle; try lia. unfold F2Z in *.
      replace (eh + 1 + 1074) with (1 + (eh + 1074)) by lia.
      rewrite (pow2_split 1 (eh + 1074)) by lia. change (2 ^ 1) with 2. lia.
    - apply -> (dle_scale (Zpos md) ed (Zpos mh) (-1075) (-1075)) in Hle; try lia.
      replace (-1075 - -1075) with 0 in Hle by lia.
      replace (ed - -1075) with (1 + (ed + 1074)) in Hle by lia.
      rewrite (pow2_split 1 (ed + 1074)) in Hle by lia. unfold F2Z.
      change (2 ^ 1) with 2 in Hle. change (2 ^ (-1075 + 1 + 1074)) with 1.
      change (2 ^ 0) with 1 in Hle. lia. }
  assert (F2Z mh (eh + 1) < 2 ^ 2045) as Hsmall.
  { unfold F2Z. pose proof (digits2_pos_bounds mh) as [_ U].
    assert (2 ^ Zpos (digits2_pos mh) <= 2 ^ 53) by (apply Z.pow_le_mono_r; lia).
    assert (2 ^ (eh + 1 + 1074) <= 2 ^ 1975) by (apply Z.pow_le_mono_r; lia).
    pose proof (pow2_pos (eh + 1 + 1074) ltac:(lia)).
    change (2 ^ 2045) with (2 ^ 53 * 2 ^ 1992).
    assert (2 ^ 1975 < 2 ^ 1992) by (apply Z.pow_lt_mono_r; lia). nia. }
  set (Fa := cond_Zopp sa (F2Z ma ea)). set (Fd := cond_Zopp sd (F2Z md ed)).
  assert (Z.abs Fa = F2Z ma ea) as HFa by (unfold Fa; destruct sa; cbn [cond_Zopp]; lia).
  assert (Z.abs Fd = F2Z md ed) as HFd by (unfold Fd; destruct sd; cbn [cond_Zopp]; lia).
  rewrite SFadd_finite.
  set (ez := Z.min ea ed).
  set (k := cond_Zopp sa (Zpos (fst (shl_align ma ea ez)))
            + cond_Zopp sd (Zpos (fst (shl_align md ed ez)))).
  assert (k * 2 ^ (ez + 1074) = Fa + Fd) as Hk by (apply aligned_sum; lia).
  pose proof (pow2_pos (ez + 1074) ltac:(unfold ez; lia)) as Hpz.
  destruct (Z.eq_dec k 0) as [Hk0|Hk0].
  - (* the sum is exactly zero *)
    rewrite Hk0 in *. cbn [binary_normalize SFsub SFabs mag_le].
    split; [reflexivity|]. split; [exact Ba|].
    apply dle_F2Z; lia.
  - destruct (binary_normalize_near k ez ltac:(unfold ez; lia) Hk0) as (W & Hn & Hr).
    rewrite Hk in Hn.
    pose proof (Hn (F2Z ma ea) (or_intror (ex_intro _ ma (ex_intro _ ea (conj Ba eq_refl))))) as N1.
    pose proof (Hn 0 (or_introl eq_refl)) as N2.
    rewrite <- HFa in N1.
    assert (Z.abs (cond_Zopp (k <? 0) W - Fa) <= 2 * Z.abs Fd
            /\ W <= Z.abs Fa + 2 * Z.abs Fd) as [Hdiff Hsize].
    { destruct (Z.ltb_spec k 0) as [Hneg|Hpos]; cbn [cond_Zopp].
      - assert (Fa + Fd < 0) as Hs by nia.
        rewrite (Z.abs_neq (Fa + Fd)) in N1, N2 by lia.
        apply near_sum_neg; assumption.
      - assert (0 < Fa + Fd) as Hs by nia.
        rewrite (Z.abs_eq (Fa + Fd)) in N1, N2 by lia.
        apply near_sum_pos; assumption. }
    destruct (binary_normalize prec emax k ez false) as [s0|s0| |sn mn en];
      try contradiction.
    + (* no overflow *)
      change (2 ^ 2098) with (2 ^ 2098 - 2 ^ 2045 + 2 ^ 2045) in Hr. lia.
    + destruct Hr as (-> & Bn & ->).
      pose proof (bounded_digits_le _ _ Bn) as (_ & En & _).
      rewrite SFsub_finite.
      apply binary_normalize_upper_units; [lia|exact Bh|].
      rewrite aligned_diff by lia. fold Fa. lia.
Qed.

Lemma add_sub_bound (a d h h2 : float) mh eh :
  Prim2SF h = S754_finite false mh eh ->
  Prim2SF h2 = S754_finite false mh (eh + 1) ->
  eh <= 900 ->
  (abs a <? infinity)%float = true ->
  (abs d <=? h)%float = true ->
  (abs (a + d - a) <=? h2)%float = true.
Proof.
  intros Hh Hh2 Heh Ha Hd.
  pose proof (Prim2SF_valid h) as Vh. rewrite Hh in Vh. cbn in Vh.
  pose proof (Prim2SF_valid h2) as Vh2. rewrite Hh2 in Vh2. cbn in Vh2.
  pose proof (Prim2SF_valid a) as Va. pose proof (Prim2SF_valid d) as Vd.
  rewrite ltb_spec, abs_spec in Ha. rewrite leb_spec, abs_spec, Hh in Hd.
  change (Prim2SF infinity) with (S754_infinity false) in Ha.
  rewrite leb_spec, abs_spec, sub_spec, add_spec, Hh2.
  assert (dle (Zpos mh) eh (Zpos mh) (eh + 1)) as Hhh.
  { apply (dle_scale _ _ _ _ eh); try lia. rewrite Z.sub_diag.
    replace (eh + 1 - eh) with 1 by lia. lia. }
  apply (mag_le_leb _ _ _ Vh2).
  destruct (Prim2SF a) as [sa|sa| |sa ma ea]; try discriminate;
    destruct (Prim2SF d) as [sd|sd| |sd md ed]; try discriminate.
  - destruct sa, sd; reflexivity.
  - cbn in Vd |- *. apply SFleb_finite in Hd; auto.
    split; [reflexivity|]. split; [exact Vd|]. eapply dle_trans; eassumption.
  - cbn [SF64add SFadd]. cbn in Va. unfold SF64sub. rewrite SFsub_finite.
    rewrite Z.min_id, Z.sub_diag. cbn. reflexivity.
  - cbn in Va, Vd. apply SFleb_finite in Hd; auto.
    apply SFadd_sub_near; auto.
Qed.

(** A magnitude within a binade has a representable number less than one
    step of the grid below it. *)
Lemma grid_below V e :
  -1074 <= e <= 971 ->
  2 ^ 52 * 2 ^ (e + 1074) <= V < 2 ^ 53 * 2 ^ (e + 1074) ->
  exists g, representable g /\ g <= V < g + 2 ^ (e + 1074).
Proof.
  intros He HV. pose proof (pow2_pos (e + 1074) ltac:(lia)) as Hp.
  set (q := V / 2 ^ (e + 1074)).
  assert (2 ^ 52 <= q < 2 ^ 53) as Hq.
  { unfold q. split.
    - apply Z.div_le_lower_bound; lia.
    - apply Z.div_lt_upper_bound; lia. }
  pose proof (Z.div_mod V (2 ^ (e + 1074)) ltac:(lia)) as Hdm.
  pose proof (Z.mod_pos_bound V (2 ^ (e + 1074)) Hp) as Hm. fold q in Hdm.
  exists (q * 2 ^ (e + 1074)). split; [|lia].
  right. exists (Z.to_pos q), e.
  assert (Zpos (Z.to_pos q) = q) as Eq by (apply Z2Pos.id; lia).
  split; [|unfold F2Z; rewrite Eq; reflexivity].
  apply bounded_spec. split; [|lia].
  assert (Zdigits2 (Zpos (Z.to_pos q)) = 53) as Hd.
  { apply Zdigits2_unique; rewrite Eq; [|lia]. exact Hq. }
  cbn [Zdigits2] in Hd. rewrite Hd, fexp_eq. lia.
Qed.

(** Adding [d] to [a] and subtracting [a] again gives at most [|d|] and one
    step of the grid at [a], when the sum stays in the binade of [a]. *)
Lemma SFadd_sub_tight sa ma ea sd md ed mb eb :
  bounded ma ea = true -> bounded md ed = true -> bounded mb eb = true ->
  ea <= 900 ->
  2 ^ 52 * 2 ^ (ea + 1074) <= F2Z ma ea - F2Z md ed ->
  F2Z ma ea + F2Z md ed < 2 ^ 53 * 2 ^ (ea + 1074) ->
  F2Z md ed + 2 ^ (ea + 1074) <= F2Z mb eb ->
  mag_le (SFabs (SFsub prec emax
                   (SFadd prec emax (S754_finite sa ma ea) (S754_finite sd md ed))
                   (S754_finite sa ma ea)))
         false mb eb.
Proof.
  intros Ba Bd Bb Hea Hlo Hhi Hb.
  pose proof (bounded_digits_le _ _ Ba) as (_ & Ea & _).
  pose proof (bounded_digits_le _ _ Bd) as (_ & Ed & _).
  pose proof (F2Z_pos ma ea Ea) as Pa. pose proof (F2Z_pos md ed Ed) as Pd.
  pose proof (pow2_pos (ea + 1074) ltac:(lia)) as Hu.
  set (Fa := cond_Zopp sa (F2Z ma ea)). set (Fd := cond_Zopp sd (F2Z md ed)).
  assert (Z.abs Fa = F2Z ma ea) as HFa by (unfold Fa; destruct sa; cbn [cond_Zopp]; lia).
  assert (Z.abs Fd = F2Z md ed) as HFd by (unfold Fd; destruct sd; cbn [cond_Zopp]; lia).
  assert (((Fa + Fd <? 0) = sa) /\ (sa = true -> Fa < 0) /\ (sa = false -> 0 < Fa))
    as (Hsign & Hneg & Hpos).
  { unfold Fa in *. destruct sa; cbn [cond_Zopp] in *; repeat split;
      try discriminate; try lia. }
  rewrite SFadd_finite.
  set (ez := Z.min ea ed).
  set (k := cond_Zopp sa (Zpos (fst (shl_align ma ea ez)))
            + cond_Zopp sd (Zpos (fst (shl_align md ed ez)))).
  assert (k * 2 ^ (ez + 1074) = Fa + Fd) as Hk by (apply aligned_sum; lia).
  pose proof (pow2_pos (ez + 1074) ltac:(unfold ez; lia)) as Hpz.
  assert (k <> 0) as Hk0 by (intros E; rewrite E in Hk; lia).
  assert ((k <? 0) = sa) as Hks.
  { rewrite <- Hsign. destruct (Z.ltb_spec k 0), (Z.ltb_spec (Fa + Fd) 0);
      try reflexivity; nia. }
  destruct (binary_normalize_near k ez ltac:(unfold ez; lia) Hk0) as (W & Hn & Hr).
  rewrite Hk in Hn.
  destruct (grid_below (Z.abs (Fa + Fd)) ea ltac:(lia) ltac:(lia)) as (g & Hg & Hgv).
  pose proof (Hn g Hg) as N.
  assert (2 ^ 53 * 2 ^ (ea + 1074) + 2 ^ (ea + 1074) < 2 ^ 2098) as Hmax.
  { assert (2 ^ (ea + 1074) <= 2 ^ 1974) as Hle by (apply Z.pow_le_mono_r; lia).
    change (2 ^ 2098) with (2 ^ 124 * 2 ^ 1974).
    revert Hle Hu. generalize (2 ^ (ea + 1074)) (2 ^ 1974). intros P Q Hle Hu.
    change (2 ^ 53) with 9007199254740992.
    change (2 ^ 124) with 21267647932558653966460912964485513216. lia. }
  destruct (binary_normalize prec emax k ez false) as [s0|s0| |sn mn en];
    try contradiction.
  - lia.
  - destruct Hr as (-> & Bn & ->). rewrite Hks.
    pose proof (bounded_digits_le _ _ Bn) as (_ & En & _).
    rewrite SFsub_finite.
    apply binary_normalize_upper_units; [lia|exact Bb|].
    rewrite aligned_diff by lia. fold Fa.
    destruct sa; cbn [cond_Zopp] in *.
    + specialize (Hneg eq_refl). lia.
    + specialize (Hpos eq_refl). lia.
Qed.

Lemma add_sub_tight (a d h b : float) sa ma ea mh eh mb eb :
  Prim2SF a = S754_finite sa ma ea ->
  Prim2SF h = S754_finite false mh eh ->
  Prim2SF b = S754_finite false mb eb ->
  ea <= 900 ->
  2 ^ 52 * 2 ^ (ea + 1074) <= F2Z ma ea - F2Z mh eh ->
  F2Z ma ea + F2Z mh eh < 2 ^ 53 * 2 ^ (ea + 1074) ->
  F2Z mh eh + 2 ^ (ea + 1074) <= F2Z mb eb ->
  (abs d <=? h)%float = true ->
  (abs (a + d - a) <=? b)%float = true.
Proof.
  intros Ha Hh Hb Hea Hlo Hhi Hbb Hd.
  pose proof (Prim2SF_valid a) as Va. rewrite Ha in Va. cbn in Va.
  pose proof (Prim2SF_valid h) as Vh. rewrite Hh in Vh. cbn in Vh.
  pose proof (Prim2SF_valid b) as Vb. rewrite Hb in Vb. cbn in Vb.
  pose proof (Prim2SF_valid d) as Vd.
  pose proof (bounded_digits_le _ _ Va) as (_ & Ea & _).
  pose proof (bounded_digits_le _ _ Vh) as (_ & Eh & _).
  pose proof (bounded_digits_le _ _ Vb) as (_ & Eb & _).
  pose proof (pow2_pos (ea + 1074) ltac:(lia)) as Hu.
  rewrite leb_spec, abs_spec, Hh in Hd.
  rewrite leb_spec, abs_spec, sub_spec, add_spec, Ha, Hb.
  apply (mag_le_leb _ _ _ Vb).
  destruct (Prim2SF d) as [sd|sd| |sd md ed]; try discriminate.
  - cbn [SF64add SFadd]. unfold SF64sub. rewrite SFsub_finite.
    rewrite Z.min_id, Z.sub_diag. cbn. reflexivity.
  - cbn in Vd. cbn [SFabs] in Hd. apply SFleb_finite in Hd; auto.
    pose proof (bounded_digits_le _ _ Vd) as (_ & Ed & _).
    apply dle_F2Z in Hd; try lia.
    apply SFadd_sub_tight; auto; lia.
Qed.

End Binary64.

(** * The random walk and the simulation tick *)

Section Simulation.

Variable calculateDistanceKm : Coordinates -> Coordinates -> float.

Lemma mapM_Forall2 {A B} (f : A -> Rand B) (P : A -> B -> Prop) (d : Draws) :
  (forall a n, P a (fst (f a d n))) ->
  forall l n, Forall2 P l (fst (mapM f l d n)).
Proof.
  intros Hf l. induction l as [|a l IH]; intros n; cbn [mapM].
  - constructor.
  - unfold bind. specialize (Hf a n).
    destruct (f a d n) as [b n1]. specialize (IH n1).
    destruct (mapM f l d n1) as [bs n2]. cbn in *. constructor; assumption.
Qed.

Lemma checkDistance_fold u moved : forall acc,
  fold_left (checkDistance calculateDistanceKm u) moved acc =
  acc ++ map (withDistance (calculateDistanceKm u))
         (filter (fun c => isRegistered c
                           && (calculateDistanceKm u (location c) <=? RADAR_RADIUS_KM))
                 moved).
Proof.
  induction moved as [|c moved IH]; intros acc; cbn [fold_left filter map].
  - rewrite app_nil_r. reflexivity.
  - rewrite IH. unfold checkDistance.
    destruct (isRegistered c); cbn [negb andb]; [|reflexivity].
    destruct (calculateDistanceKm u (location c) <=? RADAR_RADIUS_KM).
    + cbn [map]. rewrite <- app_assoc. reflexivity.
    + reflexivity.
Qed.

Lemma moveContact_id c d n : id (fst (moveContact c d n)) = id c.
Proof. unfold moveContact. destruct (isRegistered c); reflexivity. Qed.

Lemma Forall2_map_eq {A B C} (f : A -> C) (g : B -> C) l l' :
  Forall2 (fun a b => g b = f a) l l' -> map g l' = map f l.
Proof. induction 1; cbn; congruence. Qed.

Lemma moveContacts_ids l d n : map id (fst (moveContacts l d n)) = map id l.
Proof.
  apply Forall2_map_eq, mapM_Forall2. intros a k. apply moveContact_id.
Qed.

(** C1. One tick returns as the nearby subset exactly the entities of the
    perturbed collection that are participants and whose computed distance
    to the user position is at most [RADAR_RADIUS_KM] (5 km), each with that
    distance attached, in the order of the collection; the perturbed
    collection lists the same entities, by id, in the order of the input;
    and a participant at distance exactly 5 is included. *)
Theorem tick_nearby_exact (u : Coordinates) (prev : list Contact)
    (d : Draws) (n : nat) :
  let moved := fst (moveContacts prev d n) in
  let nearby := snd (fst (tick calculateDistanceKm u prev d n)) in
  fst (fst (tick calculateDistanceKm u prev d n)) = moved /\
  map id moved = map id prev /\
  nearby =
    map (withDistance (calculateDistanceKm u))
        (filter (fun c => isRegistered c
                          && (calculateDistanceKm u (location c) <=? RADAR_RADIUS_KM))
                moved) /\
  (forall c, In c moved -> isRegistered c = true ->
             calculateDistanceKm u (location c) = RADAR_RADIUS_KM ->
             In {| base := c; distanceKm := RADAR_RADIUS_KM |} nearby).
Proof.
  cbv zeta. unfold tick, bind, ret.
  destruct (moveContacts prev d n) as [moved n'] eqn:E. cbn [fst snd].
  assert (map id moved = map id prev) as Hid.
  { replace moved with (fst (moveContacts prev d n)) by (rewrite E; reflexivity).
    apply moveContacts_ids. }
  assert (checkDistances calculateDistanceKm u moved =
          map (withDistance (calculateDistanceKm u))
            (filter (fun c => isRegistered c
                       && (calculateDistanceKm u (location c) <=? RADAR_RADIUS_KM))
               moved)) as Hn by apply (checkDistance_fold u moved []).
  repeat split; auto.
  intros c Hc Hr Hd. rewrite Hn. apply in_map_iff. exists c. split.
  - unfold withDistance. rewrite Hd. reflexivity.
  - apply filter_In. split; [assumption|]. rewrite Hr, Hd. reflexivity.
Qed.

(** C2. [moveContacts] returns every entity that is not a participant
    unchanged, and changes nothing but the location of a participant. *)
Theorem moveContacts_frame (contacts : list Contact) (d : Draws) (n : nat) :
  Forall2
    (fun c c' =>
       if isRegistered c
       then id c' = id c /\ name c' = name c /\ phoneNumber c' = phoneNumber c
            /\ avatarUrl c' = avatarUrl c /\ isRegistered c' = isRegistered c
            /\ lastSeen c' = lastSeen c
       else c' = c)
    contacts (fst (moveContacts contacts d n)).
Proof.
  apply mapM_Forall2. intros c k. unfold moveContact.
  destruct (isRegistered c) eqn:E; cbn; rewrite ?E; auto 10.
Qed.

Lemma walk_offset_bound (r : float) :
  unitInterval r -> (abs ((r - 0.5) * 0.0005) <=? 0.00025) = true.
Proof.
  intros [H0 H1].
  eapply (random_offset_bound r 0.0005 0.00025); try eassumption; reflexivity.
Qed.

Lemma walk_change_bound (a r : float) :
  unitInterval r -> (abs a <? infinity) = true ->
  (abs (a + (r - 0.5) * 0.0005 - a) <=? 0.0005) = true.
Proof.
  intros Hr Ha.
  eapply (add_sub_bound a _ 0.00025 0.0005);
    [vm_compute; reflexivity|vm_compute; reflexivity|lia|exact Ha|].
  apply walk_offset_bound, Hr.
Qed.

(** C3, as the code has it.  When every draw of [Math.random()] lies in
    [[0, 1)], one tick moves the latitude and the longitude of each
    participant by adding (with the binary64 addition of the source) the
    offset [(r - 0.5) * 0.0005], [r] being the draw of that coordinate; its
    absolute value is at most 0.00025 degrees, half the per-tick magnitude.
    The sum is rounded to binary64, so the change of the coordinate is not
    the offset: the difference between the new and the old value of a
    finite coordinate is at most the per-tick magnitude, 0.0005 degrees. *)
Theorem moveContacts_step_bounded (d : Draws) :
  (forall k, unitInterval (d k)) ->
  forall (contacts : list Contact) (n : nat),
  Forall2
    (fun c c' =>
       isRegistered c = true ->
       exists (k : nat) (latMove lonMove : float),
         latMove = (d k - 0.5) * 0.0005 /\
         lonMove = (d (S k) - 0.5) * 0.0005 /\
         location c' =
           {| latitude := latitude (location c) + latMove;
              longitude := longitude (location c) + lonMove |} /\
         (abs latMove <=? 0.00025) = true /\ (abs lonMove <=? 0.00025) = true /\
         ((abs (latitude (location c)) <? infinity) = true ->
          (abs (latitude (location c') - latitude (location c)) <=? 0.0005) = true) /\
         ((abs (longitude (location c)) <? infinity) = true ->
          (abs (longitude (location c') - longitude (location c)) <=? 0.0005) = true))
    contacts (fst (moveContacts contacts d n)).
Proof.
  intros Hd contacts n. apply mapM_Forall2. intros c k Hr.
  unfold moveContact. rewrite Hr. cbn.
  exists k, ((d k - 0.5) * 0.0005), ((d (S k) - 0.5) * 0.0005).
  do 3 (split; [reflexivity|]).
  split; [apply walk_offset_bound, Hd|]. split; [apply walk_offset_bound, Hd|].
  split; apply walk_change_bound; apply Hd.
Qed.

(** C3 at the initial contacts, every draw being 0, the draw that moves
    furthest. *)
Lemma moveContacts_step_bounded_witness :
  (forall k : nat, unitInterval ((fun _ => 0) k)) /\
  Forall2
    (fun c c' =>
       isRegistered c = true ->
       exists (k : nat) (latMove lonMove : float),
         latMove = ((fun _ => 0) k - 0.5) * 0.0005 /\
         lonMove = ((fun _ => 0) (S k) - 0.5) * 0.0005 /\
         location c' =
           {| latitude := latitude (location c) + latMove;
              longitude := longitude (location c) + lonMove |} /\
         (abs latMove <=? 0.00025) = true /\ (abs lonMove <=? 0.00025) = true /\
         ((abs (latitude (location c)) <? infinity) = true ->
          (abs (latitude (location c') - latitude (location c)) <=? 0.0005) = true) /\
         ((abs (longitude (location c)) <? infinity) = true ->
          (abs (longitude (location c') - longitude (location c)) <=? 0.0005) = true))
    (INITIAL_CONTACTS 0%Z)
    (fst (moveContacts (INITIAL_CONTACTS 0%Z) (fun _ => 0) 0%nat)).
Proof.
  assert (forall k : nat, unitInterval ((fun _ => 0) k)) as H
    by (intros k; split; reflexivity).
  split; [exact H|].
  exact (moveContacts_step_bounded (fun _ => 0) H (INITIAL_CONTACTS 0%Z) 0%nat).
Defined.

End Simulation.

(** C3, as the claim states it, fails: the sum of a coordinate and its
    offset is rounded to binary64, and the rounded sum can lie further from
    the coordinate than the offset is long.  At the initial contact, with
    the draw 0, the offset is -0.00025 and the latitude 40.7145 becomes
    40.71425, which lies 0.00025000000000119371 below it. *)
Lemma moveContacts_change_above_half_magnitude :
  ~ (forall (d : Draws) (contacts : list Contact) (n : nat),
       (forall k, unitInterval (d k)) ->
       Forall2
         (fun c c' =>
            isRegistered c = true ->
            (abs (latitude (location c') - latitude (location c)) <=? 0.00025) = true /\
            (abs (longitude (location c') - longitude (location c)) <=? 0.00025) = true)
         contacts (fst (moveContacts contacts d n))).
Proof.
  intros H.
  specialize (H (fun _ => 0) (INITIAL_CONTACTS 0%Z) 0%nat
                (fun _ => conj eq_refl eq_refl)).
  apply Forall2_cons_iff in H as [Hc _].
  destruct (Hc eq_refl) as [Hlat _]. vm_compute in Hlat. discriminate Hlat.
Qed.

(** * The add-contact form *)

Section AddContact.

Variable calculateDistanceKm : Coordinates -> Coordinates -> float.
Variable encodeURIComponent : jsstring -> option jsstring.

Lemma trimStart_nil_iff l : trimStart l = [] <-> blank l = true.
Proof.
  induction l as [|c l IH]; cbn; [tauto|].
  destruct (isWhiteSpace c); cbn; [exact IH|]. split; discriminate.
Qed.

Lemma trimStart_blank l : blank (trimStart l) = blank l.
Proof.
  induction l as [|c l IH]; cbn; [reflexivity|].
  destruct (isWhiteSpace c) eqn:E; cbn; rewrite ?E; auto.
Qed.

Lemma blank_rev l : blank (rev l) = blank l.
Proof.
  unfold blank. apply eq_true_iff_eq. rewrite !forallb_forall.
  split; intros H c Hc; apply H; [apply -> in_rev|apply <- in_rev]; exact Hc.
Qed.

Lemma falsy_nil_iff (l : jsstring) : falsy l = true <-> l = [].
Proof. destruct l; cbn; split; congruence. Qed.

(** [!s.trim()] holds exactly of the blank strings. *)
Lemma falsy_trim s : falsy (trim s) = blank s.
Proof.
  apply eq_true_iff_eq. rewrite falsy_nil_iff. unfold trim, trimEnd.
  rewrite <- (trimStart_blank s), <- (blank_rev (trimStart s)), <- trimStart_nil_iff.
  split; intros H.
  - rewrite <- (rev_involutive (trimStart (rev (trimStart s)))), H. reflexivity.
  - rewrite H. reflexivity.
Qed.

(** C7. With a name or a phone that is empty or white space only,
    [handleAddContact] returns without touching the state, draws nothing and
    raises nothing, and so does a click on the save button: the entity
    collection is unchanged and there is nothing to report. *)
Theorem handleAddContact_rejects_blank (now : Z) (today : Date)
    (s : AppState) (d : Draws) (n : nat) :
  blank (newContactName s) = true \/ blank (newContactPhone s) = true ->
  handleAddContact encodeURIComponent now today s d n = (Some s, n) /\
  step calculateDistanceKm encodeURIComponent s (ClickSave now today d) = s.
Proof.
  intros H.
  assert (handleAddContact encodeURIComponent now today s d 0%nat = (Some s, 0%nat)
          /\ handleAddContact encodeURIComponent now today s d n = (Some s, n)) as [E0 En].
  { unfold handleAddContact. rewrite !falsy_trim.
    destruct H as [-> | ->]; rewrite ?orb_true_r; split; reflexivity. }
  split; [exact En|].
  cbn [step]. rewrite E0. destruct (_ && _); reflexivity.
Qed.

Lemma add_offset_bound (r : float) :
  unitInterval r -> (abs ((r - 0.5) * 0.04) <=? 0.02) = true.
Proof.
  intros [H0 H1].
  eapply (random_offset_bound r 0.04 0.02); try eassumption; reflexivity.
Qed.

(** The coordinate of a new contact, the rounded sum of the start coordinate
    and an offset of at most 0.02 degrees, lies within 0.02 degrees and one
    step of the binary64 grid of the start coordinate. *)
Lemma placement_near (r1 r2 : float) :
  unitInterval r1 -> unitInterval r2 ->
  (abs (latitude MOCK_USER_START_LOCATION + (r1 - 0.5) * 0.04
        - latitude MOCK_USER_START_LOCATION) <=? 0.02000000000002) = true /\
  (abs (longitude MOCK_USER_START_LOCATION + (r2 - 0.5) * 0.04
        - longitude MOCK_USER_START_LOCATION) <=? 0.02000000000002) = true.
Proof.
  intros H1 H2. split.
  - eapply (add_sub_tight _ _ 0.02 0.02000000000002);
      [vm_compute; reflexivity|vm_compute; reflexivity|vm_compute; reflexivity
      |lia|vm_compute; discriminate|vm_compute; reflexivity|vm_compute; discriminate|].
    apply add_offset_bound, H1.
  - eapply (add_sub_tight _ _ 0.02 0.02000000000002);
      [vm_compute; reflexivity|vm_compute; reflexivity|vm_compute; reflexivity
      |lia|vm_compute; discriminate|vm_compute; reflexivity|vm_compute; discriminate|].
    apply add_offset_bound, H2.
Qed.

(** C10, as the code has it.  When name and phone are not blank (and the
    name can be encoded into the avatar URL), [handleAddContact] appends one
    contact to the end of the collection and leaves the contacts before it
    as they were.  The new contact is a participant, carries the time of
    the call as [lastSeen], and sits at the start coordinate plus, per
    axis, the offset [(r - 0.5) * 0.04], [r] being the draw of that axis;
    the absolute value of the offset is at most 0.02 degrees.  The sum is
    rounded to binary64, so the stored coordinate can lie further than 0.02
    degrees from the start coordinate, but by no more than the rounding:
    the two differ by at most 0.02000000000002 degrees. *)
Theorem handleAddContact_appends (now : Z) (today : Date) (s : AppState)
    (d : Draws) (n : nat) (encoded : jsstring) :
  blank (newContactName s) = false ->
  blank (newContactPhone s) = false ->
  encodeURIComponent (newContactName s) = Some encoded ->
  unitInterval (d n) -> unitInterval (d (S n)) ->
  exists (newContact : Contact) (s' : AppState) (dLat dLon : float),
    fst (handleAddContact encodeURIComponent now today s d n) = Some s' /\
    allContacts s' = allContacts s ++ [newContact] /\
    isRegistered newContact = true /\
    lastSeen newContact = today /\
    id newContact = toString now /\
    name newContact = newContactName s /\
    phoneNumber newContact = newContactPhone s /\
    dLat = (d n - 0.5) * 0.04 /\ dLon = (d (S n) - 0.5) * 0.04 /\
    location newContact =
      {| latitude := latitude MOCK_USER_START_LOCATION + dLat;
         longitude := longitude MOCK_USER_START_LOCATION + dLon |} /\
    (abs dLat <=? 0.02) = true /\ (abs dLon <=? 0.02) = true /\
    (abs (latitude (location newContact) - latitude MOCK_USER_START_LOCATION)
       <=? 0.02000000000002) = true /\
    (abs (longitude (location newContact) - longitude MOCK_USER_START_LOCATION)
       <=? 0.02000000000002) = true.
Proof.
  intros Hn Hp He H1 H2. unfold handleAddContact.
  rewrite !falsy_trim, Hn, Hp, He. cbn.
  do 2 eexists. exists ((d n - 0.5) * 0.04), ((d (S n) - 0.5) * 0.04).
  split; [reflexivity|]. cbn.
  repeat (split; [reflexivity|]).
  split; [apply add_offset_bound, H1|]. split; [apply add_offset_bound, H2|].
  exact (placement_near (d n) (d (S n)) H1 H2).
Qed.

(** ** Ids *)

Lemma allContacts_rerunEffect s : allContacts (rerunEffect s) = allContacts s.
Proof.
  unfold rerunEffect, simulationEffect, cleanupEffect.
  destruct (cleanup s); cbn; destruct (isTracking s), (userLocation s); reflexivity.
Qed.

Lemma allContacts_toggleTracking g s :
  allContacts (toggleTracking g s) = allContacts s.
Proof.
  unfold toggleTracking. destruct (isTracking s); cbn.
  - destruct (simulationRef s); reflexivity.
  - destruct g; reflexivity.
Qed.

Lemma allContacts_positionCallback u s :
  allContacts (positionCallback u s) = allContacts s.
Proof.
  unfold positionCallback. destruct (pendingPositions s); [reflexivity|].
  rewrite allContacts_rerunEffect. reflexivity.
Qed.

Lemma allContacts_errorCallback s :
  allContacts (errorCallback s) = allContacts s.
Proof.
  unfold errorCallback. destruct (pendingPositions s); [reflexivity|].
  cbv zeta. cbn [holdsStartLocation setRuntime].
  destruct (holdsStartLocation s); [reflexivity|].
  rewrite allContacts_rerunEffect. reflexivity.
Qed.

Lemma handleAddContact_ids now today s d n :
  match fst (handleAddContact encodeURIComponent now today s d n) with
  | Some s' =>
      map id (allContacts s') = map id (allContacts s) \/
      map id (allContacts s') = map id (allContacts s) ++ [toString now]
  | None => True
  end.
Proof.
  unfold handleAddContact.
  destruct (falsy _ || falsy _); [left; reflexivity|].
  destruct (encodeURIComponent (newContactName s)); [|exact I].
  right. cbn. rewrite map_app. reflexivity.
Qed.

Lemma step_ids s e :
  map id (allContacts (step calculateDistanceKm encodeURIComponent s e)) =
    map id (allContacts s) \/
  exists now today d,
    e = ClickSave now today d /\
    map id (allContacts (step calculateDistanceKm encodeURIComponent s e)) =
      map id (allContacts s) ++ [toString now].
Proof.
  destruct e as [g|la lo| |t d| |v|v|now today d]; cbn [step].
  - left. rewrite allContacts_rerunEffect, allContacts_toggleTracking. reflexivity.
  - left. rewrite allContacts_positionCallback. reflexivity.
  - left. rewrite allContacts_errorCallback. reflexivity.
  - left. destruct (activeInterval t (timers s)) as [u|]; [|reflexivity].
    unfold intervalCallback, tick, bind, ret.
    pose proof (moveContacts_ids (allContacts s) d 0%nat) as H.
    destruct (moveContacts (allContacts s) d 0%nat) as [moved k]. exact H.
  - left. reflexivity.
  - left. destruct (isAddingContact s); reflexivity.
  - left. destruct (isAddingContact s); reflexivity.
  - destruct (_ && _); [|left; reflexivity].
    pose proof (handleAddContact_ids now today s d 0%nat) as H.
    destruct (fst (handleAddContact encodeURIComponent now today s d 0%nat)) as [s'|];
      [|left; reflexivity].
    destruct H as [H|H]; [left; exact H|right; eauto].
Qed.

Lemma reachable_run s es :
  reachable calculateDistanceKm encodeURIComponent s ->
  reachable calculateDistanceKm encodeURIComponent
            (run calculateDistanceKm encodeURIComponent s es).
Proof.
  revert s. induction es as [|e es IH]; intros s H; cbn; [exact H|].
  apply IH. constructor. exact H.
Qed.

Lemma run_ids_NoDup es : forall s,
  NoDup (map id (allContacts s)) ->
  freshTimestamps calculateDistanceKm encodeURIComponent s es ->
  NoDup (map id (allContacts (run calculateDistanceKm encodeURIComponent s es))).
Proof.
  induction es as [|e es IH]; intros s Hs Hf; cbn [run fold_left]; [exact Hs|].
  destruct Hf as [He Hf]. apply IH; [|exact Hf].
  destruct (step_ids s e) as [-> | (now & today & d & -> & ->)]; [exact Hs|].
  apply NoDup_app; [exact Hs|repeat constructor; intros []|].
  intros a Ha [<-|[]]. exact (He Ha).
Qed.

(** C9, as the code has it.  The ids of the collection are pairwise
    distinct after every run of events in which each save happens at a
    timestamp whose decimal string is not yet an id of the collection. *)
Theorem ids_distinct_when_timestamps_fresh (t0 : Date) (es : list Event) :
  freshTimestamps calculateDistanceKm encodeURIComponent (initialState t0) es ->
  NoDup (map id
           (allContacts
              (run calculateDistanceKm encodeURIComponent (initialState t0) es))).
Proof.
  apply run_ids_NoDup. cbn. repeat constructor. intros [].
Qed.

End AddContact.

(** ** The form at sample states *)

(** C7 at a form with an empty name and the phone 555. *)
Lemma handleAddContact_rejects_blank_witness :
  (blank (newContactName formWithoutName) = true
   \/ blank (newContactPhone formWithoutName) = true) /\
  handleAddContact Some 1700000000000%Z 1700000000000%Z formWithoutName someDraws 0%nat
    = (Some formWithoutName, 0%nat) /\
  step (fun _ _ => 0) Some formWithoutName
       (ClickSave 1700000000000%Z 1700000000000%Z someDraws) = formWithoutName.
Proof.
  assert (blank (newContactName formWithoutName) = true
          \/ blank (newContactPhone formWithoutName) = true) as H
    by (left; reflexivity).
  split; [exact H|].
  exact (handleAddContact_rejects_blank (fun _ _ => 0) Some
           1700000000000%Z 1700000000000%Z formWithoutName someDraws 0%nat H).
Defined.

(** C10 at a form filled in with Ann and 555. *)
Lemma handleAddContact_appends_witness :
  exists (newContact : Contact) (s' : AppState) (dLat dLon : float),
    fst (handleAddContact Some 1700000000000%Z 1700000000005%Z formFilled someDraws 0%nat)
      = Some s' /\
    allContacts s' = allContacts formFilled ++ [newContact] /\
    isRegistered newContact = true /\
    lastSeen newContact = 1700000000005%Z /\
    id newContact = toString 1700000000000%Z /\
    name newContact = newContactName formFilled /\
    phoneNumber newContact = newContactPhone formFilled /\
    dLat = (someDraws 0%nat - 0.5) * 0.04 /\
    dLon = (someDraws 1%nat - 0.5) * 0.04 /\
    location newContact =
      {| latitude := latitude MOCK_USER_START_LOCATION + dLat;
         longitude := longitude MOCK_USER_START_LOCATION + dLon |} /\
    (abs dLat <=? 0.02) = true /\ (abs dLon <=? 0.02) = true /\
    (abs (latitude (location newContact) - latitude MOCK_USER_START_LOCATION)
       <=? 0.02000000000002) = true /\
    (abs (longitude (location newContact) - longitude MOCK_USER_START_LOCATION)
       <=? 0.02000000000002) = true.
Proof.
  apply (handleAddContact_appends Some 1700000000000%Z 1700000000005%Z
           formFilled someDraws 0%nat (js "Ann"));
    try reflexivity; split; reflexivity.
Defined.

(** C10, as the claim states it, fails: the sum of the start coordinate and
    the offset is rounded to binary64.  With the draw 0 the offset is -0.02,
    and the stored latitude lies 0.020000000000003126 below the start
    latitude 40.7128. *)
Lemma handleAddContact_places_beyond_offset :
  ~ (forall (encodeURIComponent : jsstring -> option jsstring) (now : Z)
            (today : Date) (s : AppState) (d : Draws) (n : nat)
            (encoded : jsstring),
       blank (newContactName s) = false ->
       blank (newContactPhone s) = false ->
       encodeURIComponent (newContactName s) = Some encoded ->
       unitInterval (d n) -> unitInterval (d (S n)) ->
       exists (newContact : Contact) (s' : AppState),
         fst (handleAddContact encodeURIComponent now today s d n) = Some s' /\
         allContacts s' = allContacts s ++ [newContact] /\
         (abs (latitude (location newContact) - latitude MOCK_USER_START_LOCATION)
            <=? 0.02) = true /\
         (abs (longitude (location newContact) - longitude MOCK_USER_START_LOCATION)
            <=? 0.02) = true).
Proof.
  intros H.
  destruct (H Some 1700000000000%Z 1700000000005%Z formFilled (fun _ => 0) 0%nat
              (js "Ann") eq_refl eq_refl eq_refl
              (conj eq_refl eq_refl) (conj eq_refl eq_refl))
    as (c & s' & E & Ec & Hlat & _).
  injection E as <-.
  apply (app_inj_tail (allContacts formFilled)) in Ec as [_ <-].
  vm_compute in Hlat. discriminate Hlat.
Qed.

(** C9, as the code has it, at two saves one millisecond apart. *)
Lemma ids_distinct_when_timestamps_fresh_witness :
  freshTimestamps (fun _ _ => 0) Some (initialState 0%Z)
    (twoSaves 1700000000000%Z 1700000000001%Z) /\
  NoDup (map id
           (allContacts
              (run (fun _ _ => 0) Some (initialState 0%Z)
                   (twoSaves 1700000000000%Z 1700000000001%Z)))).
Proof.
  assert (freshTimestamps (fun _ _ => 0) Some (initialState 0%Z)
            (twoSaves 1700000000000%Z 1700000000001%Z)) as H.
  { cbn -[toString]. repeat split; vm_compute; intuition discriminate. }
  split; [exact H|].
  exact (ids_distinct_when_timestamps_fresh (fun _ _ => 0) Some 0%Z
           (twoSaves 1700000000000%Z 1700000000001%Z) H).
Defined.

(** C9, as the claim states it, fails: two saves in the same millisecond
    leave two contacts with the same id in a reachable state. *)
Lemma duplicate_ids_reachable :
  ~ (forall calculateDistanceKm encodeURIComponent s,
       reachable calculateDistanceKm encodeURIComponent s ->
       NoDup (map id (allContacts s))).
Proof.
  intros H.
  specialize (H (fun _ _ => 0) Some _
    (reachable_run (fun _ _ => 0) Some _
       (twoSaves 1700000000000%Z 1700000000000%Z) (reachable_initial _ _ 0%Z))).
  vm_compute in H.
  apply NoDup_cons_iff in H as [_ H]. apply NoDup_cons_iff in H as [H _].
  apply H. left. reflexivity.
Qed.

(** * Tracking and the simulation timer *)

Section Tracking.

Variable calculateDistanceKm : Coordinates -> Coordinates -> float.
Variable encodeURIComponent : jsstring -> option jsstring.

Lemma clearInterval_single (t : TimerId) (u : Coordinates) :
  clearInterval t [(t, u)] = [].
Proof. unfold clearInterval. cbn. rewrite Nat.eqb_refl. reflexivity. Qed.

(** After a commit that runs the effect again the timers are consistent,
    whatever the handler did to [isTracking] and [userLocation]. *)
Lemma rerunEffect_consistent s :
  match cleanup s with
  | Some t => exists u, timers s = [(t, u)]
  | None => timers s = []
  end ->
  simulationRef s = None ->
  timersConsistent (rerunEffect s).
Proof.
  intros Ht Hr. unfold rerunEffect, cleanupEffect, simulationEffect, timersConsistent.
  destruct (cleanup s) as [t|] eqn:Ec.
  - destruct Ht as [u ->]. rewrite clearInterval_single. cbn.
    destruct (isTracking s) eqn:Et, (userLocation s) as [u'|]; cbn;
      rewrite ?Ec; repeat split; eauto; congruence.
  - destruct (isTracking s) eqn:Et, (userLocation s) as [u'|]; cbn;
      rewrite ?Ec, ?Ht; repeat split; eauto; congruence.
Qed.

Lemma timersConsistent_step s e :
  timersConsistent s ->
  timersConsistent (step calculateDistanceKm encodeURIComponent s e).
Proof.
  intros (Ht & Hr & Hi).
  destruct e as [g|la lo| |t d| |v|v|now today d]; cbn [step].
  - apply rerunEffect_consistent; unfold toggleTracking;
      destruct (isTracking s); cbn; rewrite ?Hr; cbn; try destruct g; cbn; auto.
  - unfold positionCallback. destruct (pendingPositions s); [repeat split; auto|].
    apply rerunEffect_consistent; cbn; auto.
  - unfold errorCallback. destruct (pendingPositions s); [repeat split; auto|].
    cbv zeta. cbn [holdsStartLocation setRuntime].
    destruct (holdsStartLocation s); [repeat split; auto|].
    apply rerunEffect_consistent; cbn; auto.
  - destruct (activeInterval t (timers s)); [|repeat split; auto].
    unfold intervalCallback. destruct (fst (tick _ _ _ _ _)). repeat split; auto.
  - repeat split; auto.
  - destruct (isAddingContact s); repeat split; auto.
  - destruct (isAddingContact s); repeat split; auto.
  - destruct (_ && _); [|repeat split; auto].
    unfold handleAddContact.
    destruct (falsy _ || falsy _); cbn; [repeat split; auto|].
    destruct (encodeURIComponent _); cbn; repeat split; auto.
Qed.

Lemma reachable_consistent s :
  reachable calculateDistanceKm encodeURIComponent s -> timersConsistent s.
Proof.
  induction 1 as [t0|s e _ IH].
  - repeat split; reflexivity.
  - apply timersConsistent_step, IH.
Qed.

(** While tracking is off and no interval is active, no event other than a
    click on the power button starts one. *)
Lemma idle_step s e :
  isClickPower e = false ->
  isTracking s = false /\ timers s = [] /\ cleanup s = None ->
  let s' := step calculateDistanceKm encodeURIComponent s e in
  isTracking s' = false /\ timers s' = [] /\ cleanup s' = None.
Proof.
  intros He (Hi & Ht & Hc).
  destruct e as [g|la lo| |t d| |v|v|now today d]; try discriminate; cbn [step]; cbv zeta.
  - unfold positionCallback. destruct (pendingPositions s); [auto|].
    unfold rerunEffect, cleanupEffect, simulationEffect. cbn. rewrite Hc. cbn.
    rewrite Hi. cbn. auto.
  - unfold errorCallback. destruct (pendingPositions s); [auto|].
    cbv zeta. cbn [holdsStartLocation setRuntime].
    destruct (holdsStartLocation s); [cbn; auto|].
    unfold rerunEffect, cleanupEffect, simulationEffect. cbn. rewrite Hc. cbn.
    rewrite Hi. cbn. auto.
  - rewrite Ht. cbn. auto.
  - cbn. auto.
  - destruct (isAddingContact s); cbn; auto.
  - destruct (isAddingContact s); cbn; auto.
  - destruct (_ && _); [|auto].
    unfold handleAddContact.
    destruct (falsy _ || falsy _); cbn; [auto|].
    destruct (encodeURIComponent _); cbn; auto.
Qed.

Lemma idle_run es : forall s,
  forallb (fun e => negb (isClickPower e)) es = true ->
  isTracking s = false /\ timers s = [] /\ cleanup s = None ->
  let s' := run calculateDistanceKm encodeURIComponent s es in
  isTracking s' = false /\ timers s' = [] /\ cleanup s' = None.
Proof.
  induction es as [|e es IH]; intros s Hes Hs; cbn [run fold_left]; [exact Hs|].
  cbn [forallb] in Hes. apply andb_true_iff in Hes as [He Hes].
  apply IH; [exact Hes|]. apply idle_step; [|exact Hs].
  destruct (isClickPower e); [discriminate|reflexivity].
Qed.

Lemma interval_without_timer s t d :
  timers s = [] ->
  step calculateDistanceKm encodeURIComponent s (IntervalFires t d) = s.
Proof. intros H. cbn [step]. rewrite H. reflexivity. Qed.

(** C6. Switching tracking off in a reachable state clears the user
    position and leaves no interval active: the cleanup of the simulation
    effect clears the one that was running.  From then on, and until the
    power button is clicked again, the timer changes nothing: whichever
    interval is due to fire, its callback does not run and the state, with
    the entity collection and the nearby set, stays as it is. *)
Theorem stop_tracking_stops_simulation (s : AppState) (geolocation : bool) :
  reachable calculateDistanceKm encodeURIComponent s ->
  isTracking s = true ->
  let s' := step calculateDistanceKm encodeURIComponent s (ClickPower geolocation) in
  isTracking s' = false /\ userLocation s' = None /\ timers s' = [] /\
  forall es, forallb (fun e => negb (isClickPower e)) es = true ->
    let s'' := run calculateDistanceKm encodeURIComponent s' es in
    timers s'' = [] /\
    forall t d,
      step calculateDistanceKm encodeURIComponent s'' (IntervalFires t d) = s''.
Proof.
  intros Hreach Htr. cbv zeta.
  destruct (reachable_consistent s Hreach) as (Ht & Hr & _).
  assert (let s' := step calculateDistanceKm encodeURIComponent s (ClickPower geolocation) in
          isTracking s' = false /\ userLocation s' = None
          /\ timers s' = [] /\ cleanup s' = None) as (A & B & C & D).
  { destruct s as [tr ul hs ac nc ia nn np sr ts cl nt pp]. cbn in Htr, Hr, Ht. subst tr sr.
    cbn [step]. unfold toggleTracking, rerunEffect, cleanupEffect, simulationEffect.
    destruct cl as [t|].
    - destruct Ht as [u ->]. cbn. rewrite Nat.eqb_refl. cbn. auto.
    - subst ts. cbn. auto. }
  repeat split; auto.
  - apply (idle_run es); auto.
  - intros t d. destruct (idle_run es _ H (conj A (conj C D))) as (_ & E & _).
    apply interval_without_timer. exact E.
Qed.

End Tracking.

(** C6 at the state reached by switching tracking on without geolocation. *)
Lemma stop_tracking_stops_simulation_witness :
  reachable (fun _ _ => 0) Some trackingState /\
  isTracking trackingState = true /\
  let s' := step (fun _ _ => 0) Some trackingState (ClickPower true) in
  isTracking s' = false /\ userLocation s' = None /\ timers s' = [] /\
  forall es, forallb (fun e => negb (isClickPower e)) es = true ->
    let s'' := run (fun _ _ => 0) Some s' es in
    timers s'' = [] /\
    forall t d, step (fun _ _ => 0) Some s'' (IntervalFires t d) = s''.
Proof.
  assert (reachable (fun _ _ => 0) Some trackingState) as H
    by (apply reachable_step, reachable_initial).
  split; [exact H|]. split; [reflexivity|].
  exact (stop_tracking_stops_simulation (fun _ _ => 0) Some trackingState true
           H eq_refl).
Defined.

(** * The radar projection *)

Section RadarProjection.

Variable Math_atan2 : float -> float -> float.
Variable Math_cos : float -> float.
Variable Math_sin : float -> float.

Lemma plotContact_fold u center maxRadiusPx contacts : forall svg,
  fold_left (plotContact Math_atan2 Math_cos Math_sin u center maxRadiusPx)
            contacts svg =
  svg ++ map (projectionSpec Math_atan2 Math_cos Math_sin u center maxRadiusPx)
             (filter (fun c => negb (RADAR_RADIUS_KM <? distanceKm c)) contacts).
Proof.
  induction contacts as [|c contacts IH]; intros svg; cbn [fold_left filter map].
  - rewrite app_nil_r. reflexivity.
  - rewrite IH. unfold plotContact.
    destruct (RADAR_RADIUS_KM <? distanceKm c); cbn [negb map]; [reflexivity|].
    rewrite <- app_assoc. reflexivity.
Qed.

Lemma Radar_plots u contacts width height :
  Radar Math_atan2 Math_cos Math_sin (Some u) contacts width height =
  map (projectionSpec Math_atan2 Math_cos Math_sin u (radarCenter width height)
                      (radarMaxRadiusPx width height))
      (filter (fun c => negb (RADAR_RADIUS_KM <? distanceKm c)) contacts).
Proof. unfold Radar. apply (plotContact_fold u _ _ contacts []). Qed.

(** C4. The radar plots the contacts that are not beyond 5 km, in their
    order, each at the point the specification gives: angle
    [atan2(dLon, dLat) - PI/2], pixel distance [(d / 5) * maxRadiusPx],
    point [(centerX + cos(angle) * distPx, centerY + sin(angle) * distPx)].
    In particular every contact with [d <= 5] is plotted there. *)
Theorem Radar_projection (u : Coordinates) (contacts : list NearbyContact)
    (width height : float) :
  let center := radarCenter width height in
  let maxRadiusPx := radarMaxRadiusPx width height in
  let plotted := Radar Math_atan2 Math_cos Math_sin (Some u) contacts width height in
  plotted =
    map (projectionSpec Math_atan2 Math_cos Math_sin u center maxRadiusPx)
        (filter (fun c => negb (RADAR_RADIUS_KM <? distanceKm c)) contacts) /\
  forall c, In c contacts -> (distanceKm c <=? 5) = true ->
    In {| dot_x :=
            x center
            + Math_cos (Math_atan2 (longitude (location (base c)) - longitude u)
                                   (latitude (location (base c)) - latitude u)
                        - Math_PI / 2)
              * (distanceKm c / 5 * maxRadiusPx);
          dot_y :=
            y center
            + Math_sin (Math_atan2 (longitude (location (base c)) - longitude u)
                                   (latitude (location (base c)) - latitude u)
                        - Math_PI / 2)
              * (distanceKm c / 5 * maxRadiusPx);
          dot_contact := c |}
       plotted.
Proof.
  cbv zeta. split; [apply Radar_plots|].
  intros c Hc Hd. rewrite Radar_plots. apply in_map_iff. exists c.
  split; [reflexivity|]. apply filter_In. split; [exact Hc|].
  apply leb_not_gtb in Hd. unfold RADAR_RADIUS_KM. rewrite Hd. reflexivity.
Qed.

(** C5, as the code has it.  A contact whose distance exceeds 5 km is never
    plotted: every dot the radar draws belongs to a contact of the list
    whose distance does not exceed 5, and it is drawn, in the direction of
    the contact's angle, at the pixel distance
    [distPx = (d / 5) * maxRadiusPx] from the centre.  When that distance
    [d] is not negative and [maxRadiusPx] is a finite number that is not
    negative, the dot lies within the visible radius:
    [0 <= distPx <= maxRadiusPx]. *)
Theorem Radar_within_visible_radius (userLocation : option Coordinates)
    (contacts : list NearbyContact) (width height : float) (dot : Dot) :
  In dot (Radar Math_atan2 Math_cos Math_sin userLocation contacts width height) ->
  In (dot_contact dot) contacts /\
  (RADAR_RADIUS_KM <? distanceKm (dot_contact dot)) = false /\
  (exists u,
     userLocation = Some u /\
     dot_x dot =
       x (radarCenter width height)
       + Math_cos (contactAngle Math_atan2 u (dot_contact dot))
         * contactDistPx (radarMaxRadiusPx width height) (dot_contact dot) /\
     dot_y dot =
       y (radarCenter width height)
       + Math_sin (contactAngle Math_atan2 u (dot_contact dot))
         * contactDistPx (radarMaxRadiusPx width height) (dot_contact dot)) /\
  ((0 <=? distanceKm (dot_contact dot)) = true ->
   (0 <=? radarMaxRadiusPx width height) = true ->
   (radarMaxRadiusPx width height <? infinity) = true ->
   (0 <=? contactDistPx (radarMaxRadiusPx width height) (dot_contact dot)) = true /\
   (contactDistPx (radarMaxRadiusPx width height) (dot_contact dot)
      <=? radarMaxRadiusPx width height) = true).
Proof.
  intros Hdot. destruct userLocation as [u|]; [|destruct Hdot].
  rewrite Radar_plots in Hdot.
  apply in_map_iff in Hdot as (c & <- & Hc). apply filter_In in Hc as [Hc Hgt].
  cbn [projectionSpec dot_contact dot_x dot_y].
  apply negb_true_iff in Hgt.
  split; [exact Hc|]. split; [exact Hgt|]. split.
  - exists u. split; [reflexivity|]. split; reflexivity.
  - intros Hpos HM HMi. unfold contactDistPx. apply ratio_scale_bound; auto.
    apply leb_of_not_gtb; auto.
Qed.

End RadarProjection.

(** C5, as the code has it, at one contact 2.5 km away on a display of
    448 px, whose radar has the radius 204 px. *)
Lemma Radar_within_visible_radius_witness :
  In (projectionSpec (fun _ _ => 0) (fun _ => 1) (fun _ => 0)
        MOCK_USER_START_LOCATION (radarCenter 448 448) (radarMaxRadiusPx 448 448)
        (contactAt 2.5))
     (Radar (fun _ _ => 0) (fun _ => 1) (fun _ => 0)
        (Some MOCK_USER_START_LOCATION) [contactAt 2.5] 448 448) /\
  (0 <=? distanceKm (contactAt 2.5)) = true /\
  (0 <=? radarMaxRadiusPx 448 448) = true /\
  (radarMaxRadiusPx 448 448 <? infinity) = true /\
  In (contactAt 2.5) [contactAt 2.5] /\
  (RADAR_RADIUS_KM <? distanceKm (contactAt 2.5)) = false /\
  (0 <=? contactDistPx (radarMaxRadiusPx 448 448) (contactAt 2.5)) = true /\
  (contactDistPx (radarMaxRadiusPx 448 448) (contactAt 2.5)
     <=? radarMaxRadiusPx 448 448) = true.
Proof.
  assert (In (projectionSpec (fun _ _ => 0) (fun _ => 1) (fun _ => 0)
                MOCK_USER_START_LOCATION (radarCenter 448 448)
                (radarMaxRadiusPx 448 448) (contactAt 2.5))
             (Radar (fun _ _ => 0) (fun _ => 1) (fun _ => 0)
                (Some MOCK_USER_START_LOCATION) [contactAt 2.5] 448 448)) as Hin
    by (left; reflexivity).
  pose proof (Radar_within_visible_radius (fun _ _ => 0) (fun _ => 1) (fun _ => 0)
                (Some MOCK_USER_START_LOCATION) [contactAt 2.5] 448 448 _ Hin)
    as (A & B & _ & C).
  split; [exact Hin|]. split; [reflexivity|]. split; [reflexivity|].
  split; [reflexivity|]. split; [exact A|]. split; [exact B|].
  exact (C eq_refl eq_refl eq_refl).
Defined.

(** C5, as the claim states it, fails: the guard only rejects distances
    above 5 km, so a contact that arrives with the distance -10 is plotted,
    at the pixel distance 200 on a radar of radius 100; this on a display
    of 240 px, whose radius is a finite number that is not negative.  Nor
    does it hold for every display when the distance is not negative: on a
    display of 20 px the radius [min(20, 20) / 2 - 20] is -10, and a
    contact 2.5 km away is plotted at the pixel distance -5, five pixels
    from the centre; and where the radius is infinite, a contact at the
    distance 0 is plotted at the pixel distance [0 * infinity], which is
    [NaN]. *)
Lemma Radar_plots_outside_visible_radius :
  ~ (forall (atan2 : float -> float -> float) (cos sin : float -> float)
            (u : option Coordinates) (contacts : list NearbyContact)
            (width height : float) (dot : Dot),
       In dot (Radar atan2 cos sin u contacts width height) ->
       (abs (contactDistPx (radarMaxRadiusPx width height) (dot_contact dot))
          <=? radarMaxRadiusPx width height) = true) /\
  ~ (forall (atan2 : float -> float -> float) (cos sin : float -> float)
            (u : option Coordinates) (contacts : list NearbyContact)
            (width height : float) (dot : Dot),
       (0 <=? radarMaxRadiusPx width height) = true ->
       (radarMaxRadiusPx width height <? infinity) = true ->
       In dot (Radar atan2 cos sin u contacts width height) ->
       (abs (contactDistPx (radarMaxRadiusPx width height) (dot_contact dot))
          <=? radarMaxRadiusPx width height) = true) /\
  ~ (forall (atan2 : float -> float -> float) (cos sin : float -> float)
            (u : option Coordinates) (contacts : list NearbyContact)
            (width height : float) (dot : Dot),
       (0 <=? distanceKm (dot_contact dot)) = true ->
       (radarMaxRadiusPx width height <? infinity) = true ->
       In dot (Radar atan2 cos sin u contacts width height) ->
       (abs (contactDistPx (radarMaxRadiusPx width height) (dot_contact dot))
          <=? radarMaxRadiusPx width height) = true) /\
  ~ (forall (atan2 : float -> float -> float) (cos sin : float -> float)
            (u : option Coordinates) (contacts : list NearbyContact)
            (width height : float) (dot : Dot),
       (0 <=? distanceKm (dot_contact dot)) = true ->
       (0 <=? radarMaxRadiusPx width height) = true ->
       In dot (Radar atan2 cos sin u contacts width height) ->
       (abs (contactDistPx (radarMaxRadiusPx width height) (dot_contact dot))
          <=? radarMaxRadiusPx width height) = true).
Proof.
  split; [|split; [|split]]; intros H.
  - specialize (H (fun _ _ => 0) (fun _ => 1) (fun _ => 0)
                  (Some MOCK_USER_START_LOCATION) [contactAt (-10)] 240 240 _
                  (or_introl eq_refl)).
    vm_compute in H. discriminate H.
  - specialize (H (fun _ _ => 0) (fun _ => 1) (fun _ => 0)
                  (Some MOCK_USER_START_LOCATION) [contactAt (-10)] 240 240 _
                  eq_refl eq_refl (or_introl eq_refl)).
    vm_compute in H. discriminate H.
  - specialize (H (fun _ _ => 0) (fun _ => 1) (fun _ => 0)
                  (Some MOCK_USER_START_LOCATION) [contactAt 2.5] 20 20
                  (projectionSpec (fun _ _ => 0) (fun _ => 1) (fun _ => 0)
                     MOCK_USER_START_LOCATION (radarCenter 20 20)
                     (radarMaxRadiusPx 20 20) (contactAt 2.5))
                  eq_refl eq_refl (or_introl eq_refl)).
    vm_compute in H. discriminate H.
  - specialize (H (fun _ _ => 0) (fun _ => 1) (fun _ => 0)
                  (Some MOCK_USER_START_LOCATION) [contactAt 0] infinity infinity
                  (projectionSpec (fun _ _ => 0) (fun _ => 1) (fun _ => 0)
                     MOCK_USER_START_LOCATION (radarCenter infinity infinity)
                     (radarMaxRadiusPx infinity infinity) (contactAt 0))
                  eq_refl eq_refl (or_introl eq_refl)).
    vm_compute in H. discriminate H.
Qed.

(** * The distance utility *)

Module DistanceFacts.

Import DistanceSpec.

#[local] Open Scope R_scope.

Lemma half_angle_opp (a b : R) :
  deg2rad (a - b) / 2 = - (deg2rad (b - a) / 2).
Proof. unfold deg2rad. field. Qed.

Lemma haversine_sym (earthRadiusKm : R) (A B : GeoPoint) :
  haversine earthRadiusKm A B = haversine earthRadiusKm B A.
Proof.
  unfold haversine.
  rewrite (half_angle_opp (lat B) (lat A)), (half_angle_opp (lon B) (lon A)).
  rewrite !sin_neg, <- !Rsqr_neg.
  rewrite (Rmult_comm (cos (deg2rad (lat A))) (cos (deg2rad (lat B)))).
  reflexivity.
Qed.

Lemma haversine_same (earthRadiusKm : R) (A : GeoPoint) :
  haversine earthRadiusKm A A = 0.
Proof.
  unfold haversine, deg2rad.
  replace ((lat A - lat A) * PI / 180 / 2) with 0 by field.
  replace ((lon A - lon A) * PI / 180 / 2) with 0 by field.
  rewrite sin_0, Rsqr_0, Rmult_0_r, Rplus_0_r, sqrt_0, asin_0. ring.
Qed.

Lemma toDecimals_0 (decimals : nat) (mode : DisplayRounding) :
  toDecimals decimals mode 0 = 0.
Proof.
  unfold toDecimals. rewrite Rmult_0_l.
  assert (Int_part (0 + / 2) = 0%Z) as E1.
  { symmetry. apply Int_part_spec. cbn. lra. }
  assert (Int_part 0 = 0%Z) as E2.
  { symmetry. apply Int_part_spec. cbn. lra. }
  destruct mode; rewrite ?E1, ?E2; unfold Rdiv; apply Rmult_0_l.
Qed.

(** C8. The distance utility is symmetric, and the distance from a
    coordinate to itself is zero. *)
Theorem distance_symmetric_zero (earthRadiusKm : R) (decimals : nat)
    (mode : DisplayRounding) (A B : GeoPoint) :
  distance earthRadiusKm decimals mode A B
    = distance earthRadiusKm decimals mode B A /\
  distance earthRadiusKm decimals mode A A = 0.
Proof.
  unfold distance. split.
  - rewrite (haversine_sym earthRadiusKm A B). reflexivity.
  - rewrite haversine_same. apply toDecimals_0.
Qed.

End DistanceFacts.

(** * The tracking state machine and the nearby set *)

Section TrackingStates.

Variable calculateDistanceKm : Coordinates -> Coordinates -> float.
Variable encodeURIComponent : jsstring -> option jsstring.


Lemma rerunEffect_inSync s :
  simulationRef s = None ->
  match cleanup s with
  | Some t => exists u, timers s = [(t, u)]
  | None => timers s = []
  end ->
  effectInSync (rerunEffect s) /\
  nextTimer s <= nextTimer (rerunEffect s) /\
  (isTracking s = true -> forall u, userLocation s = Some u ->
     timers (rerunEffect s) = [(nextTimer s, u)])%nat.
Proof.
  destruct s as [tr ul hs ac nc ia nn np sr ts cl nt pp]. cbn. intros -> Ht.
  unfold rerunEffect, cleanupEffect, simulationEffect, effectInSync. cbn.
  destruct cl as [t|].
  - destruct Ht as [u ->]. cbn. rewrite Nat.eqb_refl. cbn.
    destruct tr, ul as [u'|]; cbn; repeat split; eauto; try discriminate.
    intros _ ? [= <-]. reflexivity.
  - subst ts. destruct tr, ul as [u'|]; cbn; repeat split; eauto; try discriminate.
    intros _ ? [= <-]. reflexivity.
Qed.

Lemma effectInSync_timers s :
  effectInSync s ->
  simulationRef s = None /\
  match cleanup s with
  | Some t => exists u, timers s = [(t, u)]
  | None => timers s = []
  end.
Proof.
  intros [Hr H]. split; [exact Hr|].
  destruct (isTracking s), (userLocation s) as [u|];
    try (destruct H as [-> ->]; reflexivity).
  destruct H as (t & -> & -> & _). eauto.
Qed.

Lemma effectInSync_frame s s' :
  isTracking s' = isTracking s -> userLocation s' = userLocation s ->
  simulationRef s' = simulationRef s -> timers s' = timers s ->
  cleanup s' = cleanup s -> nextTimer s' = nextTimer s ->
  effectInSync s -> effectInSync s'.
Proof.
  unfold effectInSync. intros -> -> -> -> -> ->. exact (fun H => H).
Qed.

Lemma intervalCallback_frame u d s :
  let s' := intervalCallback calculateDistanceKm u d s in
  isTracking s' = isTracking s /\ userLocation s' = userLocation s /\
  simulationRef s' = simulationRef s /\ timers s' = timers s /\
  cleanup s' = cleanup s /\ nextTimer s' = nextTimer s /\
  pendingPositions s' = pendingPositions s /\
  isAddingContact s' = isAddingContact s /\
  newContactName s' = newContactName s /\ newContactPhone s' = newContactPhone s.
Proof.
  cbv zeta. unfold intervalCallback.
  destruct (fst (tick _ _ _ _ _)) as [moved nearby]. cbn. repeat split.
Qed.

Lemma clickSave_frame now today d s :
  let s' := step calculateDistanceKm encodeURIComponent s (ClickSave now today d) in
  isTracking s' = isTracking s /\ userLocation s' = userLocation s /\
  simulationRef s' = simulationRef s /\ timers s' = timers s /\
  cleanup s' = cleanup s /\ nextTimer s' = nextTimer s /\
  pendingPositions s' = pendingPositions s /\
  nearbyContacts s' = nearbyContacts s.
Proof.
  cbv zeta. cbn [step]. destruct (_ && _); [|repeat split].
  unfold handleAddContact.
  destruct (falsy _ || falsy _); cbn; [repeat split|].
  destruct (encodeURIComponent _); cbn; repeat split.
Qed.

Lemma toggleTracking_runtime g s :
  simulationRef s = None ->
  let s' := toggleTracking g s in
  simulationRef s' = None /\ timers s' = timers s /\ cleanup s' = cleanup s /\
  nextTimer s' = nextTimer s /\ isTracking s' = negb (isTracking s).
Proof.
  intros Hr. cbv zeta. unfold toggleTracking.
  destruct (isTracking s); cbn; rewrite ?Hr; cbn; [repeat split; auto|].
  destruct g; cbn; repeat split; auto.
Qed.

Lemma effectInSync_step s e :
  effectInSync s ->
  effectInSync (step calculateDistanceKm encodeURIComponent s e).
Proof.
  intros H. pose proof (effectInSync_timers s H) as [Hr Ht].
  destruct e as [g|la lo| |t d| |v|v|now today d]; cbn [step].
  - destruct (toggleTracking_runtime g s Hr) as (A & B & C & _).
    apply rerunEffect_inSync; [exact A|]. rewrite B, C. exact Ht.
  - unfold positionCallback. destruct (pendingPositions s); [exact H|].
    apply rerunEffect_inSync; cbn; assumption.
  - unfold errorCallback. destruct (pendingPositions s); [exact H|].
    cbv zeta. cbn [holdsStartLocation setRuntime].
    destruct (holdsStartLocation s); [exact H|].
    apply rerunEffect_inSync; cbn; assumption.
  - destruct (activeInterval t (timers s)) as [u|]; [|exact H].
    destruct (intervalCallback_frame u d s) as (A & B & C & D & E & F & _).
    revert H. apply effectInSync_frame; assumption.
  - exact H.
  - destruct (isAddingContact s); exact H.
  - destruct (isAddingContact s); exact H.
  - destruct (clickSave_frame now today d s) as (A & B & C & D & E & F & _).
    revert H. apply effectInSync_frame; assumption.
Qed.

Lemma reachable_inSync s :
  reachable calculateDistanceKm encodeURIComponent s -> effectInSync s.
Proof.
  induction 1 as [t0|s e _ IH].
  - split; [reflexivity|]. cbn. auto.
  - apply effectInSync_step, IH.
Qed.

Lemma rerunEffect_location s :
  userLocation (rerunEffect s) = userLocation s /\
  holdsStartLocation (rerunEffect s) = holdsStartLocation s.
Proof.
  destruct s as [tr ul hs ac nc ia nn np sr ts cl nt pp].
  unfold rerunEffect, simulationEffect, cleanupEffect.
  destruct cl, tr, ul; split; reflexivity.
Qed.

(** The object of the state is the constant only where the state is the
    start coordinate. *)
Lemma startLocation_step s e :
  (holdsStartLocation s = true ->
   userLocation s = Some MOCK_USER_START_LOCATION) ->
  let s' := step calculateDistanceKm encodeURIComponent s e in
  holdsStartLocation s' = true -> userLocation s' = Some MOCK_USER_START_LOCATION.
Proof.
  intros H. cbv zeta.
  destruct e as [g|la lo| |t d| |v|v|now today d]; cbn [step].
  - destruct (rerunEffect_location (toggleTracking g s)) as [-> ->].
    unfold toggleTracking. destruct (isTracking s); cbn.
    + destruct (simulationRef s); cbn; discriminate.
    + destruct g; cbn; [exact H|reflexivity].
  - unfold positionCallback. destruct (pendingPositions s); [exact H|].
    destruct (rerunEffect_location
                (setUserLocation (Some {| latitude := la; longitude := lo |})
                   (setRuntime (timers s) (cleanup s) (nextTimer s) n s)))
      as [-> ->].
    cbn. discriminate.
  - unfold errorCallback. destruct (pendingPositions s); [exact H|].
    cbv zeta. cbn [holdsStartLocation setRuntime].
    destruct (holdsStartLocation s); [cbn; intros _; apply H; reflexivity|].
    destruct (rerunEffect_location
                (setUserLocationToStart
                   (setRuntime (timers s) (cleanup s) (nextTimer s) n s)))
      as [-> ->].
    reflexivity.
  - destruct (activeInterval t (timers s)) as [u|]; [|exact H].
    unfold intervalCallback. destruct (fst (tick _ _ _ _ _)). exact H.
  - exact H.
  - destruct (isAddingContact s); exact H.
  - destruct (isAddingContact s); exact H.
  - destruct (_ && _); [|exact H].
    unfold handleAddContact.
    destruct (falsy _ || falsy _); cbn; [exact H|].
    destruct (encodeURIComponent _); cbn; exact H.
Qed.

Lemma reachable_startLocation s :
  reachable calculateDistanceKm encodeURIComponent s ->
  holdsStartLocation s = true -> userLocation s = Some MOCK_USER_START_LOCATION.
Proof.
  induction 1 as [t0|s e _ IH]; [discriminate|].
  apply startLocation_step, IH.
Qed.

(** X1. In every reachable state at most one interval is active; one is
    active exactly when tracking is on and a user position is known; its
    callback works with the current user position, and it is the interval
    the cleanup of the effect will clear. *)
Theorem one_interval_iff_tracking (s : AppState) :
  reachable calculateDistanceKm encodeURIComponent s ->
  (List.length (timers s) <= 1)%nat /\
  (timers s <> [] <-> isTracking s = true /\ userLocation s <> None) /\
  (forall t u, In (t, u) (timers s) ->
     userLocation s = Some u /\ cleanup s = Some t /\ (t < nextTimer s)%nat).
Proof.
  intros H. destruct (reachable_inSync s H) as [_ Hs].
  destruct (isTracking s), (userLocation s) as [u|].
  1: { destruct Hs as (t & -> & -> & Hlt). cbn. split; [lia|]. split.
       - split; [intros _; split; [reflexivity|discriminate]|discriminate].
       - intros t' u' [[= <- <-]|[]]. auto. }
  all: destruct Hs as [-> ->]; cbn; split; try lia; split; try (intros ? ? []);
    split; try congruence; intros [? ?]; congruence.
Qed.

Lemma nearbyContacts_rerunEffect s :
  nearbyContacts (rerunEffect s) = nearbyContacts s.
Proof.
  unfold rerunEffect, simulationEffect, cleanupEffect.
  destruct (cleanup s); cbn; destruct (isTracking s), (userLocation s); reflexivity.
Qed.

Lemma nearbyContacts_toggleTracking g s :
  nearbyContacts (toggleTracking g s) = nearbyContacts s.
Proof.
  unfold toggleTracking. destruct (isTracking s); cbn.
  - destruct (simulationRef s); reflexivity.
  - destruct g; reflexivity.
Qed.

Lemma nearbyContacts_positionCallback u s :
  nearbyContacts (positionCallback u s) = nearbyContacts s.
Proof.
  unfold positionCallback. destruct (pendingPositions s); [reflexivity|].
  rewrite nearbyContacts_rerunEffect. reflexivity.
Qed.

Lemma nearbyContacts_errorCallback s :
  nearbyContacts (errorCallback s) = nearbyContacts s.
Proof.
  unfold errorCallback. destruct (pendingPositions s); [reflexivity|].
  cbv zeta. cbn [holdsStartLocation setRuntime].
  destruct (holdsStartLocation s); [reflexivity|].
  rewrite nearbyContacts_rerunEffect. reflexivity.
Qed.

Lemma nearbyContacts_step s e :
  isIntervalFires e = false ->
  nearbyContacts (step calculateDistanceKm encodeURIComponent s e) = nearbyContacts s.
Proof.
  intros He.
  destruct e as [g|la lo| |t d| |v|v|now today d]; try discriminate; cbn [step].
  - rewrite nearbyContacts_rerunEffect. apply nearbyContacts_toggleTracking.
  - apply nearbyContacts_positionCallback.
  - apply nearbyContacts_errorCallback.
  - reflexivity.
  - destruct (isAddingContact s); reflexivity.
  - destruct (isAddingContact s); reflexivity.
  - apply clickSave_frame.
Qed.

(** X2. Switching tracking on where the browser has no geolocation sets the
    user position to the fixed start coordinate at once and starts the
    interval with it.  Where the browser has geolocation, the click only
    switches tracking on and starts a position request; when that request
    fails, the user position becomes the same fixed start coordinate and the
    interval runs with it. *)
Theorem start_tracking_falls_back (s : AppState) :
  reachable calculateDistanceKm encodeURIComponent s ->
  isTracking s = false ->
  (let s1 := step calculateDistanceKm encodeURIComponent s (ClickPower false) in
   isTracking s1 = true /\
   userLocation s1 = Some MOCK_USER_START_LOCATION /\
   timers s1 = [(nextTimer s, MOCK_USER_START_LOCATION)]) /\
  (let s2 := step calculateDistanceKm encodeURIComponent s (ClickPower true) in
   isTracking s2 = true /\ userLocation s2 = userLocation s /\
   pendingPositions s2 = S (pendingPositions s) /\
   let s3 := step calculateDistanceKm encodeURIComponent s2 PositionError in
   isTracking s3 = true /\
   userLocation s3 = Some MOCK_USER_START_LOCATION /\
   pendingPositions s3 = pendingPositions s /\
   exists t, timers s3 = [(t, MOCK_USER_START_LOCATION)]).
Proof.
  intros Hreach Hoff. destruct (reachable_inSync s Hreach) as [Hr Hs].
  pose proof (reachable_startLocation s Hreach) as Hst.
  rewrite Hoff in Hs. destruct Hs as [Ht Hc].
  destruct s as [tr ul hs ac nc ia nn np sr ts cl nt pp].
  cbn in Hoff, Hr, Ht, Hc, Hst.
  subst tr sr ts cl. split.
  - cbn. auto.
  - destruct hs.
    + rewrite (Hst eq_refl). cbn. eauto 10.
    + destruct ul as [u|]; cbn; rewrite ?Nat.eqb_refl; cbn; eauto 10.
Qed.

(** X3. Where the browser has geolocation and no position is known yet,
    switching tracking on starts no interval: until the position request
    answers, no tick runs.  When it answers with a position, that position
    becomes the user position and the interval starts with it. *)
Theorem start_tracking_waits_for_position (s : AppState) :
  reachable calculateDistanceKm encodeURIComponent s ->
  isTracking s = false -> userLocation s = None ->
  let s2 := step calculateDistanceKm encodeURIComponent s (ClickPower true) in
  timers s2 = [] /\
  (forall t d, step calculateDistanceKm encodeURIComponent s2 (IntervalFires t d) = s2) /\
  forall lat lon,
    let s3 := step calculateDistanceKm encodeURIComponent s2 (PositionSuccess lat lon) in
    isTracking s3 = true /\
    userLocation s3 = Some {| latitude := lat; longitude := lon |} /\
    timers s3 = [(nextTimer s, {| latitude := lat; longitude := lon |})].
Proof.
  intros Hreach Hoff Hul. destruct (reachable_inSync s Hreach) as [Hr Hs].
  rewrite Hoff in Hs. destruct Hs as [Ht Hc].
  destruct s as [tr ul hs ac nc ia nn np sr ts cl nt pp]. cbn in Hoff, Hul, Hr, Ht, Hc.
  subst tr ul sr ts cl. cbn. auto.
Qed.

(** X4. Switching tracking off does not cancel a position request that is
    still pending.  When its answer arrives afterwards, the position is
    stored as the user position although tracking is off; no interval
    starts then, but the next click on the power button starts the interval
    at once with that stored position. *)
Theorem late_position_is_kept (s : AppState) (g : bool) (lat lon : float) :
  reachable calculateDistanceKm encodeURIComponent s ->
  isTracking s = true -> (0 < pendingPositions s)%nat ->
  let s1 := step calculateDistanceKm encodeURIComponent s (ClickPower g) in
  let s2 := step calculateDistanceKm encodeURIComponent s1 (PositionSuccess lat lon) in
  let s3 := step calculateDistanceKm encodeURIComponent s2 (ClickPower true) in
  isTracking s1 = false /\ userLocation s1 = None /\
  pendingPositions s1 = pendingPositions s /\
  isTracking s2 = false /\
  userLocation s2 = Some {| latitude := lat; longitude := lon |} /\
  timers s2 = [] /\
  isTracking s3 = true /\
  timers s3 = [(nextTimer s2, {| latitude := lat; longitude := lon |})].
Proof.
  intros Hreach Hon Hp. destruct (reachable_inSync s Hreach) as [Hr Hs].
  pose proof (effectInSync_timers s (conj Hr Hs)) as [_ Ht].
  destruct s as [tr ul hs ac nc ia nn np sr ts cl nt pp]. cbn in Hon, Hp, Hr, Ht.
  subst tr sr. destruct pp as [|pp]; [lia|].
  destruct cl as [t|].
  - destruct Ht as [u ->]. cbn. rewrite Nat.eqb_refl. cbn. auto 10.
  - subst ts. cbn. auto 10.
Qed.

Lemma idle_run_nearby es : forall s,
  forallb (fun e => negb (isClickPower e)) es = true ->
  isTracking s = false /\ timers s = [] /\ cleanup s = None ->
  nearbyContacts (run calculateDistanceKm encodeURIComponent s es) = nearbyContacts s.
Proof.
  induction es as [|e es IH]; intros s Hes Hs; cbn [run fold_left]; [reflexivity|].
  cbn [forallb] in Hes. apply andb_true_iff in Hes as [He Hes].
  apply negb_true_iff in He.
  fold (run calculateDistanceKm encodeURIComponent
          (step calculateDistanceKm encodeURIComponent s e) es).
  rewrite IH; [|exact Hes|apply idle_step; assumption].
  destruct (isIntervalFires e) eqn:Ei; [|apply nearbyContacts_step, Ei].
  destruct e; try discriminate.
  rewrite interval_without_timer; [reflexivity|apply Hs].
Qed.

(** X5. Switching tracking off does not empty the nearby set, and the set
    stays as it was for as long as tracking is off: whatever happens before
    the power button is clicked again (ticks that were due, answers to
    position requests, edits and saves in the form), the nearby set is the
    one of the moment tracking was stopped. *)
Theorem stop_tracking_keeps_nearby (s : AppState) (g : bool) (es : list Event) :
  reachable calculateDistanceKm encodeURIComponent s ->
  isTracking s = true ->
  forallb (fun e => negb (isClickPower e)) es = true ->
  nearbyContacts
    (run calculateDistanceKm encodeURIComponent
       (step calculateDistanceKm encodeURIComponent s (ClickPower g)) es)
  = nearbyContacts s.
Proof.
  intros Hreach Hon Hes.
  rewrite idle_run_nearby; [apply nearbyContacts_step; reflexivity|exact Hes|].
  destruct (reachable_inSync _ (reachable_step _ _ s (ClickPower g) Hreach)) as [_ H].
  assert (isTracking (step calculateDistanceKm encodeURIComponent s (ClickPower g))
          = false) as Hoff.
  { cbn [step]. destruct (reachable_inSync s Hreach) as [Hr _].
    destruct s as [tr ul hs ac nc ia nn np sr ts cl nt pp]. cbn in Hon, Hr. subst tr sr.
    unfold toggleTracking, rerunEffect, cleanupEffect, simulationEffect. cbn.
    destruct cl; reflexivity. }
  rewrite Hoff in H. destruct H as [Ht Hc]. auto.
Qed.

Lemma intervalCallback_contacts u d s :
  allContacts (intervalCallback calculateDistanceKm u d s)
    = fst (moveContacts (allContacts s) d 0%nat) /\
  nearbyContacts (intervalCallback calculateDistanceKm u d s)
    = map (withDistance (calculateDistanceKm u))
        (filter (fun c => isRegistered c
                          && (calculateDistanceKm u (location c) <=? RADAR_RADIUS_KM))
                (fst (moveContacts (allContacts s) d 0%nat))).
Proof.
  unfold intervalCallback, tick, bind, ret.
  destruct (moveContacts (allContacts s) d 0%nat) as [moved k]. cbn.
  split; [reflexivity|]. apply (checkDistance_fold calculateDistanceKm u moved []).
Qed.

Lemma nearby_in_range_step s e :
  Forall (fun n => isRegistered (base n) = true
                   /\ (distanceKm n <=? RADAR_RADIUS_KM) = true
                   /\ In (id (base n)) (map id (allContacts s)))
         (nearbyContacts s) ->
  let s' := step calculateDistanceKm encodeURIComponent s e in
  Forall (fun n => isRegistered (base n) = true
                   /\ (distanceKm n <=? RADAR_RADIUS_KM) = true
                   /\ In (id (base n)) (map id (allContacts s')))
         (nearbyContacts s').
Proof.
  intros H. cbv zeta.
  destruct (isIntervalFires e) eqn:Ei.
  - destruct e as [g|la lo| |t d| |v|v|now today d]; try discriminate. cbn [step].
    destruct (activeInterval t (timers s)) as [u|]; [|exact H].
    destruct (intervalCallback_contacts u d s) as [-> ->].
    apply Forall_forall. intros n Hn.
    apply in_map_iff in Hn as (c & <- & Hc). apply filter_In in Hc as [Hc Hb].
    apply andb_true_iff in Hb as [Hb1 Hb2]. cbn [withDistance base distanceKm].
    repeat split; auto. apply in_map, Hc.
  - rewrite (nearbyContacts_step s e Ei).
    eapply Forall_impl; [|exact H]. cbn beta. intros n (A & B & C).
    repeat split; auto.
    destruct (step_ids calculateDistanceKm encodeURIComponent s e)
      as [-> | (now & today & d & _ & ->)]; [exact C|].
    apply in_or_app. left. exact C.
Qed.

Lemma reachable_nearby_in_range s :
  reachable calculateDistanceKm encodeURIComponent s ->
  Forall (fun n => isRegistered (base n) = true
                   /\ (distanceKm n <=? RADAR_RADIUS_KM) = true
                   /\ In (id (base n)) (map id (allContacts s)))
         (nearbyContacts s).
Proof.
  induction 1 as [t0|s e _ IH]; [constructor|].
  apply nearby_in_range_step, IH.
Qed.

(** X6. In every reachable state, each member of the nearby set is a
    participant whose recorded distance is at most 5 km, and its id is the
    id of a contact of the collection. *)
Theorem nearby_are_participants_in_range (s : AppState) (n : NearbyContact) :
  reachable calculateDistanceKm encodeURIComponent s ->
  In n (nearbyContacts s) ->
  isRegistered (base n) = true /\
  (distanceKm n <=? RADAR_RADIUS_KM) = true /\
  In (id (base n)) (map id (allContacts s)).
Proof.
  intros Hreach Hn.
  pose proof (reachable_nearby_in_range s Hreach) as H.
  rewrite Forall_forall in H. exact (H n Hn).
Qed.

Section RadarOfTheApp.

Variable Math_atan2 : float -> float -> float.
Variable Math_cos : float -> float.
Variable Math_sin : float -> float.

Lemma filter_all {A} (f : A -> bool) (l : list A) :
  Forall (fun a => f a = true) l -> filter f l = l.
Proof.
  induction 1 as [|a l Ha _ IH]; cbn; [reflexivity|]. rewrite Ha, IH. reflexivity.
Qed.

(** X7. In every reachable state the radar plots every member of the
    nearby set, in the order of the set: the check of the distance in the
    radar never leaves out a contact the tick has put into the set, so the
    number of dots is the number of contacts the header announces. *)
Theorem Radar_plots_whole_nearby_set (s : AppState) (u : Coordinates)
    (width height : float) :
  reachable calculateDistanceKm encodeURIComponent s ->
  userLocation s = Some u ->
  let plotted :=
    Radar Math_atan2 Math_cos Math_sin (userLocation s) (nearbyContacts s)
          width height in
  map dot_contact plotted = nearbyContacts s /\
  plotted =
    map (projectionSpec Math_atan2 Math_cos Math_sin u (radarCenter width height)
                        (radarMaxRadiusPx width height))
        (nearbyContacts s).
Proof.
  intros Hreach ->. cbv zeta. rewrite Radar_plots.
  rewrite filter_all.
  - split; [|reflexivity]. rewrite map_map. cbn [projectionSpec dot_contact].
    apply map_id.
  - eapply Forall_impl; [|exact (reachable_nearby_in_range s Hreach)].
    cbn beta. intros n (_ & Hd & _). apply leb_not_gtb in Hd. rewrite Hd. reflexivity.
Qed.

End RadarOfTheApp.

End TrackingStates.

(** * The contacts of the collection *)

Section FiniteNumbers.

Lemma finite_of_difference (x a h : float) :
  (abs (x - a) <=? h) = true -> (abs a <? infinity) = true ->
  (h <? infinity) = true -> (abs x <? infinity) = true.
Proof.
  rewrite !ltb_spec, !abs_spec, leb_spec, abs_spec, sub_spec.
  change (Prim2SF infinity) with (S754_infinity false).
  destruct (Prim2SF x) as [s|s| |s m e]; [reflexivity| | |reflexivity];
    destruct (Prim2SF a) as [sa|sa| |sa ma ea], (Prim2SF h) as [sh|sh| |sh mh eh];
    try destruct s; try destruct sa; try destruct sh; cbn; congruence.
Qed.

Lemma sub_self (a : float) :
  (abs a <? infinity) = true -> (abs (a - a) <=? 0.0005) = true.
Proof.
  rewrite ltb_spec, leb_spec, !abs_spec, sub_spec.
  change (Prim2SF infinity) with (S754_infinity false).
  destruct (Prim2SF a) as [sa|sa| |sa ma ea]; try discriminate; intros _.
  - destruct sa; reflexivity.
  - unfold SF64sub. rewrite SFsub_finite, Z.min_id, Z.sub_diag. reflexivity.
Qed.

Lemma walk_finite (a r : float) :
  unitInterval r -> (abs a <? infinity) = true ->
  (abs (a + (r - 0.5) * 0.0005) <? infinity) = true.
Proof.
  intros Hr Ha.
  apply (finite_of_difference _ a 0.0005); [|exact Ha|reflexivity].
  apply walk_change_bound; assumption.
Qed.

Lemma placement_finite (a r : float) :
  unitInterval r -> (abs a <? infinity) = true ->
  (abs (a + (r - 0.5) * 0.04) <? infinity) = true.
Proof.
  intros Hr Ha.
  apply (finite_of_difference _ a 0.04); [|exact Ha|reflexivity].
  eapply (add_sub_bound a _ 0.02 0.04);
    [vm_compute; reflexivity|vm_compute; reflexivity|lia|exact Ha|].
  apply add_offset_bound, Hr.
Qed.

End FiniteNumbers.

Section Contacts.

Variable calculateDistanceKm : Coordinates -> Coordinates -> float.
Variable encodeURIComponent : jsstring -> option jsstring.

Lemma sameIdentity_refl c : sameIdentity c c.
Proof. unfold sameIdentity. repeat split. Qed.

Lemma sameIdentity_trans c1 c2 c3 :
  sameIdentity c1 c2 -> sameIdentity c2 c3 -> sameIdentity c1 c3.
Proof. unfold sameIdentity. intuition congruence. Qed.

Lemma Forall2_sameIdentity_refl l : Forall2 sameIdentity l l.
Proof. induction l; constructor; auto using sameIdentity_refl. Qed.

Lemma Forall2_sameIdentity_trans l1 : forall l2 l3,
  Forall2 sameIdentity l1 l2 -> Forall2 sameIdentity l2 l3 ->
  Forall2 sameIdentity l1 l3.
Proof.
  induction l1 as [|c l1 IH]; intros l2 l3 H12 H23; inversion H12; subst;
    inversion H23; subst; constructor; eauto using sameIdentity_trans.
Qed.

Lemma moveContact_sameIdentity c d n : sameIdentity c (fst (moveContact c d n)).
Proof.
  unfold moveContact, sameIdentity.
  destruct (isRegistered c) eqn:E; cbn; rewrite ?E; repeat split.
Qed.

(** What a click on the save button does to the collection. *)
Lemma clickSave_contacts now today d s :
  let s' := step calculateDistanceKm encodeURIComponent s (ClickSave now today d) in
  s' = s \/
  exists encoded,
    encodeURIComponent (newContactName s) = Some encoded /\
    isAddingContact s = true /\
    blank (newContactName s) = false /\ blank (newContactPhone s) = false /\
    allContacts s' =
      allContacts s ++
      [ {| id := toString now;
           name := newContactName s;
           phoneNumber := newContactPhone s;
           avatarUrl := js "https://ui-avatars.com/api/?name=" ++ encoded
                        ++ js "&background=random";
           location :=
             {| latitude := latitude MOCK_USER_START_LOCATION + (d 0%nat - 0.5) * 0.04;
                longitude := longitude MOCK_USER_START_LOCATION + (d 1%nat - 0.5) * 0.04 |};
           isRegistered := true;
           lastSeen := today |} ] /\
    isAddingContact s' = false /\ newContactName s' = [] /\ newContactPhone s' = [].
Proof.
  cbv zeta. cbn [step].
  destruct (isAddingContact s) eqn:Ea; cbn [andb]; [|left; reflexivity].
  destruct (negb _); [|left; reflexivity].
  unfold handleAddContact. rewrite !falsy_trim.
  destruct (blank (newContactName s)) eqn:Bn; cbn [orb]; [left; reflexivity|].
  destruct (blank (newContactPhone s)) eqn:Bp; cbn [orb]; [left; reflexivity|].
  destruct (encodeURIComponent (newContactName s)) as [encoded|]; [|left; reflexivity].
  right. exists encoded. cbn. repeat split.
Qed.

Lemma step_contacts s e :
  exists kept added,
    allContacts (step calculateDistanceKm encodeURIComponent s e) = kept ++ added /\
    Forall2 sameIdentity (allContacts s) kept.
Proof.
  destruct e as [g|la lo| |t d| |v|v|now today d]; cbn [step].
  - exists (allContacts s), []. rewrite app_nil_r, allContacts_rerunEffect,
      allContacts_toggleTracking. split; [reflexivity|apply Forall2_sameIdentity_refl].
  - exists (allContacts s), []. rewrite app_nil_r, allContacts_positionCallback.
    split; [reflexivity|apply Forall2_sameIdentity_refl].
  - exists (allContacts s), []. rewrite app_nil_r, allContacts_errorCallback.
    split; [reflexivity|apply Forall2_sameIdentity_refl].
  - destruct (activeInterval t (timers s)) as [u|].
    + destruct (intervalCallback_contacts calculateDistanceKm u d s) as [-> _].
      exists (fst (moveContacts (allContacts s) d 0%nat)), [].
      rewrite app_nil_r. split; [reflexivity|].
      apply mapM_Forall2. intros c k. apply moveContact_sameIdentity.
    + exists (allContacts s), []. rewrite app_nil_r.
      split; [reflexivity|apply Forall2_sameIdentity_refl].
  - exists (allContacts s), []. rewrite app_nil_r.
    split; [reflexivity|apply Forall2_sameIdentity_refl].
  - exists (allContacts s), []. rewrite app_nil_r.
    destruct (isAddingContact s); split; try reflexivity; apply Forall2_sameIdentity_refl.
  - exists (allContacts s), []. rewrite app_nil_r.
    destruct (isAddingContact s); split; try reflexivity; apply Forall2_sameIdentity_refl.
  - destruct (clickSave_contacts now today d s) as [E|(enc & _ & _ & _ & _ & E & _)].
    + cbn [step] in E. rewrite E. exists (allContacts s), []. rewrite app_nil_r.
      split; [reflexivity|apply Forall2_sameIdentity_refl].
    + cbn [step] in E. rewrite E. eexists _, _.
      split; [reflexivity|apply Forall2_sameIdentity_refl].
Qed.

(** X8. No event removes a contact or reorders the collection.  After any
    run of events, the collection starts with the contacts it had before,
    in their order, each with its id, name, phone number, avatar,
    participation flag and time last seen as they were (only locations
    change); the contacts added since follow them. *)
Theorem contacts_are_never_removed (s : AppState) (es : list Event) :
  exists kept added,
    allContacts (run calculateDistanceKm encodeURIComponent s es) = kept ++ added /\
    Forall2 sameIdentity (allContacts s) kept.
Proof.
  revert s. induction es as [|e es IH]; intros s; cbn [run fold_left].
  - exists (allContacts s), []. rewrite app_nil_r.
    split; [reflexivity|apply Forall2_sameIdentity_refl].
  - destruct (step_contacts s e) as (k1 & a1 & E1 & F1).
    destruct (IH (step calculateDistanceKm encodeURIComponent s e))
      as (k2 & a2 & E2 & F2).
    rewrite E1 in F2. apply Forall2_app_inv_l in F2 as (k21 & k22 & F21 & F22 & ->).
    exists k21, (k22 ++ a2). split.
    + unfold run in E2. rewrite E2, app_assoc. reflexivity.
    + eapply Forall2_sameIdentity_trans; eassumption.
Qed.

Lemma Forall2_Forall_impl {A B} (P : A -> Prop) (Q : B -> Prop) l l' :
  Forall2 (fun a b => P a -> Q b) l l' -> Forall P l -> Forall Q l'.
Proof.
  induction 1 as [|a b l l' Hab _ IH]; intros Hl; [constructor|].
  inversion Hl; subst. constructor; auto.
Qed.

Lemma Forall2_Forall_l {A B} (P : A -> Prop) (R : A -> B -> Prop) l l' :
  Forall2 (fun a b => P a -> R a b) l l' -> Forall P l -> Forall2 R l l'.
Proof.
  induction 1 as [|a b l l' Hab _ IH]; intros Hl; [constructor|].
  inversion Hl; subst. constructor; auto.
Qed.

Lemma moveContacts_finite (d : Draws) :
  (forall k, unitInterval (d k)) ->
  forall l n,
    Forall (fun c => isRegistered c = true /\ finiteCoordinates (location c)) l ->
    Forall (fun c => isRegistered c = true /\ finiteCoordinates (location c))
           (fst (moveContacts l d n)).
Proof.
  intros Hd l n. apply Forall2_Forall_impl. apply mapM_Forall2.
  intros c k [Hr [Hlat Hlon]]. unfold moveContact. rewrite Hr. cbn.
  split; [reflexivity|]. split; cbn; apply walk_finite; auto.
Qed.

Lemma step_contacts_finite s e :
  unitDraws e ->
  Forall (fun c => isRegistered c = true /\ finiteCoordinates (location c))
         (allContacts s) ->
  Forall (fun c => isRegistered c = true /\ finiteCoordinates (location c))
         (allContacts (step calculateDistanceKm encodeURIComponent s e)).
Proof.
  intros He H.
  destruct e as [g|la lo| |t d| |v|v|now today d]; cbn [step].
  - rewrite allContacts_rerunEffect, allContacts_toggleTracking. exact H.
  - rewrite allContacts_positionCallback. exact H.
  - rewrite allContacts_errorCallback. exact H.
  - destruct (activeInterval t (timers s)) as [u|]; [|exact H].
    destruct (intervalCallback_contacts calculateDistanceKm u d s) as [-> _].
    apply moveContacts_finite; assumption.
  - exact H.
  - destruct (isAddingContact s); exact H.
  - destruct (isAddingContact s); exact H.
  - destruct (clickSave_contacts now today d s) as [E|(enc & _ & _ & _ & _ & E & _)];
      cbn [step] in E; rewrite E; [exact H|].
    apply Forall_app. split; [exact H|]. constructor; [|constructor].
    split; [reflexivity|]. cbn in He.
    split; cbn; apply placement_finite; auto; reflexivity.
Qed.

Lemma run_contacts_finite es : forall s,
  Forall unitDraws es ->
  Forall (fun c => isRegistered c = true /\ finiteCoordinates (location c))
         (allContacts s) ->
  Forall (fun c => isRegistered c = true /\ finiteCoordinates (location c))
         (allContacts (run calculateDistanceKm encodeURIComponent s es)).
Proof.
  induction es as [|e es IH]; intros s Hes Hs; cbn [run fold_left]; [exact Hs|].
  inversion Hes; subst. apply IH; [assumption|].
  apply step_contacts_finite; assumption.
Qed.

Lemma initial_contacts_finite t0 :
  Forall (fun c => isRegistered c = true /\ finiteCoordinates (location c))
         (allContacts (initialState t0)).
Proof. repeat constructor. Qed.

(** X9. When every draw of [Math.random()] lies in [[0, 1)], every contact
    of every state the component reaches is a participant, and its latitude
    and longitude are finite numbers: the random walk and the placement of
    new contacts never produce [NaN] or an infinity. *)
Theorem contacts_stay_finite_participants (t0 : Date) (es : list Event) :
  Forall unitDraws es ->
  Forall (fun c => isRegistered c = true /\ finiteCoordinates (location c))
         (allContacts
            (run calculateDistanceKm encodeURIComponent (initialState t0) es)).
Proof.
  intros Hes. apply run_contacts_finite; [exact Hes|apply initial_contacts_finite].
Qed.

(** X10. When every draw of [Math.random()] lies in [[0, 1)], a tick of the
    interval moves no contact by more than 0.0005 degrees of latitude or of
    longitude, in whichever state the component has reached: the new
    collection lists the same contacts, and each coordinate differs from
    its old value by at most 0.0005. *)
Theorem tick_displacement_bounded (t0 : Date) (es : list Event)
    (t : TimerId) (d : Draws) :
  Forall unitDraws es -> (forall k, unitInterval (d k)) ->
  let s := run calculateDistanceKm encodeURIComponent (initialState t0) es in
  Forall2
    (fun c c' =>
       id c' = id c /\
       (abs (latitude (location c') - latitude (location c)) <=? 0.0005) = true /\
       (abs (longitude (location c') - longitude (location c)) <=? 0.0005) = true)
    (allContacts s)
    (allContacts (step calculateDistanceKm encodeURIComponent s (IntervalFires t d))).
Proof.
  intros Hes Hd. cbv zeta.
  pose proof (run_contacts_finite es _ Hes (initial_contacts_finite t0)) as H.
  set (s := run calculateDistanceKm encodeURIComponent (initialState t0) es) in *.
  cbn [step]. destruct (activeInterval t (timers s)) as [u|].
  - destruct (intervalCallback_contacts calculateDistanceKm u d s) as [-> _].
    revert H. apply Forall2_Forall_l. apply mapM_Forall2.
    intros c k [Hr [Hlat Hlon]]. unfold moveContact. rewrite Hr. cbn.
    split; [reflexivity|]. split; apply walk_change_bound; auto.
  - revert H. apply Forall2_Forall_l.
    generalize (allContacts s). intros l. induction l as [|c l IH]; constructor; auto.
    intros [_ [Hlat Hlon]]. split; [reflexivity|]. split; apply sub_self; assumption.
Qed.

End Contacts.

(** * The draws of the walk, the form and the views *)

Section WalkDraws.

Variable calculateDistanceKm : Coordinates -> Coordinates -> float.

Lemma moveContacts_cons c l d n :
  moveContacts (c :: l) d n =
  (fst (moveContact c d n) :: fst (moveContacts l d (snd (moveContact c d n))),
   snd (moveContacts l d (snd (moveContact c d n)))).
Proof.
  unfold moveContacts. cbn [mapM]. unfold bind, ret.
  destruct (moveContact c d n) as [c' n1]. cbn [fst snd].
  destruct (mapM moveContact l d n1) as [l' n2]. reflexivity.
Qed.

Lemma moveContact_draws c d n :
  snd (moveContact c d n) = (n + if isRegistered c then 2 else 0)%nat.
Proof.
  unfold moveContact. destruct (isRegistered c); cbn; lia.
Qed.

Lemma moveContacts_snd l d : forall n,
  snd (moveContacts l d n) = (n + 2 * List.length (filter isRegistered l))%nat.
Proof.
  induction l as [|c l IH]; intros n.
  - cbn. lia.
  - rewrite moveContacts_cons. cbn [snd]. rewrite IH, moveContact_draws.
    cbn [filter]. destruct (isRegistered c); cbn [List.length]; lia.
Qed.

(** X11. [moveContacts] calls [Math.random()] exactly twice for each
    participant, in the order of the collection, and not at all for the
    others.  So the contact that follows the contacts [before] is moved
    with the two draws after the first 2 k ones, where k is the number of
    participants in [before]: no two contacts share a draw. *)
Theorem moveContacts_draws (before after : list Contact) (c : Contact)
    (d : Draws) (n : nat) :
  let k := (n + 2 * List.length (filter isRegistered before))%nat in
  snd (moveContacts before d n) = k /\
  fst (moveContacts (before ++ c :: after) d n) =
    fst (moveContacts before d n)
    ++ fst (moveContact c d k)
    :: fst (moveContacts after d (k + if isRegistered c then 2 else 0)%nat).
Proof.
  cbv zeta. split; [apply moveContacts_snd|].
  revert n. induction before as [|b before IH]; intros n.
  - cbn [app filter List.length]. rewrite moveContacts_cons. cbn [fst].
    rewrite moveContact_draws. replace (n + 2 * 0)%nat with n by lia. reflexivity.
  - cbn [app]. rewrite !moveContacts_cons. cbn [fst]. rewrite IH.
    rewrite moveContact_draws. cbn [filter app].
    destruct (isRegistered b); cbn [List.length];
      repeat (f_equal; try lia).
Qed.

(** X12. On a collection without participants, the empty collection
    included, a tick changes nothing: it returns the collection as it is
    together with an empty nearby set, and does not call [Math.random()]. *)
Theorem tick_without_participants (u : Coordinates) (prev : list Contact)
    (d : Draws) (n : nat) :
  forallb (fun c => negb (isRegistered c)) prev = true ->
  tick calculateDistanceKm u prev d n = ((prev, []), n).
Proof.
  intros H. unfold tick, bind, ret.
  assert (moveContacts prev d n = (prev, n)) as ->.
  { revert n. induction prev as [|c prev IH]; intros n; [reflexivity|].
    cbn [forallb] in H. apply andb_true_iff in H as [Hc H].
    rewrite moveContacts_cons. unfold moveContact. rewrite Hc. cbn [ret fst snd].
    rewrite (IH H). reflexivity. }
  f_equal. f_equal. unfold checkDistances. rewrite checkDistance_fold.
  cbn [app]. induction prev as [|c prev IH]; [reflexivity|].
  cbn [forallb] in H. apply andb_true_iff in H as [Hc H].
  apply negb_true_iff in Hc. cbn [filter]. rewrite Hc. cbn [andb]. auto.
Qed.

End WalkDraws.

Section SaveButton.

Variable calculateDistanceKm : Coordinates -> Coordinates -> float.
Variable encodeURIComponent : jsstring -> option jsstring.

Lemma blank_nil_of_falsy (v : jsstring) : falsy v = true -> blank v = true.
Proof. destruct v; [reflexivity|discriminate]. Qed.

Lemma clickSave_cases now today d s :
  let s' := step calculateDistanceKm encodeURIComponent s (ClickSave now today d) in
  if saveAccepted encodeURIComponent s
  then exists newContact,
         allContacts s' = allContacts s ++ [newContact] /\
         id newContact = toString now /\
         isAddingContact s' = false /\
         newContactName s' = [] /\ newContactPhone s' = []
  else s' = s.
Proof.
  cbv zeta. unfold saveAccepted. cbn [step].
  destruct (isAddingContact s) eqn:Ea; cbn [andb]; [|reflexivity].
  unfold handleAddContact. rewrite !falsy_trim.
  destruct (blank (newContactName s)) eqn:Bn; cbn [negb andb orb].
  { destruct (negb _); reflexivity. }
  destruct (blank (newContactPhone s)) eqn:Bp; cbn [negb andb orb].
  { destruct (negb _); reflexivity. }
  assert (falsy (newContactName s) = false) as ->.
  { destruct (falsy (newContactName s)) eqn:F; [|reflexivity].
    apply blank_nil_of_falsy in F. congruence. }
  assert (falsy (newContactPhone s) = false) as ->.
  { destruct (falsy (newContactPhone s)) eqn:F; [|reflexivity].
    apply blank_nil_of_falsy in F. congruence. }
  cbn [orb negb].
  destruct (encodeURIComponent (newContactName s)) as [encoded|]; [|reflexivity].
  cbn. eexists. repeat split.
Qed.

(** X13. A click on the save button adds a contact exactly when the form is
    open, name and phone are not blank and the name can be encoded into
    the avatar URL.  It then appends one contact, closes the form and
    empties both fields; in every other case the click leaves the whole
    state as it is. *)
Theorem save_adds_exactly_when_accepted (now : Z) (today : Date) (d : Draws)
    (s : AppState) :
  let s' := step calculateDistanceKm encodeURIComponent s (ClickSave now today d) in
  if isAddingContact s && negb (blank (newContactName s))
     && negb (blank (newContactPhone s))
     && match encodeURIComponent (newContactName s) with
        | Some _ => true
        | None => false
        end
  then exists newContact,
         allContacts s' = allContacts s ++ [newContact] /\
         id newContact = toString now /\
         isAddingContact s' = false /\
         newContactName s' = [] /\ newContactPhone s' = []
  else s' = s.
Proof. exact (clickSave_cases now today d s). Qed.

(** X14. Clicking the save button twice in a row adds at most one contact:
    the first click, if it goes through, closes the form, and the second
    click then changes nothing. *)
Theorem second_save_click_does_nothing (now today now' today' : Z)
    (d d' : Draws) (s : AppState) :
  let s' := step calculateDistanceKm encodeURIComponent s (ClickSave now today d) in
  step calculateDistanceKm encodeURIComponent s' (ClickSave now' today' d') = s'.
Proof.
  cbv zeta.
  pose proof (clickSave_cases now today d s) as H1. cbv zeta in H1.
  destruct (saveAccepted encodeURIComponent s) eqn:A.
  - destruct H1 as (c & _ & _ & Hf & _).
    pose proof (clickSave_cases now' today' d'
                  (step calculateDistanceKm encodeURIComponent s (ClickSave now today d)))
      as H2. cbv zeta in H2.
    unfold saveAccepted in H2 at 1. rewrite Hf in H2. exact H2.
  - rewrite H1.
    pose proof (clickSave_cases now' today' d' s) as H2. cbv zeta in H2.
    rewrite A in H2. exact H2.
Qed.

(** ** Ids from timestamps *)

Lemma js_injective (a b : string) : js a = js b -> a = b.
Proof.
  unfold js. intros H.
  rewrite <- (string_of_list_ascii_of_string a), <- (string_of_list_ascii_of_string b).
  f_equal. revert H. generalize (list_ascii_of_string a) (list_ascii_of_string b).
  intros l. induction l as [|x l IH]; intros [|y l']; cbn; try discriminate; auto.
  intros [= Hxy Hl]. f_equal; [|auto].
  rewrite <- (ascii_N_embedding x), <- (ascii_N_embedding y), Hxy. reflexivity.
Qed.

Lemma toString_injective (a b : Z) : toString a = toString b -> a = b.
Proof.
  unfold toString. intros H. apply js_injective in H.
  apply DecimalZ.to_int_inj.
  assert (forall z, Z.to_int z <> Decimal.Pos Decimal.Nil
                    /\ Z.to_int z <> Decimal.Neg Decimal.Nil) as Hz.
  { intros [|p|p]; cbn; split; try discriminate;
      intros [= E]; exact (DecimalPos.Unsigned.to_uint_nonnil p E). }
  assert (Some (Z.to_int a) = Some (Z.to_int b)) as [= E]; [|exact E].
  rewrite <- (NilZero.isi (Z.to_int a)), <- (NilZero.isi (Z.to_int b)), H;
    try apply Hz. reflexivity.
Qed.

Lemma run_ids_increasing es : forall s last,
  NoDup (map id (allContacts s)) ->
  (forall i, In i (map id (allContacts s)) -> exists k, i = toString k /\ (k <= last)%Z) ->
  increasingTimestamps last es ->
  NoDup (map id (allContacts (run calculateDistanceKm encodeURIComponent s es))).
Proof.
  induction es as [|e es IH]; intros s last Hs Hb Hi; cbn [run fold_left]; [exact Hs|].
  destruct (step_ids calculateDistanceKm encodeURIComponent s e)
    as [E | (now & today & d & -> & E)].
  - apply (IH _ (match e with ClickSave now _ _ => now | _ => last end));
      rewrite ?E; auto.
    + destruct e; auto. cbn in Hi. destruct Hi as [Hlt _].
      intros i Hin. destruct (Hb i Hin) as (k & -> & Hk). exists k. split; [reflexivity|lia].
    + destruct e; cbn in Hi; tauto.
  - cbn in Hi. destruct Hi as [Hlt Hi]. apply (IH _ now); rewrite ?E; auto.
    + apply NoDup_app; [exact Hs|repeat constructor; intros []|].
      intros a Ha [<-|[]]. destruct (Hb _ Ha) as (k & Ek & Hk).
      apply toString_injective in Ek. lia.
    + intros i Hin. apply in_app_or in Hin as [Hin|[<-|[]]].
      * destruct (Hb i Hin) as (k & -> & Hk). exists k. split; [reflexivity|lia].
      * exists now. split; [reflexivity|lia].
Qed.

(** X15. The ids of the collection are pairwise distinct after every run
    of events whose saves happen at strictly increasing timestamps later
    than 1 ms after the epoch (the first contact has the id 1): [toString]
    sends different timestamps to different ids. *)
Theorem ids_distinct_when_clock_advances (t0 : Date) (es : list Event) :
  increasingTimestamps 1 es ->
  NoDup (map id
           (allContacts
              (run calculateDistanceKm encodeURIComponent (initialState t0) es))).
Proof.
  apply run_ids_increasing.
  - cbn. repeat constructor. intros [].
  - intros i [<-|[]]. exists 1%Z. split; [reflexivity|lia].
Qed.

End SaveButton.

Section Views.

Variable calculateDistanceKm : Coordinates -> Coordinates -> float.
Variable encodeURIComponent : jsstring -> option jsstring.

Lemma strictEquals_spec (a b : jsstring) : strictEquals a b = true <-> a = b.
Proof.
  revert b. induction a as [|c a IH]; intros [|c' b]; cbn; split;
    try discriminate; try reflexivity.
  - intros H. apply andb_true_iff in H as [Hc H]. apply N.eqb_eq in Hc.
    apply IH in H. congruence.
  - intros [= -> ->]. rewrite N.eqb_refl. apply IH. reflexivity.
Qed.

Lemma isNearby_absent (f : Contact -> NearbyContact) (l : list Contact)
    (c : Contact) :
  (forall a, base (f a) = a) ->
  ~ In (id c) (map id l) ->
  isNearby (map f l) c = None.
Proof.
  intros Hf. induction l as [|a l IH]; intros Hc; [reflexivity|].
  cbn [map isNearby find]. unfold isNearby in IH. rewrite Hf.
  destruct (strictEquals (id a) (id c)) eqn:E.
  - apply strictEquals_spec in E. exfalso. apply Hc. left. exact E.
  - apply IH. intros H. apply Hc. right. exact H.
Qed.

Lemma isNearby_filter (f : Contact -> NearbyContact) (p : Contact -> bool)
    (l : list Contact) (c : Contact) :
  (forall a, base (f a) = a) ->
  NoDup (map id l) -> In c l ->
  isNearby (map f (filter p l)) c = if p c then Some (f c) else None.
Proof.
  intros Hf. induction l as [|a l IH]; intros Hnd Hc; [destruct Hc|].
  cbn [map] in Hnd. apply NoDup_cons_iff in Hnd as [Ha Hnd].
  assert (forall c', ~ In (id c') (map id l) ->
            isNearby (map f (filter p l)) c' = None) as Habsent.
  { intros c' Hc'. apply isNearby_absent; [exact Hf|].
    intros H. apply Hc'. apply in_map_iff in H as (b & Eb & Hb).
    apply filter_In in Hb as [Hb _]. rewrite <- Eb. apply in_map, Hb. }
  destruct Hc as [->|Hc].
  - cbn [filter]. destruct (p c) eqn:Ep; [|apply Habsent, Ha].
    cbn [map isNearby find]. rewrite Hf.
    assert (strictEquals (id c) (id c) = true) as -> by (apply strictEquals_spec; reflexivity).
    reflexivity.
  - assert (id a <> id c) as Hne.
    { intros E. apply Ha. rewrite E. apply in_map, Hc. }
    cbn [filter]. destruct (p a); [|apply IH; assumption].
    cbn [map isNearby find]. rewrite Hf.
    destruct (strictEquals (id a) (id c)) eqn:E.
    + apply strictEquals_spec in E. contradiction.
    + apply IH; assumption.
Qed.

(** X16. Right after a tick, in a collection whose ids are pairwise
    distinct, the contact list marks exactly the participants within 5 km
    of the user as nearby, and the entry it finds for such a contact is the
    contact itself with its own distance; every other contact reads
    Offline/Far. *)
Theorem list_marks_the_nearby_contacts (s : AppState) (t : TimerId)
    (u : Coordinates) (d : Draws) (c : Contact) :
  NoDup (map id (allContacts s)) ->
  activeInterval t (timers s) = Some u ->
  let s' := step calculateDistanceKm encodeURIComponent s (IntervalFires t d) in
  In c (allContacts s') ->
  isNearby (nearbyContacts s') c =
    if isRegistered c && (calculateDistanceKm u (location c) <=? RADAR_RADIUS_KM)
    then Some {| base := c; distanceKm := calculateDistanceKm u (location c) |}
    else None.
Proof.
  intros Hnd Ht. cbv zeta. cbn [step]. rewrite Ht.
  destruct (intervalCallback_contacts calculateDistanceKm u d s) as [-> ->].
  intros Hc.
  apply (isNearby_filter (withDistance (calculateDistanceKm u))
           (fun c => isRegistered c
                     && (calculateDistanceKm u (location c) <=? RADAR_RADIUS_KM)));
    [reflexivity| |exact Hc].
  rewrite moveContacts_ids. exact Hnd.
Qed.

Lemma split_cons (sep : N) (s : jsstring) :
  exists piece pieces, split sep s = piece :: pieces.
Proof.
  destruct s as [|c s]; cbn; [eauto|].
  destruct (N.eqb c sep); [eauto|]. destruct (split sep s); eauto.
Qed.

Lemma hd_split (sep c : N) (s : jsstring) :
  hd [] (split sep (c :: s)) = if N.eqb c sep then [] else c :: hd [] (split sep s).
Proof.
  cbn [split]. destruct (N.eqb c sep); [reflexivity|].
  destruct (split_cons sep s) as (p & ps & ->). reflexivity.
Qed.

(** X17. The label of a dot is the name of the contact up to its first
    space: the name is the label followed by nothing or by a rest that
    starts with a space, and the label holds no space. *)
Theorem dotLabel_is_first_word (contact : NearbyContact) :
  exists rest,
    name (base contact) = dotLabel contact ++ rest /\
    ~ In 32%N (dotLabel contact) /\
    (rest = [] \/ exists rest', rest = 32%N :: rest').
Proof.
  unfold dotLabel. generalize (name (base contact)). intros s.
  induction s as [|c s (rest & E & Hn & Hr)].
  - exists []. split; [reflexivity|]. split; [intros []|]. left. reflexivity.
  - rewrite hd_split. destruct (N.eqb_spec c 32) as [->|Hc].
    + exists (32%N :: s). split; [reflexivity|]. split; [intros []|]. right. eauto.
    + exists rest. cbn [app]. rewrite <- E. split; [reflexivity|].
      split; [|exact Hr]. intros [H|H]; [congruence|contradiction].
Qed.

End Views.

Section Rows.

Variable calculateDistanceKm : Coordinates -> Coordinates -> float.
Variable encodeURIComponent : jsstring -> option jsstring.

Lemma isNearby_first_match (f : Contact -> NearbyContact) (p : Contact -> bool)
    (l : list Contact) (c : Contact) :
  (forall a, base (f a) = a) ->
  isNearby (map f (filter p l)) c =
  option_map f (find (fun a => p a && strictEquals (id a) (id c)) l).
Proof.
  intros Hf. unfold isNearby.
  induction l as [|a l IH]; [reflexivity|].
  cbn [filter find]. destruct (p a); cbn [andb map find]; [|exact IH].
  rewrite Hf. destruct (strictEquals (id a) (id c)); [reflexivity|exact IH].
Qed.

(** X18. Right after a tick, whether or not ids are distinct, the row of a
    contact in the contact list shows the entry of the first contact of the
    collection that is a participant within 5 km and carries the id of the
    row's contact, with that contact's distance: when two contacts share an
    id, both rows show the same entry. *)
Theorem list_row_shows_first_match (s : AppState) (t : TimerId)
    (u : Coordinates) (d : Draws) (c : Contact) :
  activeInterval t (timers s) = Some u ->
  let s' := step calculateDistanceKm encodeURIComponent s (IntervalFires t d) in
  isNearby (nearbyContacts s') c =
    option_map (withDistance (calculateDistanceKm u))
      (find (fun a => isRegistered a
                      && (calculateDistanceKm u (location a) <=? RADAR_RADIUS_KM)
                      && strictEquals (id a) (id c))
            (allContacts s')).
Proof.
  intros Ht. cbv zeta. cbn [step]. rewrite Ht.
  destruct (intervalCallback_contacts calculateDistanceKm u d s) as [-> ->].
  apply (isNearby_first_match (withDistance (calculateDistanceKm u))
           (fun a => isRegistered a
                     && (calculateDistanceKm u (location a) <=? RADAR_RADIUS_KM))).
  reflexivity.
Qed.

Lemma increasingTimestamps_app es : forall last e,
  increasingTimestamps last (es ++ [e]) -> increasingTimestamps last es.
Proof.
  induction es as [|a es IH]; intros last e H; [exact I|].
  cbn [app] in H. destruct a; cbn in H |- *; try (eapply IH; exact H).
  destruct H as [Hlt H]. split; [exact Hlt|]. eapply IH; exact H.
Qed.

Lemma run_app s es e :
  run calculateDistanceKm encodeURIComponent s (es ++ [e]) =
  step calculateDistanceKm encodeURIComponent
       (run calculateDistanceKm encodeURIComponent s es) e.
Proof. unfold run. rewrite fold_left_app. reflexivity. Qed.

Lemma NoDup_map_filter {A B} (g : A -> B) (p : A -> bool) (l : list A) :
  NoDup (map g l) -> NoDup (map g (filter p l)).
Proof.
  induction l as [|a l IH]; cbn; [auto|]. intros H.
  apply NoDup_cons_iff in H as [Ha H].
  destruct (p a); cbn; [|auto]. constructor; [|auto].
  intros Hin. apply Ha. apply in_map_iff in Hin as (b & Eb & Hb).
  apply filter_In in Hb as [Hb _]. rewrite <- Eb. apply in_map, Hb.
Qed.

(** X19. After every run of events whose saves happen at strictly
    increasing timestamps later than 1, no id occurs twice in the nearby
    set: the cards of the quick list and the dots of the radar stand for
    different contacts. *)
Theorem nearby_ids_distinct (t0 : Date) (es : list Event) :
  increasingTimestamps 1 es ->
  NoDup (map (fun n => id (base n))
           (nearbyContacts
              (run calculateDistanceKm encodeURIComponent (initialState t0) es))).
Proof.
  induction es as [|e es IH] using rev_ind; intros H; [constructor|].
  pose proof (increasingTimestamps_app es 1%Z e H) as Hes.
  rewrite run_app.
  destruct (isIntervalFires e) eqn:Ei.
  - destruct e as [g|la lo| |t d| |v|v|now today d]; try discriminate. cbn [step].
    destruct (activeInterval t _) as [u|]; [|exact (IH Hes)].
    destruct (intervalCallback_contacts calculateDistanceKm u d
                (run calculateDistanceKm encodeURIComponent (initialState t0) es))
      as [_ ->].
    rewrite map_map. cbn [withDistance base].
    apply NoDup_map_filter. rewrite moveContacts_ids.
    apply (run_ids_increasing calculateDistanceKm encodeURIComponent es _ 1%Z);
      [cbn; repeat constructor; intros []| |exact Hes].
    intros i [<-|[]]. exists 1%Z. split; [reflexivity|lia].
  - rewrite (nearbyContacts_step calculateDistanceKm encodeURIComponent _ e Ei).
    exact (IH Hes).
Qed.

End Rows.

(** * The radius of the radar, its circles and its crosshairs *)

Section Halving.

#[local] Open Scope Z_scope.

(** Division by two is exact above the smallest exponent. *)
Lemma SFdiv_two m e :
  bounded m e = true -> -1074 < e ->
  exists m' e',
    SFdiv prec emax (S754_finite false m e)
          (S754_finite false 4503599627370496 (-51))
      = S754_finite false m' e' /\
    bounded m' e' = true /\ 2 * F2Z m' e' = F2Z m e.
Proof.
  intros B He. cbn [SFdiv xorb]. unfold SFdiv_core_binary.
  pose proof (bounded_digits_le _ _ B) as (D & _ & N). specialize (N He).
  pose proof (proj1 (bounded_spec _ _) B) as [_ Emax].
  pose proof (digits2_pos_bounds m) as [L U]. rewrite N in L, U.
  cbn [Zdigits2]. rewrite N.
  change (Zpos (digits2_pos 4503599627370496)) with 53.
  rewrite fexp_eq.
  set (e' := Z.min (Z.max (53 + e - (53 + -51) - 53) (-1074)) (e - -51)).
  set (s := e - -51 - e').
  assert (e' = Z.max (e - 2) (-1074)) as He' by (unfold e'; lia).
  assert (s = 52 + (e - 1 - e')) as Hs by (unfold s; lia).
  assert (0 <= e - 1 - e' <= 1) as Hss by lia.
  set (m1 := match s with Z.pos _ => Z.shiftl (Zpos m) s | 0 => Zpos m | Z.neg _ => 0 end).
  assert (m1 = Zpos m * 2 ^ (e - 1 - e') * 2 ^ 52) as Hm1.
  { unfold m1. destruct s as [|p|p] eqn:Es; try lia.
    rewrite Z.shiftl_mul_pow2 by lia. rewrite Hs, Z.add_comm, pow2_split by lia. ring. }
  clearbody m1.
  pose proof (pow2_pos (e - 1 - e') ltac:(lia)) as Hp.
  assert (Z.div_eucl m1 (Zpos 4503599627370496) = (Zpos m * 2 ^ (e - 1 - e'), 0)) as ->.
  { pose proof (Z.div_eucl_eq m1 (Zpos 4503599627370496) ltac:(lia)) as Heq.
    pose proof (Z.mod_pos_bound m1 (Zpos 4503599627370496) ltac:(lia)) as Hr.
    unfold Z.modulo in Hr.
    destruct (Z.div_eucl m1 (Zpos 4503599627370496)) as [q r].
    change (Zpos 4503599627370496) with (2 ^ 52) in *.
    assert (q = Zpos m * 2 ^ (e - 1 - e')) by nia. f_equal; nia. }
  change (new_location (Zpos 4503599627370496) 0) with loc_Exact.
  set (q := Zpos m * 2 ^ (e - 1 - e')).
  assert (0 < q) as Hq by (unfold q; nia).
  assert (Zdigits2 q = 53 + (e - 1 - e')) as Hdq.
  { apply Zdigits2_unique; [|exact Hq]. unfold q.
    replace (53 + (e - 1 - e') - 1) with (52 + (e - 1 - e')) by lia.
    rewrite !pow2_split by lia. change (53 - 1) with 52 in L. nia. }
  assert (fexp (Zdigits2 q + e') = e - 1) as Hfe by (rewrite Hdq, fexp_eq; lia).
  destruct (binary_round_aux_nearest false q e' Hq ltac:(lia))
    as (W & Hnear & [n Hn] & HW0 & Hres).
  rewrite Hfe in Hnear, Hn.
  assert (W = q) as HW.
  { unfold q in *. subst W.
    assert (n = Zpos m \/ n <> Zpos m) as [->|Hne] by lia; [reflexivity|].
    assert (2 ^ (e - 1 - e') <= Z.abs (n * 2 ^ (e - 1 - e') - Zpos m * 2 ^ (e - 1 - e')))
      by nia. lia. }
  destruct (binary_round_aux prec emax false q e' loc_Exact) as [s0|s0| |s0 m' e''].
  - lia.
  - destruct Hres as [_ Hres]. rewrite HW in Hres. exfalso.
    assert (q < 2 ^ (53 + (e - 1 - e'))).
    { unfold q. rewrite pow2_split by lia. nia. }
    assert (2 ^ (1024 - e') < 2 ^ (53 + (e - 1 - e'))) as Hlt by lia.
    apply pow2_lt_inv in Hlt; [|lia]. clear - Hlt Emax. lia.
  - contradiction.
  - destruct Hres as (-> & B' & Hee & HWm). exists m', e''.
    split; [reflexivity|]. split; [exact B'|].
    unfold F2Z. rewrite HW in HWm. unfold q in HWm.
    replace (e + 1074) with (1 + (e - 1 - e') + (e' + 1074)) by lia.
    replace (e'' + 1074) with ((e'' - e') + (e' + 1074)) by lia.
    rewrite (pow2_split (e'' - e') (e' + 1074)) by lia.
    rewrite (pow2_split (1 + (e - 1 - e')) (e' + 1074)) by lia.
    rewrite (pow2_split 1 (e - 1 - e')) by lia. change (2 ^ 1) with 2.
    replace (2 * (Zpos m' * (2 ^ (e'' - e') * 2 ^ (e' + 1074))))
      with (2 * (Zpos m' * 2 ^ (e'' - e')) * 2 ^ (e' + 1074)) by ring.
    rewrite <- HWm. ring.
Qed.

(** A difference of two positive numbers, the larger one first, is a zero
    or a positive finite number. *)
Lemma SFsub_nonneg m1 e1 m2 e2 :
  bounded m1 e1 = true -> bounded m2 e2 = true ->
  F2Z m2 e2 <= F2Z m1 e1 ->
  match SFsub prec emax (S754_finite false m1 e1) (S754_finite false m2 e2) with
  | S754_zero s => s = false
  | S754_finite s m e => s = false /\ bounded m e = true
  | _ => False
  end.
Proof.
  intros B1 B2 Hle. rewrite SFsub_finite.
  pose proof (bounded_digits_le _ _ B1) as (_ & E1 & _).
  pose proof (bounded_digits_le _ _ B2) as (_ & E2 & _).
  pose proof (proj1 (bounded_spec _ _) B1) as [_ X1].
  pose proof (proj1 (bounded_spec _ _) B2) as [_ X2].
  set (ez := Z.min e1 e2).
  set (k := cond_Zopp false (Zpos (fst (shl_align m1 e1 ez)))
            - cond_Zopp false (Zpos (fst (shl_align m2 e2 ez)))).
  assert (k * 2 ^ (ez + 1074) = F2Z m1 e1 - F2Z m2 e2) as Hk
    by (apply (aligned_diff false m1 e1 false m2 e2); lia).
  pose proof (pow2_pos (ez + 1074) ltac:(unfold ez; lia)) as Hp.
  pose proof (F2Z_pos m2 e2 E2) as P2. pose proof (F2Z_max m1 e1 B1) as M1.
  destruct (Z.eq_dec k 0) as [Hk0|Hk0].
  - rewrite Hk0. reflexivity.
  - destruct (binary_normalize_near k ez ltac:(unfold ez; lia) Hk0) as (W & Hn & Hr).
    rewrite Hk in Hn.
    pose proof (Hn (F2Z m1 e1)
                  (or_intror (ex_intro _ m1 (ex_intro _ e1 (conj B1 eq_refl))))) as N1.
    destruct (binary_normalize prec emax k ez false) as [s0|s0| |s0 m e];
      try contradiction.
    + exfalso. assert (0 < 2 ^ 2045) by (apply pow2_pos; lia). lia.
    + destruct Hr as (-> & B & _). split; [|exact B].
      apply Z.ltb_ge. nia.
Qed.

End Halving.

Lemma half_minus (x c2 c : float) mc ec :
  Prim2SF c2 = S754_finite false mc ec ->
  Prim2SF c = S754_finite false mc (ec - 1) ->
  (-1074 < ec - 1)%Z ->
  (c2 <=? x) = true -> (x <? infinity) = true ->
  (0 <=? x / 2 - c) = true /\ (x / 2 - c <? infinity) = true.
Proof.
  intros Hc2 Hc Hec Hle Hfin.
  pose proof (Prim2SF_valid c2) as V2. rewrite Hc2 in V2. cbn in V2.
  pose proof (Prim2SF_valid c) as Vc. rewrite Hc in Vc. cbn in Vc.
  pose proof (Prim2SF_valid x) as Vx.
  rewrite leb_spec, Hc2 in Hle. rewrite ltb_spec in Hfin.
  rewrite leb_spec, ltb_spec, sub_spec, div_spec, Hc.
  change (Prim2SF 2) with (S754_finite false 4503599627370496 (-51)).
  change (Prim2SF 0) with (S754_zero false).
  change (Prim2SF infinity) with (S754_infinity false) in *.
  destruct (Prim2SF x) as [s|s| |s m e]; try discriminate;
    try (destruct s; discriminate).
  destruct s; [discriminate|]. cbn in Vx.
  apply SFleb_finite in Hle; auto.
  pose proof (bounded_digits_le _ _ Vx) as (Dx & Ex & _).
  pose proof (bounded_digits_le _ _ V2) as (D2 & E2 & N2).
  apply dle_F2Z in Hle; try lia.
  assert ((-1074 < e)%Z) as He.
  { destruct (Z.eq_dec e (-1074)) as [->|]; [|lia]. exfalso.
    unfold F2Z in Hle. change (2 ^ (-1074 + 1074))%Z with 1%Z in Hle.
    pose proof (digits2_pos_bounds mc) as [L _]. rewrite N2 in L by lia.
    pose proof (digits2_pos_bounds m) as [_ U].
    assert (2 ^ Zpos (digits2_pos m) <= 2 ^ 53)%Z by (apply Z.pow_le_mono_r; lia).
    assert (2 ^ 2 <= 2 ^ (ec + 1074))%Z by (apply Z.pow_le_mono_r; lia).
    change (2 ^ (53 - 1))%Z with (2 ^ 52)%Z in L.
    change (2 ^ 53)%Z with (2 ^ 52 * 2)%Z in *. change (2 ^ 2)%Z with 4%Z in *. nia. }
  destruct (SFdiv_two m e Vx He) as (m' & e' & E & B' & Hhalf).
  unfold SF64div. rewrite E.
  assert (F2Z mc (ec - 1) <= F2Z m' e')%Z as Hle'.
  { unfold F2Z in Hle |- *. unfold F2Z in Hhalf.
    replace (ec + 1074)%Z with (1 + (ec - 1 + 1074))%Z in Hle by lia.
    rewrite pow2_split in Hle by lia. change (2 ^ 1)%Z with 2%Z in Hle. lia. }
  pose proof (SFsub_nonneg m' e' mc (ec - 1) B' Vc Hle') as H.
  unfold SF64sub.
  destruct (SFsub prec emax _ _) as [s0|s0| |s0 m0 e0]; try contradiction.
  - subst s0. split; reflexivity.
  - destruct H as [-> _]. split; reflexivity.
Qed.

Lemma not_nan_of_leb (c x : float) : (c <=? x) = true -> is_nan x = false.
Proof.
  unfold is_nan. rewrite leb_spec, FloatAxioms.eqb_spec.
  destruct (Prim2SF x) as [s|s| |s m e].
  - destruct s; reflexivity.
  - destruct s; reflexivity.
  - destruct (Prim2SF c) as [[]|[]| |[] mc ec]; discriminate.
  - intros _. unfold SFeqb. destruct s; cbn [SFcompare];
      rewrite Z.compare_refl, ?Pos.compare_cont_refl; reflexivity.
Qed.

Lemma Math_min_cases (c w h : float) :
  (c <=? w) = true -> (c <=? h) = true ->
  Math_min w h = w \/ Math_min w h = h.
Proof.
  intros Hw Hh. unfold Math_min.
  rewrite (not_nan_of_leb c w Hw), (not_nan_of_leb c h Hh). cbn [orb].
  destruct (w <? h); [left; reflexivity|].
  destruct (h <? w); [right; reflexivity|].
  destruct (get_sign w); auto.
Qed.

(** X20. On a display at least 40 px wide and 40 px high the radius of the
    radar, [min(width, height) / 2 - 20], is a finite number that is not
    negative. *)
Theorem radius_of_display (width height : float) :
  (40 <=? width) = true -> (width <? infinity) = true ->
  (40 <=? height) = true -> (height <? infinity) = true ->
  (0 <=? radarMaxRadiusPx width height) = true /\
  (radarMaxRadiusPx width height <? infinity) = true.
Proof.
  intros Hw Hwi Hh Hhi. unfold radarMaxRadiusPx.
  destruct (Math_min_cases 40 width height Hw Hh) as [-> | ->].
  - eapply (half_minus width 40 20);
      [vm_compute; reflexivity|vm_compute; reflexivity|lia|exact Hw|exact Hwi].
  - eapply (half_minus height 40 20);
      [vm_compute; reflexivity|vm_compute; reflexivity|lia|exact Hh|exact Hhi].
Qed.

(** A number that is at most some bound and not below 0 is at least 0:
    it is not [NaN]. *)
Lemma nonneg_of_not_negative (d r : float) :
  (d <=? r) = true -> (d <? 0) = false -> (0 <=? d) = true.
Proof.
  rewrite !leb_spec, ltb_spec. change (Prim2SF 0) with (S754_zero false).
  destruct (Prim2SF d) as [[]|[]| |[] m e], (Prim2SF r) as [[]|[]| |[] m' e'];
    cbn; intros; congruence.
Qed.

Section RadarOnDisplay.

Variable calculateDistanceKm : Coordinates -> Coordinates -> float.
Variable encodeURIComponent : jsstring -> option jsstring.
Variable Math_atan2 : float -> float -> float.
Variable Math_cos : float -> float.
Variable Math_sin : float -> float.

(** Every recorded distance is a result of the distance utility. *)
Lemma reachable_nearby_measured s :
  reachable calculateDistanceKm encodeURIComponent s ->
  Forall (fun n => exists u, distanceKm n = calculateDistanceKm u (location (base n)))
         (nearbyContacts s).
Proof.
  induction 1 as [t0|s e _ IH]; [constructor|].
  destruct (isIntervalFires e) eqn:Ei.
  - destruct e as [g|la lo| |t d| |v|v|now today d]; try discriminate. cbn [step].
    destruct (activeInterval t (timers s)) as [u|]; [|exact IH].
    destruct (intervalCallback_contacts calculateDistanceKm u d s) as [_ ->].
    apply Forall_forall. intros n Hn. apply in_map_iff in Hn as (c & <- & _).
    exists u. reflexivity.
  - rewrite (nearbyContacts_step calculateDistanceKm encodeURIComponent s e Ei).
    exact IH.
Qed.

(** X21. Provided the distance utility never returns a negative number (it
    may return [NaN]), on a display at least 40 px wide and high every dot
    the radar draws for the nearby set of a reachable state lies within the
    outer circle: its distance from the centre, [(d / 5) * maxRadiusPx], is
    between 0 and the radius of the radar. *)
Theorem dots_within_outer_circle (s : AppState) (width height : float)
    (dot : Dot) :
  (forall a b, (calculateDistanceKm a b <? 0) = false) ->
  reachable calculateDistanceKm encodeURIComponent s ->
  (40 <=? width) = true -> (width <? infinity) = true ->
  (40 <=? height) = true -> (height <? infinity) = true ->
  In dot (Radar Math_atan2 Math_cos Math_sin (userLocation s) (nearbyContacts s)
                width height) ->
  In (dot_contact dot) (nearbyContacts s) /\
  (0 <=? contactDistPx (radarMaxRadiusPx width height) (dot_contact dot)) = true /\
  (contactDistPx (radarMaxRadiusPx width height) (dot_contact dot)
     <=? radarMaxRadiusPx width height) = true.
Proof.
  intros Hpos Hreach Hw Hwi Hh Hhi Hdot.
  assert ((0 <=? radarMaxRadiusPx width height) = true /\
          (radarMaxRadiusPx width height <? infinity) = true) as [HM HMi].
  { unfold radarMaxRadiusPx.
    destruct (Math_min_cases 40 width height Hw Hh) as [-> | ->].
    - eapply (half_minus width 40 20);
        [vm_compute; reflexivity|vm_compute; reflexivity|lia|exact Hw|exact Hwi].
    - eapply (half_minus height 40 20);
        [vm_compute; reflexivity|vm_compute; reflexivity|lia|exact Hh|exact Hhi]. }
  destruct (userLocation s) as [u|]; [|destruct Hdot].
  rewrite Radar_plots in Hdot.
  apply in_map_iff in Hdot as (c & <- & Hc). apply filter_In in Hc as [Hc _].
  cbn [projectionSpec dot_contact]. split; [exact Hc|].
  pose proof (reachable_nearby_in_range calculateDistanceKm encodeURIComponent s Hreach) as H5.
  pose proof (reachable_nearby_measured s Hreach) as Hm.
  rewrite Forall_forall in H5, Hm.
  destruct (H5 c Hc) as (_ & Hle & _). destruct (Hm c Hc) as [u' Hd].
  unfold contactDistPx. apply ratio_scale_bound; auto.
  apply (nonneg_of_not_negative _ _ Hle). rewrite Hd. apply Hpos.
Qed.

End RadarOnDisplay.

Section Scaling.

#[local] Open Scope Z_scope.

(** A finite number has one representation only. *)
Lemma F2Z_inj m1 e1 m2 e2 :
  bounded m1 e1 = true -> bounded m2 e2 = true ->
  F2Z m1 e1 = F2Z m2 e2 -> m1 = m2 /\ e1 = e2.
Proof.
  intros B1 B2 H.
  pose proof (bounded_digits_le _ _ B1) as (_ & E1 & _).
  pose proof (bounded_digits_le _ _ B2) as (_ & E2 & _).
  assert (dle (Zpos m1) e1 (Zpos m2) e2) as L12 by (apply dle_F2Z; lia).
  assert (dle (Zpos m2) e2 (Zpos m1) e1) as L21 by (apply dle_F2Z; lia).
  apply digits_le_of_dle in L12; [|lia|lia]. apply digits_le_of_dle in L21; [|lia|lia].
  cbn [Zdigits2] in L12, L21.
  apply bounded_spec in B1 as [C1 _]. apply bounded_spec in B2 as [C2 _].
  assert (e1 = e2) as <-.
  { rewrite C1, C2. f_equal. lia. }
  split; [|reflexivity]. unfold F2Z in H.
  pose proof (pow2_pos (e1 + 1074) ltac:(lia)).
  apply Z.mul_cancel_r in H; [|lia]. congruence.
Qed.

(** Multiplication by [2^a] is exact when the scaled number is
    representable. *)
Lemma SFmul_pow2 j s m e :
  bounded m (e + (j + 52)) = true ->
  SFmul prec emax (S754_finite false 4503599627370496 j) (S754_finite s m e)
  = S754_finite s m (e + (j + 52)).
Proof.
  intros B. cbn [SFmul xorb].
  pose proof (bounded_digits_le _ _ B) as (D & E & _).
  pose proof (proj1 (bounded_spec _ _) B) as [C Emax].
  pose proof (digits2_pos_bounds m) as [L U].
  set (d := Zpos (digits2_pos m)) in *.
  assert (0 < d) as Hd by (unfold d; lia).
  rewrite Pos2Z.inj_mul. change (Zpos 4503599627370496) with (2 ^ 52).
  set (q := 2 ^ 52 * Zpos m).
  assert (0 < q) as Hq by (unfold q; lia).
  assert (Zdigits2 q = 52 + d) as Hdq.
  { apply Zdigits2_unique; [|exact Hq]. unfold q.
    replace (52 + d - 1) with (52 + (d - 1)) by lia.
    rewrite !pow2_split by lia. nia. }
  assert (fexp (Zdigits2 q + (j + e)) = e + (j + 52)) as Hfe.
  { rewrite Hdq. replace (52 + d + (j + e)) with (d + (e + (j + 52))) by lia.
    symmetry. exact C. }
  destruct (binary_round_aux_nearest s q (j + e) Hq ltac:(lia))
    as (W & Hnear & [n Hn] & HW0 & Hres).
  rewrite Hfe in Hnear, Hn.
  replace (e + (j + 52) - (j + e)) with 52 in Hnear, Hn by lia.
  assert (W = q) as HW.
  { unfold q in *. subst W.
    assert (n = Zpos m \/ n <> Zpos m) as [->|Hne] by lia; [ring|].
    assert (2 ^ 52 <= Z.abs (n * 2 ^ 52 - 2 ^ 52 * Zpos m)) by nia. lia. }
  destruct (binary_round_aux prec emax s q (j + e) loc_Exact) as [s0|s0| |s0 m' e'].
  - lia.
  - destruct Hres as [_ Hres]. rewrite HW in Hres. exfalso.
    assert (q < 2 ^ (52 + d)).
    { unfold q. rewrite pow2_split by lia. nia. }
    assert (2 ^ (1024 - (j + e)) < 2 ^ (52 + d)) as Hlt by lia.
    apply pow2_lt_inv in Hlt; [|lia]. clearbody d. lia.
  - contradiction.
  - destruct Hres as (-> & B' & Hee & HWm).
    assert (F2Z m' e' = F2Z m (e + (j + 52))) as HF.
    { pose proof (bounded_digits_le _ _ B') as (_ & E' & _).
      assert (F2Z m' e' * 2 ^ 52 = F2Z m (e + (j + 52)) * 2 ^ 52) as HF.
      { unfold F2Z. rewrite HW in HWm. unfold q in HWm.
        rewrite <- !Z.mul_assoc, <- !pow2_split by lia.
        replace (e' + 1074 + 52) with ((e' - (j + e)) + (j + e + 1126)) by lia.
        replace (e + (j + 52) + 1074 + 52) with (52 + (j + e + 1126)) by lia.
        rewrite (pow2_split (e' - (j + e)) (j + e + 1126)) by lia.
        rewrite (pow2_split 52 (j + e + 1126)) by lia.
        rewrite !Z.mul_assoc, <- HWm. ring. }
      apply Z.mul_cancel_r in HF; [exact HF|]. pose proof (pow2_pos 52). lia. }
    apply F2Z_inj in HF as [-> ->]; auto.
Qed.

Lemma SFdiv_two_eq m e :
  bounded m e = true -> -1074 < e ->
  SFdiv prec emax (S754_finite false m e)
        (S754_finite false 4503599627370496 (-51))
  = S754_finite false m (e - 1).
Proof.
  intros B He. destruct (SFdiv_two m e B He) as (m' & e' & -> & B' & H).
  assert (bounded m (e - 1) = true) as Bh.
  { pose proof (bounded_digits_le _ _ B) as (_ & _ & N). specialize (N He).
    apply bounded_spec in B as [C Emax]. apply bounded_spec.
    rewrite N, fexp_eq in *. lia. }
  assert (F2Z m' e' = F2Z m (e - 1)) as HF.
  { unfold F2Z in *. replace (e + 1074) with (1 + (e - 1 + 1074)) in H by lia.
    rewrite (pow2_split 1 (e - 1 + 1074)) in H by lia. change (2 ^ 1) with 2 in H. lia. }
  apply F2Z_inj in HF as [-> ->]; auto.
Qed.

End Scaling.

Lemma mul_one (M : float) : 1 * M = M.
Proof.
  apply Prim2SF_inj. rewrite mul_spec.
  change (Prim2SF 1) with (S754_finite false 4503599627370496 (-52)).
  pose proof (Prim2SF_valid M) as V.
  destruct (Prim2SF M) as [s|s| |s m e]; try reflexivity.
  cbn in V. unfold SF64mul. rewrite SFmul_pow2.
  - f_equal. lia.
  - replace (e + (-52 + 52))%Z with e by lia. exact V.
Qed.

Lemma mul_half (M : float) :
  (1 <=? M) = true -> (M <? infinity) = true -> 0.5 * M = M / 2.
Proof.
  intros H1 Hi. apply Prim2SF_inj. rewrite mul_spec, div_spec.
  rewrite leb_spec in H1. rewrite ltb_spec in Hi.
  change (Prim2SF 1) with (S754_finite false 4503599627370496 (-52)) in H1.
  change (Prim2SF infinity) with (S754_infinity false) in Hi.
  change (Prim2SF 0.5) with (S754_finite false 4503599627370496 (-53)).
  change (Prim2SF 2) with (S754_finite false 4503599627370496 (-51)).
  pose proof (Prim2SF_valid M) as V.
  destruct (Prim2SF M) as [s|s| |s m e]; try discriminate;
    try (destruct s; discriminate).
  destruct s; [discriminate|]. cbn in V.
  apply SFleb_finite in H1; [|reflexivity|exact V].
  assert ((-1074 < e)%Z) as He.
  { pose proof (bounded_digits_le _ _ V) as (D & E & _).
    apply dle_F2Z in H1; try lia.
    destruct (Z.eq_dec e (-1074)) as [->|]; [|lia]. exfalso.
    unfold F2Z in H1. change (2 ^ (-1074 + 1074))%Z with 1%Z in H1.
    pose proof (digits2_pos_bounds m) as [_ U].
    assert (2 ^ Zpos (digits2_pos m) <= 2 ^ 53)%Z by (apply Z.pow_le_mono_r; lia).
    change (Zpos 4503599627370496) with (2 ^ 52)%Z in H1.
    rewrite <- (pow2_split 52 (-52 + 1074)) in H1 by lia.
    assert (2 ^ 53 < 2 ^ (52 + (-52 + 1074)))%Z by (apply Z.pow_lt_mono_r; lia). lia. }
  unfold SF64mul, SF64div. rewrite SFdiv_two_eq by assumption.
  rewrite SFmul_pow2.
  - f_equal.
  - replace (e + (-53 + 52))%Z with (e - 1)%Z by lia.
    pose proof (bounded_digits_le _ _ V) as (_ & _ & N). specialize (N He).
    apply bounded_spec in V as [C Emax]. apply bounded_spec.
    rewrite N, fexp_eq in *. lia.
Qed.

(** X22. The circles of the background agree with the scale of the dots:
    a contact at exactly 5 km is plotted at the distance of the outer
    circle from the centre, and, on a radar whose radius is finite and at
    least 1 px, a contact at exactly 2.5 km at the distance of the mid
    circle. *)
Theorem circles_agree_with_scale (width height : float)
    (contact : NearbyContact) :
  (distanceKm contact = 5 ->
   contactDistPx (radarMaxRadiusPx width height) contact
   = circle_r (outerCircle width height)) /\
  ((1 <=? radarMaxRadiusPx width height) = true ->
   (radarMaxRadiusPx width height <? infinity) = true ->
   distanceKm contact = 2.5 ->
   contactDistPx (radarMaxRadiusPx width height) contact
   = circle_r (midCircle width height)).
Proof.
  unfold contactDistPx, RADAR_RADIUS_KM. cbn [outerCircle midCircle circle_r].
  split.
  - intros ->. change (5 / 5) with 1. apply mul_one.
  - intros H1 Hi ->. change (2.5 / 5) with 0.5. apply mul_half; assumption.
Qed.

(** ** Rounding is monotone: the dots stay between the crosshairs *)

Section Monotone.

#[local] Open Scope Z_scope.

Lemma SFleb_refl r :
  match r with S754_nan => False | _ => True end -> SFleb r r = true.
Proof.
  unfold SFleb. destruct r as [[]|[]| |[] m e]; cbn; try tauto; intros _;
    rewrite Z.compare_refl, ?Pos.compare_cont_refl; reflexivity.
Qed.

(** Rounding is monotone. *)
Lemma rounds_to_mono V1 V2 r1 r2 :
  rounds_to V1 r1 -> rounds_to V2 r2 -> V1 < V2 -> SFleb r1 r2 = true.
Proof.
  intros H1 H2 Hlt.
  destruct r1 as [s1|s1| |s1 m1 e1]; cbn [rounds_to] in H1; try contradiction;
    destruct r2 as [s2|s2| |s2 m2 e2]; cbn [rounds_to] in H2; try contradiction.
  - destruct H1 as [-> _], H2 as [-> _]. reflexivity.
  - destruct H1 as [-> _], H2 as (-> & _). reflexivity.
  - destruct H1 as (_ & _ & P & _), H2 as [_ ->]. lia.
  - destruct H1 as (-> & B1 & P1 & N1), H2 as (-> & B2 & P2 & N2).
    apply SFleb_finite; auto.
    pose proof (bounded_digits_le _ _ B1) as (_ & E1 & _).
    pose proof (bounded_digits_le _ _ B2) as (_ & E2 & _).
    apply dle_F2Z; try lia.
    pose proof (N1 (F2Z m2 e2)
                  (or_intror (ex_intro _ m2 (ex_intro _ e2 (conj B2 eq_refl))))).
    pose proof (N2 (F2Z m1 e1)
                  (or_intror (ex_intro _ m1 (ex_intro _ e1 (conj B1 eq_refl))))).
    lia.
Qed.

(** The sum of a positive number and a zero or finite number, when it is
    not negative and does not overflow. *)
Lemma SFadd_rounds ma ea y mb eb :
  bounded ma ea = true -> valid_binary y = true ->
  match y with S754_zero _ | S754_finite _ _ _ => True | _ => False end ->
  bounded mb eb = true ->
  0 <= F2Z ma ea + val y <= F2Z mb eb ->
  rounds_to (F2Z ma ea + val y) (SFadd prec emax (S754_finite false ma ea) y).
Proof.
  intros Ba Vy Hy Bb HV.
  pose proof (bounded_digits_le _ _ Ba) as (_ & Ea & _).
  pose proof (proj1 (bounded_spec _ _) Ba) as [_ Xa].
  pose proof (F2Z_pos ma ea Ea) as Pa.
  destruct y as [sy|sy| |sy my ey]; try contradiction.
  - cbn [SFadd val rounds_to]. rewrite Z.add_0_r.
    split; [reflexivity|]. split; [exact Ba|]. split; [exact Pa|].
    intros g _. rewrite Z.sub_diag. cbn. lia.
  - cbn in Vy. pose proof (bounded_digits_le _ _ Vy) as (_ & Ey & _).
    pose proof (proj1 (bounded_spec _ _) Vy) as [_ Xy].
    rewrite SFadd_finite. cbn [val] in *.
    set (ez := Z.min ea ey).
    set (k := cond_Zopp false (Zpos (fst (shl_align ma ea ez)))
              + cond_Zopp sy (Zpos (fst (shl_align my ey ez)))).
    assert (k * 2 ^ (ez + 1074) = F2Z ma ea + cond_Zopp sy (F2Z my ey)) as Hk
      by (apply (aligned_sum false ma ea sy my ey); lia).
    pose proof (pow2_pos (ez + 1074) ltac:(unfold ez; lia)) as Hp.
    rewrite <- Hk in *.
    destruct (Z.eq_dec k 0) as [Hk0|Hk0].
    + rewrite Hk0. cbn. auto.
    + assert (0 < k) as Hkpos by nia.
      destruct (binary_normalize_near k ez ltac:(unfold ez; lia) Hk0) as (W & Hn & Hr).
      rewrite (Z.abs_eq (k * 2 ^ (ez + 1074))) in Hn by nia.
      pose proof (Hn (F2Z mb eb)
                    (or_intror (ex_intro _ mb (ex_intro _ eb (conj Bb eq_refl))))) as Nb.
      pose proof (F2Z_max mb eb Bb) as Mb.
      destruct (binary_normalize prec emax k ez false) as [s0|s0| |s0 m e];
        try contradiction.
      * exfalso. assert (0 < 2 ^ 2045) by (apply pow2_pos; lia). lia.
      * destruct Hr as (-> & B & ->). cbn [rounds_to].
        split; [apply Z.ltb_ge; lia|]. split; [exact B|]. split; [nia|exact Hn].
Qed.

Lemma SFsub_as_add ma ea m e :
  SFsub prec emax (S754_finite false ma ea) (S754_finite false m e)
  = SFadd prec emax (S754_finite false ma ea) (S754_finite true m e).
Proof. rewrite SFsub_finite, SFadd_finite. reflexivity. Qed.

Lemma rounds_to_leb_refl V r : rounds_to V r -> SFleb r r = true.
Proof.
  intros H. apply SFleb_refl. destruct r; cbn [rounds_to] in H; tauto.
Qed.

Lemma rounds_to_le V1 V2 r1 r2 :
  rounds_to V1 r1 -> rounds_to V2 r2 -> V1 <= V2 ->
  (V1 = V2 -> r1 = r2) -> SFleb r1 r2 = true.
Proof.
  intros H1 H2 Hle Heq.
  destruct (Z.eq_dec V1 V2) as [E|E].
  - rewrite (Heq E). eapply rounds_to_leb_refl, H2.
  - eapply rounds_to_mono; eauto. lia.
Qed.

(** With [|t| <= M <= a] and [2 a] finite, the sum [a + t] lies between
    [a - M] and [a + M], rounded as they are. *)
Lemma SFadd_between ma ea t sM M mb eb :
  bounded ma ea = true -> bounded mb eb = true ->
  2 * F2Z ma ea <= F2Z mb eb ->
  valid_binary t = true ->
  match t with S754_zero _ | S754_finite _ _ _ => True | _ => False end ->
  valid_binary M = true ->
  match M with S754_zero s => s = sM | S754_finite s _ _ => s = false | _ => False end ->
  Z.abs (val t) <= val M -> val M <= F2Z ma ea ->
  SFleb (SFsub prec emax (S754_finite false ma ea) M)
        (SFadd prec emax (S754_finite false ma ea) t) = true /\
  SFleb (SFadd prec emax (S754_finite false ma ea) t)
        (SFadd prec emax (S754_finite false ma ea) M) = true.
Proof.
  intros Ba Bb H2a Vt Ht VM HM Htm HMa.
  pose proof (bounded_digits_le _ _ Ba) as (_ & Ea & _).
  pose proof (F2Z_pos ma ea Ea) as Pa.
  assert (rounds_to (F2Z ma ea + val t) (SFadd prec emax (S754_finite false ma ea) t))
    as Rt by (apply (SFadd_rounds ma ea t mb eb); auto; lia).
  destruct M as [s|s| |s mM eM]; try contradiction.
  - (* the radius is zero *)
    cbn [val] in Htm. assert (val t = 0) as Zt by lia.
    assert (exists st, t = S754_zero st) as [st ->].
    { destruct t as [st|st| |st mt et]; try contradiction; [eauto|].
      cbn in Vt. pose proof (bounded_digits_le _ _ Vt) as (_ & Et & _).
      pose proof (F2Z_pos mt et Et). cbn [val] in Zt. destruct st; cbn [cond_Zopp] in Zt; lia. }
    cbn [SFsub SFadd]. split; apply SFleb_refl; exact I.
  - subst s. cbn in VM. cbn [val cond_Zopp] in Htm, HMa.
    pose proof (bounded_digits_le _ _ VM) as (_ & EM & _).
    pose proof (F2Z_pos mM eM EM) as PM.
    assert (rounds_to (F2Z ma ea + val (S754_finite false mM eM))
              (SFadd prec emax (S754_finite false ma ea) (S754_finite false mM eM)))
      as RM by (apply (SFadd_rounds ma ea _ mb eb); cbn [val cond_Zopp]; auto; lia).
    assert (rounds_to (F2Z ma ea + val (S754_finite true mM eM))
              (SFadd prec emax (S754_finite false ma ea) (S754_finite true mM eM)))
      as Rm by (apply (SFadd_rounds ma ea _ mb eb); cbn [val cond_Zopp]; auto; lia).
    rewrite SFsub_as_add.
    split.
    + eapply rounds_to_le; [exact Rm|exact Rt|cbn [val cond_Zopp]; lia|].
      cbn [val cond_Zopp]. intros E. f_equal.
      destruct t as [st|st| |st mt et]; try contradiction; cbn [val] in E; [lia|].
      cbn in Vt. pose proof (bounded_digits_le _ _ Vt) as (_ & Et & _).
      pose proof (F2Z_pos mt et Et).
      destruct st; cbn [cond_Zopp] in E; [|lia].
      assert (F2Z mM eM = F2Z mt et) as HF by lia.
      apply F2Z_inj in HF as [-> ->]; auto.
    + eapply rounds_to_le; [exact Rt|exact RM|cbn [val cond_Zopp]; lia|].
      cbn [val cond_Zopp]. intros E. f_equal.
      destruct t as [st|st| |st mt et]; try contradiction; cbn [val] in E; [lia|].
      cbn in Vt. pose proof (bounded_digits_le _ _ Vt) as (_ & Et & _).
      pose proof (F2Z_pos mt et Et).
      destruct st; cbn [cond_Zopp] in E; [lia|].
      assert (F2Z mt et = F2Z mM eM) as HF by lia.
      apply F2Z_inj in HF as [-> ->]; auto.
Qed.

End Monotone.

Section Geometry.

#[local] Open Scope Z_scope.

Lemma SFsub_le m1 e1 m2 e2 :
  bounded m1 e1 = true -> bounded m2 e2 = true ->
  F2Z m2 e2 <= F2Z m1 e1 ->
  match SFsub prec emax (S754_finite false m1 e1) (S754_finite false m2 e2) with
  | S754_zero s => s = false
  | S754_finite s m e => s = false /\ bounded m e = true /\ F2Z m e <= F2Z m1 e1
  | _ => False
  end.
Proof.
  intros B1 B2 Hle.
  pose proof (SFsub_nonneg m1 e1 m2 e2 B1 B2 Hle) as Hn.
  pose proof (bounded_digits_le _ _ B1) as (_ & E1 & _).
  pose proof (bounded_digits_le _ _ B2) as (_ & E2 & _).
  pose proof (F2Z_pos m2 e2 E2) as P2.
  assert (mag_le (SFabs (SFsub prec emax (S754_finite false m1 e1)
                           (S754_finite false m2 e2))) false m1 e1) as Hu.
  { rewrite SFsub_finite. apply binary_normalize_upper_units; [lia|exact B1|].
    rewrite (aligned_diff false m1 e1 false m2 e2) by lia. cbn [cond_Zopp]. lia. }
  destruct (SFsub prec emax _ _) as [s|s| |s m e]; try contradiction; [exact Hn|].
  destruct Hn as [-> B]. cbn [SFabs mag_le] in Hu. destruct Hu as (_ & _ & Hd).
  pose proof (bounded_digits_le _ _ B) as (_ & E & _).
  split; [reflexivity|]. split; [exact B|]. apply dle_F2Z; auto.
Qed.

End Geometry.

(** A size of at least 40 px is a positive finite number above the
    smallest exponent. *)
Lemma at_least_40 (x : float) :
  (40 <=? x) = true -> (x <? infinity) = true ->
  exists m e,
    Prim2SF x = S754_finite false m e /\ bounded m e = true /\ (-1074 < e)%Z /\
    (F2Z 5629499534213120 (-47) <= F2Z m e)%Z.
Proof.
  intros Hle Hfin. pose proof (Prim2SF_valid x) as Vx.
  rewrite leb_spec in Hle. rewrite ltb_spec in Hfin.
  change (Prim2SF 40) with (S754_finite false 5629499534213120 (-47)) in Hle.
  change (Prim2SF infinity) with (S754_infinity false) in Hfin.
  destruct (Prim2SF x) as [s|s| |s m e]; try discriminate;
    try (destruct s; discriminate).
  destruct s; [discriminate|]. cbn in Vx.
  apply SFleb_finite in Hle; [|reflexivity|exact Vx].
  pose proof (bounded_digits_le _ _ Vx) as (Dx & Ex & _).
  apply dle_F2Z in Hle; try lia.
  exists m, e. repeat split; auto.
  destruct (Z.eq_dec e (-1074)) as [->|]; [|lia]. exfalso.
  unfold F2Z in Hle. change (2 ^ (-1074 + 1074))%Z with 1%Z in Hle.
  pose proof (digits2_pos_bounds m) as [_ U].
  assert (2 ^ Zpos (digits2_pos m) <= 2 ^ 53)%Z by (apply Z.pow_le_mono_r; lia).
  assert (2 ^ 53 < Zpos 5629499534213120 * 2 ^ (-47 + 1074))%Z.
  { change (Zpos 5629499534213120) with (5 * 2 ^ 50)%Z.
    change (-47 + 1074)%Z with (3 + 1024)%Z. rewrite (pow2_split 3 1024) by lia.
    assert (0 < 2 ^ 1024)%Z by (apply pow2_pos; lia).
    change (2 ^ 53)%Z with (8 * 2 ^ 50)%Z. change (2 ^ 3)%Z with 8%Z.
    assert (0 < 2 ^ 50)%Z by (apply pow2_pos; lia). nia. }
  lia.
Qed.

Lemma half_of (x : float) m e :
  Prim2SF x = S754_finite false m e -> bounded m e = true -> (-1074 < e)%Z ->
  Prim2SF (x / 2) = S754_finite false m (e - 1) /\ bounded m (e - 1) = true /\
  (2 * F2Z m (e - 1) = F2Z m e)%Z.
Proof.
  intros E B He. rewrite div_spec, E.
  change (Prim2SF 2) with (S754_finite false 4503599627370496 (-51)).
  unfold SF64div. rewrite SFdiv_two_eq by assumption.
  split; [reflexivity|].
  assert (bounded m (e - 1) = true) as Bh.
  { pose proof (bounded_digits_le _ _ B) as (_ & _ & N). specialize (N He).
    apply bounded_spec in B as [C Emax]. apply bounded_spec.
    rewrite N, fexp_eq in *. lia. }
  split; [exact Bh|]. unfold F2Z.
  replace (e + 1074)%Z with (1 + (e - 1 + 1074))%Z by lia.
  rewrite (pow2_split 1 (e - 1 + 1074)) by lia. change (2 ^ 1)%Z with 2%Z. lia.
Qed.

(** [Math.min] of two sizes is one of them, and not larger than either. *)
Lemma Math_min_le (w h : float) mw ew mh eh :
  Prim2SF w = S754_finite false mw ew -> bounded mw ew = true ->
  Prim2SF h = S754_finite false mh eh -> bounded mh eh = true ->
  (Math_min w h = w /\ (F2Z mw ew <= F2Z mh eh)%Z) \/
  (Math_min w h = h /\ (F2Z mh eh <= F2Z mw ew)%Z).
Proof.
  intros Ew Bw Eh Bh.
  pose proof (bounded_digits_le _ _ Bw) as (_ & Xw & _).
  pose proof (bounded_digits_le _ _ Bh) as (_ & Xh & _).
  assert (is_nan w = false) as Nw.
  { unfold is_nan. rewrite FloatAxioms.eqb_spec, Ew. unfold SFeqb. cbn [SFcompare].
    rewrite Z.compare_refl, Pos.compare_cont_refl. reflexivity. }
  assert (is_nan h = false) as Nh.
  { unfold is_nan. rewrite FloatAxioms.eqb_spec, Eh. unfold SFeqb. cbn [SFcompare].
    rewrite Z.compare_refl, Pos.compare_cont_refl. reflexivity. }
  unfold Math_min. rewrite Nw, Nh. cbn [orb].
  destruct (w <? h) eqn:Lwh.
  - left. split; [reflexivity|]. rewrite ltb_spec, Ew, Eh in Lwh.
    apply SFltb_finite in Lwh; auto.
    destruct (Z_le_gt_dec (F2Z mw ew) (F2Z mh eh)); [assumption|].
    exfalso. apply Lwh. apply dle_F2Z; lia.
  - assert ((F2Z mh eh <= F2Z mw ew)%Z) as Hhw.
    { rewrite ltb_spec, Ew, Eh in Lwh.
      destruct (Z_le_gt_dec (F2Z mh eh) (F2Z mw ew)); [assumption|]. exfalso.
      assert (SFltb (S754_finite false mw ew) (S754_finite false mh eh) = true) as C.
      { apply SFltb_finite; auto. intros D. apply dle_F2Z in D; lia. }
      congruence. }
    destruct (h <? w) eqn:Lhw; [right; auto|].
    assert ((F2Z mw ew <= F2Z mh eh)%Z) as Hwh.
    { rewrite ltb_spec, Ew, Eh in Lhw.
      destruct (Z_le_gt_dec (F2Z mw ew) (F2Z mh eh)); [assumption|]. exfalso.
      assert (SFltb (S754_finite false mh eh) (S754_finite false mw ew) = true) as C.
      { apply SFltb_finite; auto. intros D. apply dle_F2Z in D; lia. }
      congruence. }
    destruct (get_sign w); [left|right]; auto.
Qed.

(** The radius of the radar is a zero or a positive finite number, at most
    half the width and at most half the height. *)
Lemma radius_le_half (w h : float) mw ew mh eh :
  Prim2SF w = S754_finite false mw ew -> bounded mw ew = true ->
  Prim2SF h = S754_finite false mh eh -> bounded mh eh = true ->
  (-1074 < ew)%Z -> (-1074 < eh)%Z ->
  (F2Z 5629499534213120 (-47) <= F2Z mw ew)%Z ->
  (F2Z 5629499534213120 (-47) <= F2Z mh eh)%Z ->
  match Prim2SF (radarMaxRadiusPx w h) with
  | S754_zero s => s = false
  | S754_finite s m e =>
      s = false /\ bounded m e = true /\
      (F2Z m e <= F2Z mw (ew - 1))%Z /\ (F2Z m e <= F2Z mh (eh - 1))%Z
  | _ => False
  end.
Proof.
  intros Ew Bw Eh Bh Xw Xh Lw Lh.
  destruct (half_of w mw ew Ew Bw Xw) as (Hw2 & Bw2 & Fw2).
  destruct (half_of h mh eh Eh Bh Xh) as (Hh2 & Bh2 & Fh2).
  assert ((F2Z 5629499534213120 (-48) * 2 = F2Z 5629499534213120 (-47))%Z) as F20
    by reflexivity.
  unfold radarMaxRadiusPx. rewrite sub_spec.
  change (Prim2SF 20) with (S754_finite false 5629499534213120 (-48)).
  destruct (Math_min_le w h mw ew mh eh Ew Bw Eh Bh) as [[-> Hle]|[-> Hle]].
  - rewrite Hw2. unfold SF64sub.
    pose proof (SFsub_le mw (ew - 1) 5629499534213120 (-48) Bw2 eq_refl ltac:(lia)) as H.
    destruct (SFsub prec emax _ _) as [s|s| |s m e]; try contradiction; [exact H|].
    destruct H as (-> & B & Hm). repeat split; auto; lia.
  - rewrite Hh2. unfold SF64sub.
    pose proof (SFsub_le mh (eh - 1) 5629499534213120 (-48) Bh2 eq_refl ltac:(lia)) as H.
    destruct (SFsub prec emax _ _) as [s|s| |s m e]; try contradiction; [exact H|].
    destruct H as (-> & B & Hm). repeat split; auto; lia.
Qed.

(** A factor of absolute value at most one does not take a number in
    [[0, M]] out of [[-M, M]]. *)
Lemma mul_within (c p M : float) :
  (abs c <=? 1) = true -> (0 <=? p) = true -> (p <=? M) = true ->
  (M <? infinity) = true ->
  (abs (c * p) <=? M) = true.
Proof.
  intros Hc Hp HpM HM.
  pose proof (Prim2SF_valid c) as Vc. pose proof (Prim2SF_valid M) as VM.
  rewrite leb_spec, abs_spec in Hc. rewrite leb_spec in HpM. rewrite ltb_spec in HM.
  rewrite leb_spec, abs_spec, mul_spec.
  change (Prim2SF 1) with (S754_finite false 4503599627370496 (-52)) in Hc.
  change (Prim2SF infinity) with (S754_infinity false) in HM.
  assert (forall s, SFleb (S754_zero s) (Prim2SF M) = true ->
                    SFleb (S754_zero false) (Prim2SF M) = true) as Hz.
  { intros s. destruct s, (Prim2SF M) as [[]|[]| |[] mM eM]; cbn; congruence. }
  destruct (Prim2SF_nonneg p Hp) as [[s E]|[(mp & ep & E & Bp)|E]]; rewrite E in *.
  - (* p is a zero *)
    destruct (Prim2SF c) as [sc|sc| |sc mc ec]; try discriminate;
      cbn [SF64mul SFmul SFabs]; eapply Hz; exact HpM.
  - destruct (Prim2SF M) as [sM|sM| |sM mM eM]; try discriminate;
      try (destruct sM; discriminate).
    destruct sM; [discriminate|]. cbn in VM.
    apply SFleb_finite in HpM; auto.
    destruct (Prim2SF c) as [sc|sc| |sc mc ec]; try discriminate.
    + reflexivity.
    + cbn in Vc. cbn [SFabs] in Hc. apply SFleb_finite in Hc; [|exact Vc|reflexivity].
      apply (dle_pow2_canon _ _ 0) in Hc.
      pose proof (SFmul_upper sc mc ec false mp ep mM eM Vc Bp VM) as Hm.
      pose proof (dle_mul_pow2 _ _ mp ep _ Hc) as Hd. rewrite Z.add_0_r in Hd.
      specialize (Hm (dle_trans _ _ _ _ _ _ Hd HpM)).
      apply mag_le_abs, (mag_le_leb _ _ _ VM) in Hm. apply Hm.
  - destruct (Prim2SF M) as [[]|[]| |[] mM eM]; discriminate.
Qed.

(** With [|t| <= M <= a], [a] positive and [2 a] finite, [a + t] lies
    between [a - M] and [a + M]. *)
Lemma between (a b M t : float) ma ea mb eb :
  Prim2SF a = S754_finite false ma ea -> bounded ma ea = true ->
  Prim2SF b = S754_finite false mb eb -> bounded mb eb = true ->
  (2 * F2Z ma ea <= F2Z mb eb)%Z ->
  match Prim2SF M with
  | S754_zero s => s = false
  | S754_finite s m e => s = false /\ (F2Z m e <= F2Z ma ea)%Z
  | _ => False
  end ->
  (abs t <=? M) = true ->
  (a - M <=? a + t) = true /\ (a + t <=? a + M) = true.
Proof.
  intros Ea Ba Eb Bb H2 HM Ht.
  pose proof (Prim2SF_valid t) as Vt. pose proof (Prim2SF_valid M) as VM.
  pose proof (bounded_digits_le _ _ Ba) as (_ & Xa & _).
  pose proof (F2Z_pos ma ea Xa) as Pa.
  rewrite leb_spec, abs_spec in Ht.
  rewrite !leb_spec, !add_spec, sub_spec, Ea.
  apply (SFadd_between ma ea (Prim2SF t) false (Prim2SF M) mb eb); auto.
  - destruct (Prim2SF M) as [sM|sM| |sM mM eM]; try contradiction.
    + subst sM. destruct (Prim2SF t) as [st|st| |st mt et]; auto; discriminate.
    + destruct HM as [-> _].
      destruct (Prim2SF t) as [st|st| |st mt et]; auto; discriminate.
  - destruct (Prim2SF M) as [sM|sM| |sM mM eM]; tauto.
  - destruct (Prim2SF M) as [sM|sM| |sM mM eM]; try contradiction.
    + destruct (Prim2SF t) as [st|st| |st mt et]; cbn [val]; try lia.
      subst sM. destruct st; discriminate.
    + destruct HM as [-> HM]. cbn in VM. cbn [val cond_Zopp].
      destruct (Prim2SF t) as [st|st| |st mt et]; cbn [val].
      * pose proof (bounded_digits_le _ _ VM) as (_ & XM & _).
        pose proof (F2Z_pos mM eM XM). lia.
      * pose proof (bounded_digits_le _ _ VM) as (_ & XM & _).
        pose proof (F2Z_pos mM eM XM). lia.
      * pose proof (bounded_digits_le _ _ VM) as (_ & XM & _).
        pose proof (F2Z_pos mM eM XM). lia.
      * cbn in Vt. cbn [SFabs] in Ht. apply SFleb_finite in Ht; auto.
        pose proof (bounded_digits_le _ _ VM) as (_ & XM & _).
        pose proof (bounded_digits_le _ _ Vt) as (_ & Xt & _).
        apply dle_F2Z in Ht; try lia.
        pose proof (F2Z_pos mt et Xt). destruct st; cbn [cond_Zopp]; lia.
  - destruct (Prim2SF M) as [sM|sM| |sM mM eM]; try contradiction; cbn [val].
    + lia.
    + destruct HM as [-> HM]. cbn [cond_Zopp]. exact HM.
Qed.

Section Crosshairs.

Variable Math_atan2 : float -> float -> float.
Variable Math_cos : float -> float.
Variable Math_sin : float -> float.

(** X23. On a display at least 40 px wide and high, a dot the radar draws
    for a contact whose distance is not negative lies in the square the
    crosshairs span, provided the cosine and the sine of its angle are at
    most 1 in absolute value: its x coordinate lies between the ends of the
    horizontal line and its y coordinate between the ends of the vertical
    line. *)
Theorem dots_between_crosshairs (u : Coordinates)
    (contacts : list NearbyContact) (width height : float) (dot : Dot) :
  (40 <=? width) = true -> (width <? infinity) = true ->
  (40 <=? height) = true -> (height <? infinity) = true ->
  In dot (Radar Math_atan2 Math_cos Math_sin (Some u) contacts width height) ->
  (0 <=? distanceKm (dot_contact dot)) = true ->
  (abs (Math_cos (contactAngle Math_atan2 u (dot_contact dot))) <=? 1) = true ->
  (abs (Math_sin (contactAngle Math_atan2 u (dot_contact dot))) <=? 1) = true ->
  (line_x1 (horizontalCrosshair width height) <=? dot_x dot) = true /\
  (dot_x dot <=? line_x2 (horizontalCrosshair width height)) = true /\
  (line_y1 (verticalCrosshair width height) <=? dot_y dot) = true /\
  (dot_y dot <=? line_y2 (verticalCrosshair width height)) = true.
Proof.
  intros Hw Hwi Hh Hhi Hdot Hpos Hcos Hsin.
  rewrite Radar_plots in Hdot.
  apply in_map_iff in Hdot as (c & <- & Hc). apply filter_In in Hc as [Hc Hgt].
  apply negb_true_iff in Hgt.
  cbn [projectionSpec dot_contact dot_x dot_y] in *.
  cbn [horizontalCrosshair verticalCrosshair line_x1 line_x2 line_y1 line_y2
       radarCenter x y].
  destruct (at_least_40 width Hw Hwi) as (mw & ew & Ew & Bw & Xw & Lw).
  destruct (at_least_40 height Hh Hhi) as (mh & eh & Eh & Bh & Xh & Lh).
  destruct (half_of width mw ew Ew Bw Xw) as (Hw2 & Bw2 & Fw2).
  destruct (half_of height mh eh Eh Bh Xh) as (Hh2 & Bh2 & Fh2).
  pose proof (radius_le_half width height mw ew mh eh Ew Bw Eh Bh Xw Xh Lw Lh) as HM.
  set (M := radarMaxRadiusPx width height) in *.
  assert ((0 <=? M) = true /\ (M <? infinity) = true) as [HM0 HMi].
  { rewrite leb_spec, ltb_spec.
    destruct (Prim2SF M) as [s|s| |s m e]; try contradiction.
    - subst s. split; reflexivity.
    - destruct HM as (-> & _). split; reflexivity. }
  assert ((0 <=? distanceKm c / 5 * M) = true /\ (distanceKm c / 5 * M <=? M) = true)
    as [Hp0 HpM].
  { apply (ratio_scale_bound (distanceKm c) 5 M Hpos
             (leb_of_not_gtb (distanceKm c) 5 Hpos eq_refl Hgt)
             eq_refl eq_refl HM0 HMi). }
  unfold contactAngle in Hcos, Hsin.
  pose proof (mul_within _ _ M Hcos Hp0 HpM HMi) as Htx.
  pose proof (mul_within _ _ M Hsin Hp0 HpM HMi) as Hty.
  assert (match Prim2SF M with
          | S754_zero s => s = false
          | S754_finite s m e => s = false /\ (F2Z m e <= F2Z mw (ew - 1))%Z
          | _ => False
          end) as HMw by (destruct (Prim2SF M); tauto).
  assert (match Prim2SF M with
          | S754_zero s => s = false
          | S754_finite s m e => s = false /\ (F2Z m e <= F2Z mh (eh - 1))%Z
          | _ => False
          end) as HMh by (destruct (Prim2SF M); tauto).
  destruct (between (width / 2) width M _ mw (ew - 1) mw ew Hw2 Bw2 Ew Bw
              ltac:(lia) HMw Htx) as [X1 X2].
  destruct (between (height / 2) height M _ mh (eh - 1) mh eh Hh2 Bh2 Eh Bh
              ltac:(lia) HMh Hty) as [Y1 Y2].
  auto.
Qed.

End Crosshairs.

(** * The assistant modal *)

Lemma loading_step m e :
  isReplyFails e = false ->
  (isAiLoading m = true -> (0 < pendingReplies m)%nat) ->
  isAiLoading (modalStep m e) = true -> (0 < pendingReplies (modalStep m e))%nat.
Proof.
  intros He H. destruct e as [c| |u| |t|]; try discriminate; cbn [modalStep].
  - cbn. lia.
  - destruct (selectedContact m); [|exact H].
    destruct (isAiLoading m) eqn:El; [rewrite El; exact H|]. cbn. lia.
  - destruct (selectedContact m) eqn:Es; [|exact H].
    destruct (isAiLoading m) eqn:El; [rewrite El; exact H|].
    unfold handleAIMeetup. rewrite Es. destruct u; cbn; [lia|congruence].
  - destruct (selectedContact m); [|exact H]. exact H.
  - unfold replyArrives. destruct (pendingReplies m) eqn:E; cbn; [|discriminate].
    rewrite E. exact H.
Qed.

(** X24. As long as no call of the assistant service fails, the loading
    indicator of the modal is on only while a call is under way: once
    every call has been answered, the indicator is off and the buttons of
    the assistant are enabled again. *)
Theorem loading_only_while_pending (es : list ModalEvent) :
  forallb (fun e => negb (isReplyFails e)) es = true ->
  isAiLoading (modalRun initialModal es) = true ->
  (0 < pendingReplies (modalRun initialModal es))%nat.
Proof.
  unfold modalRun.
  assert (isAiLoading initialModal = true -> (0 < pendingReplies initialModal)%nat) as H
    by discriminate.
  revert H. generalize initialModal.
  induction es as [|e es IH]; intros m Hm Hes; cbn [fold_left]; [exact Hm|].
  cbn [forallb] in Hes. apply andb_true_iff in Hes as [He Hes].
  apply IH; [|exact Hes]. apply loading_step; [|exact Hm].
  apply negb_true_iff, He.
Qed.

(** X25. A failed call of the assistant service is not caught: when the
    only call under way fails, the loading flag stays on, and it stays on
    whatever happens next (the modal is closed, answers are awaited) until
    a new call is started. *)
Theorem failed_call_leaves_loading_on (m : ModalState) (es : list ModalEvent) :
  isAiLoading m = true -> pendingReplies m = 1%nat ->
  forallb (fun e => negb (startsCall e)) es = true ->
  let m' := modalRun (modalStep m ReplyFails) es in
  isAiLoading m' = true /\ pendingReplies m' = 0%nat.
Proof.
  intros Hl Hp Hes. cbv zeta.
  assert (isAiLoading (modalStep m ReplyFails) = true
          /\ pendingReplies (modalStep m ReplyFails) = 0%nat) as H
    by (cbn; rewrite Hp; auto).
  revert H. generalize (modalStep m ReplyFails). clear m Hl Hp.
  unfold modalRun.
  induction es as [|e es IH]; intros m H; cbn [fold_left]; [exact H|].
  cbn [forallb] in Hes. apply andb_true_iff in Hes as [He Hes].
  apply IH; [exact Hes|]. destruct H as [Hl Hp].
  destruct e as [c| |u| |t|]; try discriminate; cbn.
  - destruct (selectedContact m); cbn; auto.
  - unfold replyArrives. rewrite Hp. auto.
  - rewrite Hp. auto.
Qed.

(** ** The properties at sample states *)

(** X1 at the state reached by switching tracking on without geolocation. *)
Lemma one_interval_iff_tracking_witness :
  reachable (fun _ _ => 0) Some trackingState /\
  (List.length (timers trackingState) <= 1)%nat /\
  (timers trackingState <> [] <->
   isTracking trackingState = true /\ userLocation trackingState <> None) /\
  (forall t u, In (t, u) (timers trackingState) ->
     userLocation trackingState = Some u /\ cleanup trackingState = Some t
     /\ (t < nextTimer trackingState)%nat).
Proof.
  assert (reachable (fun _ _ => 0) Some trackingState) as H
    by (apply reachable_step, reachable_initial).
  split; [exact H|].
  exact (one_interval_iff_tracking (fun _ _ => 0) Some trackingState H).
Defined.

(** X2 at the initial state. *)
Lemma start_tracking_falls_back_witness :
  reachable (fun _ _ => 0) Some (initialState 0%Z) /\
  isTracking (initialState 0%Z) = false /\
  (let s1 := step (fun _ _ => 0) Some (initialState 0%Z) (ClickPower false) in
   isTracking s1 = true /\
   userLocation s1 = Some MOCK_USER_START_LOCATION /\
   timers s1 = [(nextTimer (initialState 0%Z), MOCK_USER_START_LOCATION)]) /\
  (let s2 := step (fun _ _ => 0) Some (initialState 0%Z) (ClickPower true) in
   isTracking s2 = true /\ userLocation s2 = userLocation (initialState 0%Z) /\
   pendingPositions s2 = S (pendingPositions (initialState 0%Z)) /\
   let s3 := step (fun _ _ => 0) Some s2 PositionError in
   isTracking s3 = true /\
   userLocation s3 = Some MOCK_USER_START_LOCATION /\
   pendingPositions s3 = pendingPositions (initialState 0%Z) /\
   exists t, timers s3 = [(t, MOCK_USER_START_LOCATION)]).
Proof.
  assert (reachable (fun _ _ => 0) Some (initialState 0%Z)) as H
    by apply reachable_initial.
  split; [exact H|]. split; [reflexivity|].
  exact (start_tracking_falls_back (fun _ _ => 0) Some (initialState 0%Z) H eq_refl).
Defined.

(** X3 at the initial state. *)
Lemma start_tracking_waits_for_position_witness :
  reachable (fun _ _ => 0) Some (initialState 0%Z) /\
  isTracking (initialState 0%Z) = false /\
  userLocation (initialState 0%Z) = None /\
  let s2 := step (fun _ _ => 0) Some (initialState 0%Z) (ClickPower true) in
  timers s2 = [] /\
  (forall t d, step (fun _ _ => 0) Some s2 (IntervalFires t d) = s2) /\
  forall lat lon,
    let s3 := step (fun _ _ => 0) Some s2 (PositionSuccess lat lon) in
    isTracking s3 = true /\
    userLocation s3 = Some {| latitude := lat; longitude := lon |} /\
    timers s3 = [(nextTimer (initialState 0%Z), {| latitude := lat; longitude := lon |})].
Proof.
  assert (reachable (fun _ _ => 0) Some (initialState 0%Z)) as H
    by apply reachable_initial.
  split; [exact H|]. split; [reflexivity|]. split; [reflexivity|].
  exact (start_tracking_waits_for_position (fun _ _ => 0) Some (initialState 0%Z)
           H eq_refl eq_refl).
Defined.

(** X4 at the state that waits for the answer to its position request,
    which then gives the position (51.5, -0.12). *)
Lemma late_position_is_kept_witness :
  reachable (fun _ _ => 0) Some waitingState /\
  isTracking waitingState = true /\ (0 < pendingPositions waitingState)%nat /\
  let s1 := step (fun _ _ => 0) Some waitingState (ClickPower true) in
  let s2 := step (fun _ _ => 0) Some s1 (PositionSuccess 51.5 (-0.12)) in
  let s3 := step (fun _ _ => 0) Some s2 (ClickPower true) in
  isTracking s1 = false /\ userLocation s1 = None /\
  pendingPositions s1 = pendingPositions waitingState /\
  isTracking s2 = false /\
  userLocation s2 = Some {| latitude := 51.5; longitude := -0.12 |} /\
  timers s2 = [] /\
  isTracking s3 = true /\
  timers s3 = [(nextTimer s2, {| latitude := 51.5; longitude := -0.12 |})].
Proof.
  assert (reachable (fun _ _ => 0) Some waitingState) as H
    by (apply reachable_step, reachable_initial).
  assert ((0 < pendingPositions waitingState)%nat) as Hp by (cbn; lia).
  split; [exact H|]. split; [reflexivity|]. split; [exact Hp|].
  exact (late_position_is_kept (fun _ _ => 0) Some waitingState true 51.5 (-0.12)
           H eq_refl Hp).
Defined.

(** X5 at the state after the first tick: tracking is stopped, a tick that
    was due and a failed position request follow. *)
Lemma stop_tracking_keeps_nearby_witness :
  reachable (fun _ _ => 0) Some tickedState /\
  isTracking tickedState = true /\
  forallb (fun e => negb (isClickPower e))
          [IntervalFires 1%nat someDraws; PositionError] = true /\
  nearbyContacts
    (run (fun _ _ => 0) Some
       (step (fun _ _ => 0) Some tickedState (ClickPower true))
       [IntervalFires 1%nat someDraws; PositionError])
  = nearbyContacts tickedState.
Proof.
  assert (reachable (fun _ _ => 0) Some tickedState) as H
    by (do 2 apply reachable_step; apply reachable_initial).
  split; [exact H|]. split; [reflexivity|]. split; [reflexivity|].
  exact (stop_tracking_keeps_nearby (fun _ _ => 0) Some tickedState true
           [IntervalFires 1%nat someDraws; PositionError] H eq_refl eq_refl).
Defined.

(** X6 at the state after the first tick, whose nearby set holds the
    initial contact at the distance 0. *)
Lemma nearby_are_participants_in_range_witness :
  reachable (fun _ _ => 0) Some tickedState /\
  In (withDistance (fun _ => 0) tickedContact) (nearbyContacts tickedState) /\
  isRegistered (base (withDistance (fun _ => 0) tickedContact)) = true /\
  (distanceKm (withDistance (fun _ => 0) tickedContact) <=? RADAR_RADIUS_KM) = true /\
  In (id (base (withDistance (fun _ => 0) tickedContact)))
     (map id (allContacts tickedState)).
Proof.
  assert (reachable (fun _ _ => 0) Some tickedState) as H
    by (do 2 apply reachable_step; apply reachable_initial).
  assert (In (withDistance (fun _ => 0) tickedContact) (nearbyContacts tickedState))
    as Hin by (left; reflexivity).
  split; [exact H|]. split; [exact Hin|].
  exact (nearby_are_participants_in_range (fun _ _ => 0) Some tickedState _ H Hin).
Defined.

(** X7 at the state after the first tick, on a display of 448 px. *)
Lemma Radar_plots_whole_nearby_set_witness :
  reachable (fun _ _ => 0) Some tickedState /\
  userLocation tickedState = Some MOCK_USER_START_LOCATION /\
  let plotted :=
    Radar (fun _ _ => 0) (fun _ => 1) (fun _ => 0) (userLocation tickedState)
          (nearbyContacts tickedState) 448 448 in
  map dot_contact plotted = nearbyContacts tickedState /\
  plotted =
    map (projectionSpec (fun _ _ => 0) (fun _ => 1) (fun _ => 0)
           MOCK_USER_START_LOCATION (radarCenter 448 448) (radarMaxRadiusPx 448 448))
        (nearbyContacts tickedState).
Proof.
  assert (reachable (fun _ _ => 0) Some tickedState) as H
    by (do 2 apply reachable_step; apply reachable_initial).
  split; [exact H|]. split; [reflexivity|].
  exact (Radar_plots_whole_nearby_set (fun _ _ => 0) Some
           (fun _ _ => 0) (fun _ => 1) (fun _ => 0)
           tickedState MOCK_USER_START_LOCATION 448 448 H eq_refl).
Defined.

(** X9 at the run that switches tracking on and lets the interval fire
    once. *)
Lemma contacts_stay_finite_participants_witness :
  Forall unitDraws [ClickPower false; IntervalFires 1%nat someDraws] /\
  Forall (fun c => isRegistered c = true /\ finiteCoordinates (location c))
         (allContacts
            (run (fun _ _ => 0) Some (initialState 0%Z)
                 [ClickPower false; IntervalFires 1%nat someDraws])).
Proof.
  assert (Forall unitDraws [ClickPower false; IntervalFires 1%nat someDraws]) as H.
  { constructor; [exact I|]. constructor; [|constructor].
    intros k. split; reflexivity. }
  split; [exact H|].
  exact (contacts_stay_finite_participants (fun _ _ => 0) Some 0%Z _ H).
Defined.

(** X10 at the second tick of that run. *)
Lemma tick_displacement_bounded_witness :
  Forall unitDraws [ClickPower false; IntervalFires 1%nat someDraws] /\
  (forall k : nat, unitInterval (someDraws k)) /\
  let s := run (fun _ _ => 0) Some (initialState 0%Z)
               [ClickPower false; IntervalFires 1%nat someDraws] in
  Forall2
    (fun c c' =>
       id c' = id c /\
       (abs (latitude (location c') - latitude (location c)) <=? 0.0005) = true /\
       (abs (longitude (location c') - longitude (location c)) <=? 0.0005) = true)
    (allContacts s)
    (allContacts (step (fun _ _ => 0) Some s (IntervalFires 1%nat someDraws))).
Proof.
  assert (forall k : nat, unitInterval (someDraws k)) as Hd
    by (intros k; split; reflexivity).
  assert (Forall unitDraws [ClickPower false; IntervalFires 1%nat someDraws]) as H.
  { constructor; [exact I|]. constructor; [exact Hd|constructor]. }
  split; [exact H|]. split; [exact Hd|].
  exact (tick_displacement_bounded (fun _ _ => 0) Some 0%Z _ 1%nat someDraws H Hd).
Defined.

(** X12 at a collection of one contact that does not take part. *)
Lemma tick_without_participants_witness :
  forallb (fun c => negb (isRegistered c)) [offlineContact] = true /\
  tick (fun _ _ => 0) MOCK_USER_START_LOCATION [offlineContact] someDraws 0%nat
  = (([offlineContact], []), 0%nat).
Proof.
  split; [reflexivity|].
  exact (tick_without_participants (fun _ _ => 0) MOCK_USER_START_LOCATION
           [offlineContact] someDraws 0%nat eq_refl).
Defined.

(** X15 at two saves one millisecond apart. *)
Lemma ids_distinct_when_clock_advances_witness :
  increasingTimestamps 1 (twoSaves 1700000000000%Z 1700000000001%Z) /\
  NoDup (map id
           (allContacts
              (run (fun _ _ => 0) Some (initialState 0%Z)
                   (twoSaves 1700000000000%Z 1700000000001%Z)))).
Proof.
  assert (increasingTimestamps 1 (twoSaves 1700000000000%Z 1700000000001%Z)) as H
    by (cbn; lia).
  split; [exact H|].
  exact (ids_distinct_when_clock_advances (fun _ _ => 0) Some 0%Z _ H).
Defined.

(** X16 at the first tick of [trackingState]: the row of the initial
    contact shows the distance 0. *)
Lemma list_marks_the_nearby_contacts_witness :
  NoDup (map id (allContacts trackingState)) /\
  activeInterval 1%nat (timers trackingState) = Some MOCK_USER_START_LOCATION /\
  In tickedContact (allContacts tickedState) /\
  isNearby (nearbyContacts tickedState) tickedContact =
    if isRegistered tickedContact
       && ((fun _ _ => 0) MOCK_USER_START_LOCATION (location tickedContact)
           <=? RADAR_RADIUS_KM)
    then Some {| base := tickedContact;
                 distanceKm := (fun _ _ => 0) MOCK_USER_START_LOCATION
                                 (location tickedContact) |}
    else None.
Proof.
  assert (NoDup (map id (allContacts trackingState))) as Hn
    by (repeat constructor; intros []).
  assert (In tickedContact (allContacts tickedState)) as Hin by (left; reflexivity).
  split; [exact Hn|]. split; [reflexivity|]. split; [exact Hin|].
  exact (list_marks_the_nearby_contacts (fun _ _ => 0) Some trackingState 1%nat
           MOCK_USER_START_LOCATION someDraws tickedContact Hn eq_refl Hin).
Defined.

(** X18 at the first tick of [trackingState]. *)
Lemma list_row_shows_first_match_witness :
  activeInterval 1%nat (timers trackingState) = Some MOCK_USER_START_LOCATION /\
  isNearby (nearbyContacts tickedState) tickedContact =
    option_map (withDistance ((fun _ _ => 0) MOCK_USER_START_LOCATION))
      (find (fun a => isRegistered a
                      && ((fun _ _ => 0) MOCK_USER_START_LOCATION (location a)
                          <=? RADAR_RADIUS_KM)
                      && strictEquals (id a) (id tickedContact))
            (allContacts tickedState)).
Proof.
  split; [reflexivity|].
  exact (list_row_shows_first_match (fun _ _ => 0) Some trackingState 1%nat
           MOCK_USER_START_LOCATION someDraws tickedContact eq_refl).
Defined.

(** X19 at two saves one millisecond apart, followed by a tick. *)
Lemma nearby_ids_distinct_witness :
  increasingTimestamps 1
    (twoSaves 1700000000000%Z 1700000000001%Z
     ++ [ClickPower false; IntervalFires 1%nat someDraws]) /\
  NoDup (map (fun n => id (base n))
           (nearbyContacts
              (run (fun _ _ => 0) Some (initialState 0%Z)
                   (twoSaves 1700000000000%Z 1700000000001%Z
                    ++ [ClickPower false; IntervalFires 1%nat someDraws])))).
Proof.
  assert (increasingTimestamps 1
            (twoSaves 1700000000000%Z 1700000000001%Z
             ++ [ClickPower false; IntervalFires 1%nat someDraws])) as H
    by (cbn; lia).
  split; [exact H|].
  exact (nearby_ids_distinct (fun _ _ => 0) Some 0%Z _ H).
Defined.

(** X20 at a display of 448 px by 300 px. *)
Lemma radius_of_display_witness :
  (40 <=? 448) = true /\ (448 <? infinity) = true /\
  (40 <=? 300) = true /\ (300 <? infinity) = true /\
  (0 <=? radarMaxRadiusPx 448 300) = true /\
  (radarMaxRadiusPx 448 300 <? infinity) = true.
Proof.
  do 4 (split; [reflexivity|]).
  exact (radius_of_display 448 300 eq_refl eq_refl eq_refl eq_refl).
Defined.

Lemma latitudeGap_not_negative (a b : Coordinates) :
  (latitudeGap a b <? 0) = false.
Proof.
  unfold latitudeGap. rewrite ltb_spec, abs_spec.
  change (Prim2SF 0) with (S754_zero false).
  destruct (Prim2SF (latitude b - latitude a)) as [[]|[]| |[] m e]; reflexivity.
Qed.

(** X21 at the state after the first tick, with the gap between the
    latitudes for the distance, on a display of 448 px. *)
Lemma dots_within_outer_circle_witness :
  (forall a b : Coordinates, (latitudeGap a b <? 0) = false) /\
  reachable latitudeGap Some gapTickedState /\
  (40 <=? 448) = true /\ (448 <? infinity) = true /\
  In (projectionSpec (fun _ _ => 0) (fun _ => 1) (fun _ => 0)
        MOCK_USER_START_LOCATION (radarCenter 448 448) (radarMaxRadiusPx 448 448)
        (withDistance (latitudeGap MOCK_USER_START_LOCATION) tickedContact))
     (Radar (fun _ _ => 0) (fun _ => 1) (fun _ => 0) (userLocation gapTickedState)
        (nearbyContacts gapTickedState) 448 448) /\
  In (withDistance (latitudeGap MOCK_USER_START_LOCATION) tickedContact)
     (nearbyContacts gapTickedState) /\
  (0 <=? contactDistPx (radarMaxRadiusPx 448 448)
           (withDistance (latitudeGap MOCK_USER_START_LOCATION) tickedContact)) = true /\
  (contactDistPx (radarMaxRadiusPx 448 448)
     (withDistance (latitudeGap MOCK_USER_START_LOCATION) tickedContact)
     <=? radarMaxRadiusPx 448 448) = true.
Proof.
  assert (reachable latitudeGap Some gapTickedState) as H
    by (do 2 apply reachable_step; apply reachable_initial).
  assert (In (projectionSpec (fun _ _ => 0) (fun _ => 1) (fun _ => 0)
                MOCK_USER_START_LOCATION (radarCenter 448 448)
                (radarMaxRadiusPx 448 448)
                (withDistance (latitudeGap MOCK_USER_START_LOCATION) tickedContact))
             (Radar (fun _ _ => 0) (fun _ => 1) (fun _ => 0)
                (userLocation gapTickedState)
                (nearbyContacts gapTickedState) 448 448)) as Hin
    by (left; reflexivity).
  split; [exact latitudeGap_not_negative|]. split; [exact H|]. split; [reflexivity|].
  split; [reflexivity|]. split; [exact Hin|].
  exact (dots_within_outer_circle latitudeGap Some
           (fun _ _ => 0) (fun _ => 1) (fun _ => 0) gapTickedState 448 448 _
           latitudeGap_not_negative H eq_refl eq_refl eq_refl eq_refl Hin).
Defined.

(** X22 at a contact 2.5 km away on a display of 448 px, whose radar has
    the radius 204 px. *)
Lemma circles_agree_with_scale_witness :
  (1 <=? radarMaxRadiusPx 448 448) = true /\
  (radarMaxRadiusPx 448 448 <? infinity) = true /\
  distanceKm (contactAt 2.5) = 2.5 /\
  contactDistPx (radarMaxRadiusPx 448 448) (contactAt 2.5)
  = circle_r (midCircle 448 448).
Proof.
  split; [reflexivity|]. split; [reflexivity|]. split; [reflexivity|].
  exact (proj2 (circles_agree_with_scale 448 448 (contactAt 2.5))
           eq_refl eq_refl eq_refl).
Defined.

(** X23 at a contact 2.5 km away on a display of 448 px, with an angle
    whose cosine is 1 and whose sine is 0. *)
Lemma dots_between_crosshairs_witness :
  (40 <=? 448) = true /\ (448 <? infinity) = true /\
  In (projectionSpec (fun _ _ => 0) (fun _ => 1) (fun _ => 0)
        MOCK_USER_START_LOCATION (radarCenter 448 448) (radarMaxRadiusPx 448 448)
        (contactAt 2.5))
     (Radar (fun _ _ => 0) (fun _ => 1) (fun _ => 0)
        (Some MOCK_USER_START_LOCATION) [contactAt 2.5] 448 448) /\
  (0 <=? distanceKm (contactAt 2.5)) = true /\
  (line_x1 (horizontalCrosshair 448 448) <=? 224 + 1 * 102) = true /\
  (224 + 1 * 102 <=? line_x2 (horizontalCrosshair 448 448)) = true /\
  (line_y1 (verticalCrosshair 448 448) <=? 224 + 0 * 102) = true /\
  (224 + 0 * 102 <=? line_y2 (verticalCrosshair 448 448)) = true.
Proof.
  assert (In (projectionSpec (fun _ _ => 0) (fun _ => 1) (fun _ => 0)
                MOCK_USER_START_LOCATION (radarCenter 448 448)
                (radarMaxRadiusPx 448 448) (contactAt 2.5))
             (Radar (fun _ _ => 0) (fun _ => 1) (fun _ => 0)
                (Some MOCK_USER_START_LOCATION) [contactAt 2.5] 448 448)) as Hin
    by (left; reflexivity).
  split; [reflexivity|]. split; [reflexivity|]. split; [exact Hin|].
  split; [reflexivity|].
  exact (dots_between_crosshairs (fun _ _ => 0) (fun _ => 1) (fun _ => 0)
           MOCK_USER_START_LOCATION [contactAt 2.5] 448 448 _
           eq_refl eq_refl eq_refl eq_refl Hin eq_refl eq_refl eq_refl).
Defined.

(** X24 at a modal opened from a dot of the radar: the message has been
    drafted, and the answer to Suggest Meetup is still awaited. *)
Lemma loading_only_while_pending_witness :
  forallb (fun e => negb (isReplyFails e))
          [ClickAssist (contactAt 1); ReplyArrives (js "Hi");
           ClickMeetup (Some MOCK_USER_START_LOCATION)] = true /\
  isAiLoading
    (modalRun initialModal
       [ClickAssist (contactAt 1); ReplyArrives (js "Hi");
        ClickMeetup (Some MOCK_USER_START_LOCATION)]) = true /\
  (0 < pendingReplies
         (modalRun initialModal
            [ClickAssist (contactAt 1); ReplyArrives (js "Hi");
             ClickMeetup (Some MOCK_USER_START_LOCATION)]))%nat.
Proof.
  split; [reflexivity|]. split; [reflexivity|].
  exact (loading_only_while_pending
           [ClickAssist (contactAt 1); ReplyArrives (js "Hi");
            ClickMeetup (Some MOCK_USER_START_LOCATION)] eq_refl eq_refl).
Defined.

(** X25 at a modal whose only call has failed: it is closed, and a stray
    answer changes nothing. *)
Lemma failed_call_leaves_loading_on_witness :
  isAiLoading (modalStep initialModal (ClickAssist (contactAt 1))) = true /\
  pendingReplies (modalStep initialModal (ClickAssist (contactAt 1))) = 1%nat /\
  forallb (fun e => negb (startsCall e)) [ClickClose; ReplyArrives (js "Hi")] = true /\
  let m' :=
    modalRun (modalStep (modalStep initialModal (ClickAssist (contactAt 1))) ReplyFails)
             [ClickClose; ReplyArrives (js "Hi")] in
  isAiLoading m' = true /\ pendingReplies m' = 0%nat.
Proof.
  split; [reflexivity|]. split; [reflexivity|]. split; [reflexivity|].
  exact (failed_call_leaves_loading_on
           (modalStep initialModal (ClickAssist (contactAt 1)))
           [ClickClose; ReplyArrives (js "Hi")] eq_refl eq_refl eq_refl).
Defined.

(** * Sample evaluations *)

Example trim_strips_white_space : trim (js "  Ann Lee  ") = js "Ann Lee".
Proof. reflexivity. Qed.

Example trim_of_blank : trim (js "   ") = [].
Proof. reflexivity. Qed.

Example toString_of_timestamp : toString 1700000000000%Z = js "1700000000000".
Proof. reflexivity. Qed.

Example Math_min_of_zeros : Math_min 0 (-0) = (-0) /\ Math_min 3 2 = 2.
Proof. split; reflexivity. Qed.

(** The initial contact after one tick in which both draws are 0.75. *)
Example moveContacts_of_initial :
  map location (fst (moveContacts (INITIAL_CONTACTS 0%Z) (fun _ => 0.75) 0%nat))
  = [ {| latitude := 40.7145 + 0.000125; longitude := -74.0075 + 0.000125 |} ].
Proof. vm_compute. reflexivity. Qed.

(** The radius of the radar on a display of 448 px is 204 px, and a contact
    2.5 km away sits 102 px from the centre. *)
Example radar_of_448_px :
  radarMaxRadiusPx 448 448 = 204 /\
  contactDistPx (radarMaxRadiusPx 448 448) (contactAt 2.5) = 102.
Proof. split; vm_compute; reflexivity. Qed.

(** Rounding of the sum shows in the difference: with the draw 0 the offset
    is exactly -0.00025, yet at the latitude 40.7128 the new value differs
    from the old one by a little more than 0.00025. *)
Example walk_difference_is_rounded :
  (0 - 0.5) * 0.0005 = -0.00025 /\
  (abs (40.7128 + (0 - 0.5) * 0.0005 - 40.7128) <=? 0.00025) = false /\
  (abs (40.7128 + (0 - 0.5) * 0.0005 - 40.7128) <=? 0.0005) = true.
Proof. repeat split; vm_compute; reflexivity. Qed.
